(** * Canary transfer-rate measurement (canary/MeasureTransferRate.cpp)

    A shallow embedding of [MeasureTransferRate::PerformMeasurement], of the
    transfer functions its three call sites hand to it, and of the metrics
    pulse task, together with the properties of the bounded-concurrency
    orchestrator and of the multi-process protocol.

    The issuing thread is a deterministic step function over a program
    counter; completion callbacks run on other threads and are modelled as
    environment steps interleaved with it, one step for each of their
    atomic operations.  The two waits on [transferCompletedSignal] are
    modelled with the condition variable's own steps: the callbacks notify
    without holding [transferCompletedMutex], so a notification can fall
    between the issuing thread's test of the predicate and its blocking.
    Every side effect on a collaborator (transport, key/value channel,
    logger) is recorded, in program order, in the trace of the run. *)

From Stdlib Require Import ZArith Lia.
From stdpp Require Import base list relations strings.

Local Open Scope Z_scope.

(** ** Machine integers *)

Definition UINT32_MAX : Z := 2 ^ 32 - 1.
Definition UINT64_MAX : Z := 2 ^ 64 - 1.
Definition INT64_MAX : Z := 2 ^ 63 - 1.

(** Arithmetic on [uint32_t] and [uint64_t] wraps around. *)
Definition wrap32 (z : Z) : Z := z mod 2 ^ 32.
Definition wrap64 (z : Z) : Z := z mod 2 ^ 64.

Definition AWS_ERROR_SUCCESS : Z := 0.

(** ** Data model *)

(** The fields of [CanaryAppOptions] the orchestrator reads. *)
Record CanaryAppOptions := {
  isParentProcess : bool;
  isChildProcess : bool;
  childProcessIndex : Z;
  numUpTransfers : Z;
  numUpConcurrentTransfers : Z;
  numDownTransfers : Z;
  numDownConcurrentTransfers : Z;
  downloadOnly : bool;
  downloadObjectName : string
}.

(** The contents of [keyStream]: the file name prefix, followed by the
    decimal rendering of the counter when one is written. *)
Record Key := { key_prefix : string; key_suffix : option Z }.

(** Modelled from the spec: the Transfer Record ([TransferState], declared in
    TransferState.h, which is not part of the sources).  The success flag is
    tri-state; the byte samples are the values handed to [AddDataUpMetric]
    and [AddDataDownMetric]. *)
Inductive SuccessFlag := Pending | Succeeded | Failed.

Record TransferState := {
  transferSuccess : SuccessFlag;
  dataUp : list Z;
  dataDown : list Z
}.

Definition MakeTransferState : TransferState :=
  {| transferSuccess := Pending; dataUp := []; dataDown := [] |}.

Definition AddDataUpMetric (n : Z) (r : TransferState) : TransferState :=
  {| transferSuccess := transferSuccess r;
     dataUp := dataUp r ++ [n]; dataDown := dataDown r |}.

Definition AddDataDownMetric (n : Z) (r : TransferState) : TransferState :=
  {| transferSuccess := transferSuccess r;
     dataUp := dataUp r; dataDown := dataDown r ++ [n] |}.

Definition SetTransferSuccess (b : bool) (r : TransferState) : TransferState :=
  {| transferSuccess := if b then Succeeded else Failed;
     dataUp := dataUp r; dataDown := dataDown r |}.

(** Everything a run does to its collaborators, in program order. *)
Inductive Event :=
  | EWarmDNSCache (numTransfers : Z)
  | ESeedAddressCache (address : string)
  | ESpawnConnectionManagers
  | EWriteToChildProcess (index : Z) (key value : string)
  | EReadFromChildProcess (index : Z) (key : string)
  | EReadFromParentProcess (key value : string)
  | EWriteToParentProcess (key value : string)
  | ELogBeginTransfer (index inProgress cap completed total : Z)
  | ETransfer (index : Z) (key : Key)
  | ESetTransferSuccess (record : nat) (success : bool)
  | ENotifyTransferFinished (index : Z) (errorCode : Z)
  | ELogTransferError (errorCode : Z).

(** The operations of [S3ObjectTransport] used by the orchestrator.  The
    class itself lives outside the sources; the orchestrator only relies on
    this interface. *)
Class S3ObjectTransport (T : Type) := {
  WarmDNSCache : Z → T → T;
  SeedAddressCache : string → T → T;
  SpawnConnectionManagers : T → T;
  GetAddressForTransfer : Z → T → string;
  GetEndpoint : T → string
}.

(** A [TransferFunction] closure, seen from the orchestrator.  [tf_invoke]
    is the synchronous part of the call: it may touch the caller's Transfer
    Records and yields the record captured by the completion callback, or
    [None] when the call indexes its record vector out of range or calls
    through a null transport.
    [tf_complete] is the completion callback the transport later runs with
    an outcome of type [O]: it updates the records, reports the
    [SetTransferSuccess] calls it made (record and value) and computes the
    error code it hands to [notifyTransferFinished]. *)
Record TransferFunction (T O : Type) := {
  tf_invoke : Z → Key → Z → option T → list TransferState →
              option (list TransferState * nat);
  tf_complete : Z → nat → O → list TransferState →
                list TransferState * list (nat * bool) * Z
}.

Arguments tf_invoke {T O}.
Arguments tf_complete {T O}.

(** The calls a completion callback reports, as events. *)
Definition flag_events (sets : list (nat * bool)) : list Event :=
  (λ rb, ESetTransferSuccess rb.1 rb.2) <$> sets.

(** Where the issuing thread stands in [PerformMeasurement]. *)
Inductive PC :=
  | AtLoopHead                (* line 104: the loop test *)
  | AtIssue (key : Key)       (* lines 121-149: counted, about to call *)
  | InTransferFunction        (* inside transferFunction *)
  | AtWaitSlot                (* lines 151-154 *)
  | AtWaitAll                 (* lines 157-159 *)
  | Returned.

(** Where the issuing thread stands with respect to
    [transferCompletedSignal].  [wait(guard, pred)] is
    [while (!pred()) wait(guard)]: the thread tests the predicate, and when
    it is false calls [wait(guard)], which puts it on the list of waiting
    threads and blocks it. *)
Inductive Waiter :=
  | Running      (* not inside [wait(guard)] *)
  | Entering     (* found the predicate false; not yet on the waiting list *)
  | Blocked.     (* on the waiting list, until notified *)

Record State {T : Type} := mkState {
  pc : PC;
  crashed : bool;             (* a null or out-of-range access was executed *)
  i : Z;
  counter : Z;
  numInProgress : Z;
  numCompleted : Z;
  pending : list (Z * nat);   (* issued; notification not yet invoked *)
  finishing : list Z;         (* notification between its two counter updates *)
  signalling : list Z;        (* notification counted; [notify_one] to come *)
  waiter : Waiter;
  transport : option T;
  records : list TransferState;
  trace : list Event
}.
Arguments State : clear implicits.
Arguments mkState {T}.

(** The steps through the condition variable: a callback's [notify_one],
    and the issuing thread's way into and out of [wait(guard)]. *)
Inductive CvAction :=
  | NotifyOne (k : nat)
  | WaitEnter
  | WaitBlock
  | SpuriousWakeup.

(** What the environment or the issuing thread does next. *)
Inductive Action (O : Type) :=
  | Main
  | NotifyBegin (k : nat) (o : O)
  | NotifyEnd (k : nat)
  | Cv (c : CvAction).
Arguments Main {O}.
Arguments NotifyBegin {O}.
Arguments NotifyEnd {O}.
Arguments Cv {O}.

(** The two masks of the [MeasurementFlags] bit set (declared in the header,
    outside the sources). *)
Class MeasurementFlags := {
  DontWarmDNSCache : Z;
  NoFileSuffix : Z
}.

(** The arguments of one [PerformMeasurement] call, the transport handle
    apart. *)
Record Measurement {T O : Type} := {
  filenamePrefix : string;
  keyPrefix : string;
  numTransfers : Z;
  numConcurrentTransfers : Z;
  objectSize : Z;
  flags : Z;
  transferFunction : TransferFunction T O
}.
Arguments Measurement : clear implicits.

Section PerformMeasurement.
Context {T : Type} `{!S3ObjectTransport T} {O : Type} `{!MeasurementFlags}.
Variable options : CanaryAppOptions.
Variable call : Measurement T O.

Definition addressKey : string := keyPrefix call +:+ "address".
Definition finishedKey : string := keyPrefix call +:+ "finished".

Definition warmDNS : bool := Z.land (flags call) DontWarmDNSCache =? 0.
Definition withSuffix : bool := Z.land (flags call) NoFileSuffix =? 0.

(** The state at line 94, with the locals of lines 96-102. *)
Definition loop_entry (tr : option T) (recs : list TransferState)
    (evs : list Event) : State T :=
  mkState AtLoopHead false 0
    (wrap64 (INT64_MAX - childProcessIndex options)) 0 0 [] [] [] Running
    tr recs evs.

(** The coordinator's [return] at line 73: the locals of the loop are
    never created. *)
Definition coordinator_return (tr : option T) (recs : list TransferState)
    (evs : list Event) : State T :=
  mkState Returned false 0 0 0 0 [] [] [] Running tr recs evs.

(** A member call through a null transport in the prologue: the run is
    over before the loop. *)
Definition null_transport_call (recs : list TransferState)
    (evs : list Event) : State T :=
  mkState AtLoopHead true 0
    (wrap64 (INT64_MAX - childProcessIndex options)) 0 0 [] [] [] Running
    None recs evs.

Definition coordinator_writes (t : T) : list Event :=
  (λ i, EWriteToChildProcess i addressKey (GetAddressForTransfer i t))
    <$> seqZ 0 (numTransfers call).

Definition coordinator_reads : list Event :=
  (λ i, EReadFromChildProcess i finishedKey) <$> seqZ 0 (numTransfers call).

Definition warm_events : list Event :=
  if warmDNS then [EWarmDNSCache (numConcurrentTransfers call)] else [].

Definition warm_transport (t : T) : T :=
  if warmDNS then WarmDNSCache (numConcurrentTransfers call) t else t.

(** Lines 52-92: the role-dependent prologue.  [parentAddress] is the value
    the channel delivers to [ReadFromParentProcess]. *)
Definition PerformMeasurement_enter (tr : option T)
    (recs : list TransferState) (parentAddress : string) : State T :=
  if isParentProcess options then
    match tr with
    | Some t =>
        coordinator_return (Some (warm_transport t)) recs
          (warm_events ++ coordinator_writes (warm_transport t)
             ++ coordinator_reads)
    | None =>
        if warmDNS then null_transport_call recs []
        else if 0 <? numTransfers call then null_transport_call recs []
        else coordinator_return None recs []
    end
  else if isChildProcess options then
    match tr with
    | Some t =>
        loop_entry
          (Some (SpawnConnectionManagers (SeedAddressCache parentAddress t)))
          recs
          [EReadFromParentProcess addressKey parentAddress;
           ESeedAddressCache parentAddress;
           ESpawnConnectionManagers]
    | None =>
        null_transport_call recs
          [EReadFromParentProcess addressKey parentAddress]
    end
  else
    match tr with
    | Some t =>
        loop_entry (Some (SpawnConnectionManagers (warm_transport t))) recs
          (warm_events ++ [ESpawnConnectionManagers])
    | None => null_transport_call recs []
    end.

(** Lines 104-164: one step of the issuing thread in its own code.  [None]
    means the thread cannot move there: it stands at a wait whose predicate
    is false or is inside [wait(guard)], has returned, or has crashed.  The
    mutex of lines 151 and 157 is locked by this thread alone and never
    contended. *)
Definition main_step (s : State T) : option (State T) :=
  if crashed s then None else
  match waiter s with
  | Running =>
  match pc s with
  | AtLoopHead =>
      if i s <? numTransfers call then
        let c := if counter s =? 0 then INT64_MAX else counter s in
        let key := {| key_prefix := filenamePrefix call;
                      key_suffix := if withSuffix then Some c else None |} in
        Some (mkState (AtIssue key) false (i s)
                (if withSuffix then wrap64 (c - 1) else c)
                (wrap32 (numInProgress s + 1)) (numCompleted s)
                (pending s) (finishing s) (signalling s) Running
                (transport s) (records s) (trace s))
      else
        Some (mkState AtWaitAll false (i s) (counter s)
                (numInProgress s) (numCompleted s)
                (pending s) (finishing s) (signalling s) Running
                (transport s) (records s) (trace s))
  | AtIssue key =>
      let log := ELogBeginTransfer (i s) (numInProgress s)
                   (numConcurrentTransfers call) (numCompleted s)
                   (numTransfers call) in
      match tf_invoke (transferFunction call) (i s) key (objectSize call)
              (transport s) (records s) with
      | Some (recs, r) =>
          Some (mkState InTransferFunction false (i s) (counter s)
                  (numInProgress s) (numCompleted s)
                  (pending s ++ [(i s, r)]) (finishing s)
                  (signalling s) Running (transport s) recs
                  (trace s ++ [log; ETransfer (i s) key]))
      | None =>
          Some (mkState (AtIssue key) true (i s) (counter s)
                  (numInProgress s) (numCompleted s)
                  (pending s) (finishing s) (signalling s) Running
                  (transport s) (records s)
                  (trace s ++ [log]))
      end
  | InTransferFunction =>
      Some (mkState AtWaitSlot false (i s) (counter s)
              (numInProgress s) (numCompleted s)
              (pending s) (finishing s) (signalling s) Running
              (transport s) (records s) (trace s))
  | AtWaitSlot =>
      if numInProgress s <? numConcurrentTransfers call then
        Some (mkState AtLoopHead false (wrap32 (i s + 1)) (counter s)
                (numInProgress s) (numCompleted s)
                (pending s) (finishing s) (signalling s) Running
                (transport s) (records s) (trace s))
      else None
  | AtWaitAll =>
      if numTransfers call <=? numCompleted s then
        Some (mkState Returned false (i s) (counter s)
                (numInProgress s) (numCompleted s)
                (pending s) (finishing s) (signalling s) Running
                (transport s) (records s)
                (trace s ++
                   (if isChildProcess options
                    then [EWriteToParentProcess finishedKey "done"]
                    else [])))
      else None
  | Returned => None
  end
  | Entering | Blocked => None
  end.

(** Lines 123-134: a pending transfer's completion callback runs with
    outcome [o], up to and including [--numInProgress]. *)
Definition notify_begin (k : nat) (o : O) (s : State T) : option (State T) :=
  if crashed s then None else
  match pending s !! k with
  | Some (j, r) =>
      let '(recs, sets, errorCode) :=
        tf_complete (transferFunction call) j r o (records s) in
      Some (mkState (pc s) false (i s) (counter s)
              (wrap32 (numInProgress s - 1)) (numCompleted s)
              (delete k (pending s)) (finishing s ++ [j])
              (signalling s) (waiter s)
              (transport s) recs
              (trace s ++ flag_events sets ++
                 [ENotifyTransferFinished j errorCode] ++
                 (if errorCode =? AWS_ERROR_SUCCESS then []
                  else [ELogTransferError errorCode])))
  | None => None
  end.

(** Line 135: the same callback's [++numCompleted]. *)
Definition notify_end (k : nat) (s : State T) : option (State T) :=
  if crashed s then None else
  match finishing s !! k with
  | Some j =>
      Some (mkState (pc s) false (i s) (counter s)
              (numInProgress s) (wrap32 (numCompleted s + 1))
              (pending s) (delete k (finishing s))
              (signalling s ++ [j]) (waiter s)
              (transport s) (records s) (trace s))
  | None => None
  end.

(** The state with another condition-variable part. *)
Definition with_cv (sig : list Z) (w : Waiter) (s : State T) : State T :=
  mkState (pc s) (crashed s) (i s) (counter s) (numInProgress s)
    (numCompleted s) (pending s) (finishing s) sig w
    (transport s) (records s) (trace s).

(** The steps of [transferCompletedSignal], a [std::condition_variable] of
    the C++ standard library.

    Line 137, [notify_one]: the callback takes no lock; a thread on the
    waiting list is woken, and when there is none the call has no effect.
    Nothing keeps the call from running after the issuing thread has
    returned.

    Lines 151-154 and 157-159, [wait(guard, pred)] when the predicate is
    false: the thread enters [wait(guard)], then blocks; woken by a
    notification or spuriously, it tests the predicate again. *)
Definition cv_step (c : CvAction) (s : State T) : option (State T) :=
  if crashed s then None else
  match c with
  | NotifyOne k =>
      match signalling s !! k with
      | Some _ =>
          Some (with_cv (delete k (signalling s))
                  (match waiter s with Blocked => Running | w => w end) s)
      | None => None
      end
  | WaitEnter =>
      match waiter s, pc s with
      | Running, AtWaitSlot =>
          if numInProgress s <? numConcurrentTransfers call then None
          else Some (with_cv (signalling s) Entering s)
      | Running, AtWaitAll =>
          if numTransfers call <=? numCompleted s then None
          else Some (with_cv (signalling s) Entering s)
      | _, _ => None
      end
  | WaitBlock =>
      match waiter s with
      | Entering => Some (with_cv (signalling s) Blocked s)
      | _ => None
      end
  | SpuriousWakeup =>
      match waiter s with
      | Blocked => Some (with_cv (signalling s) Running s)
      | _ => None
      end
  end.

Definition act (a : Action O) (s : State T) : option (State T) :=
  match a with
  | Main => main_step s
  | NotifyBegin k o => notify_begin k o s
  | NotifyEnd k => notify_end k s
  | Cv c => cv_step c s
  end.

(** The interleavings of the issuing thread with the completions. *)
Definition step (s s' : State T) : Prop := ∃ a, act a s = Some s'.

(** Runs a schedule. *)
Fixpoint run (acts : list (Action O)) (s : State T) : option (State T) :=
  match acts with
  | [] => Some s
  | a :: acts => match act a s with Some s' => run acts s' | None => None end
  end.

(** The states a run of the call can be in. *)
Definition reachable (tr : option T) (recs : list TransferState)
    (parentAddress : string) (s : State T) : Prop :=
  rtc step (PerformMeasurement_enter tr recs parentAddress) s.

End PerformMeasurement.

(** ** The transfer functions of the three call sites *)

Definition SinglePartObjectSize : Z := 5 * 1024 * 1024 * 1024.

(** What the HTTP client reports for one GET: the arguments of the
    connection-acquired callback and, when a stream was opened, those of
    [onStreamComplete]. *)
Record HttpOutcome := {
  connUsable : bool;          (* conn != nullptr && conn->IsOpen() *)
  connErrorCode : Z;
  streamError : Z;
  responseStatus : Z
}.

Section TransferFunctions.
Context {T : Type}.

(** [AWS_ERROR_UNKNOWN], an error code of aws-c-common. *)
Variable AWS_ERROR_UNKNOWN : Z.

(** Lines 231-281: the error code the HTTP callbacks hand to
    [notifyTransferFinished]. *)
Definition http_error_code (o : HttpOutcome) : Z :=
  let connErr :=
    if negb (connUsable o) && (connErrorCode o =? AWS_ERROR_SUCCESS)
    then AWS_ERROR_UNKNOWN else connErrorCode o in
  if connErr =? AWS_ERROR_SUCCESS then
    if streamError o =? AWS_ERROR_SUCCESS then
      if negb (responseStatus o =? 200) then AWS_ERROR_UNKNOWN
      else streamError o
    else streamError o
  else connErr.

(** Lines 204-283: the closure of [MeasureHttpTransfer].  It creates its
    own Transfer Record and never looks at the transport; its completion
    callbacks notify the orchestrator and leave the success flag alone. *)
Definition HttpTransfer : TransferFunction T HttpOutcome :=
  {| tf_invoke := λ _ _ _ _ recs,
       Some (recs ++ [AddDataDownMetric 0 MakeTransferState], length recs);
     tf_complete := λ _ _ o recs, (recs, [], http_error_code o) |}.

(** Lines 327-345: the upload closure; [uploads[transferIndex]] is the
    record, [transport->PutObject] the call. *)
Definition SinglePartUpload : TransferFunction T Z :=
  {| tf_invoke := λ transferIndex _ _ tr recs,
       match recs !! Z.to_nat transferIndex, tr with
       | Some st, Some _ =>
           Some (<[Z.to_nat transferIndex := AddDataUpMetric 0 st]> recs,
                 Z.to_nat transferIndex)
       | _, _ => None
       end;
     tf_complete := λ _ r errorCode recs,
       (alter (SetTransferSuccess (errorCode =? AWS_ERROR_SUCCESS)) r recs,
        [(r, errorCode =? AWS_ERROR_SUCCESS)],
        errorCode) |}.

(** Lines 374-394: the download closure, with [transport->GetObject]. *)
Definition SinglePartDownload : TransferFunction T Z :=
  {| tf_invoke := λ transferIndex _ _ tr recs,
       match recs !! Z.to_nat transferIndex, tr with
       | Some st, Some _ =>
           Some (<[Z.to_nat transferIndex := AddDataDownMetric 0 st]> recs,
                 Z.to_nat transferIndex)
       | _, _ => None
       end;
     tf_complete := λ _ r errorCode recs,
       (alter (SetTransferSuccess (errorCode =? AWS_ERROR_SUCCESS)) r recs,
        [(r, errorCode =? AWS_ERROR_SUCCESS)],
        errorCode) |}.

End TransferFunctions.

(** The record vectors built at lines 311-317 and 358-364. *)
Definition MakeRecords (n : Z) : list TransferState :=
  replicate (Z.to_nat n) MakeTransferState.

Section CallSites.
Context {T : Type} `{!MeasurementFlags}.
Variable AWS_ERROR_UNKNOWN : Z.
Variable options : CanaryAppOptions.

(** Lines 196-203; the call passes [nullptr] as its transport. *)
Definition HttpMeasurement : Measurement T HttpOutcome :=
  {| filenamePrefix := downloadObjectName options;
     keyPrefix := "httpTransferDown-";
     numTransfers := numDownTransfers options;
     numConcurrentTransfers := numDownConcurrentTransfers options;
     objectSize := SinglePartObjectSize;
     flags := Z.lor DontWarmDNSCache NoFileSuffix;
     transferFunction := HttpTransfer AWS_ERROR_UNKNOWN |}.

Definition HttpMeasurement_transport : option T := None.

(** Lines 319-326, on the records of lines 311-317. *)
Definition UploadMeasurement : Measurement T Z :=
  {| filenamePrefix := "crt-canary-obj-single-part";
     keyPrefix := "singlePartObjectUp-";
     numTransfers := numUpTransfers options;
     numConcurrentTransfers := numUpConcurrentTransfers options;
     objectSize := SinglePartObjectSize;
     flags := 0;
     transferFunction := SinglePartUpload |}.

(** Lines 366-373, on the records of lines 358-364. *)
Definition DownloadMeasurement : Measurement T Z :=
  {| filenamePrefix := downloadObjectName options;
     keyPrefix := "singlePartObjectDown-";
     numTransfers := numDownTransfers options;
     numConcurrentTransfers := numDownConcurrentTransfers options;
     objectSize := SinglePartObjectSize;
     flags := NoFileSuffix;
     transferFunction := SinglePartDownload |}.

End CallSites.

(** ** The metrics pulse *)

Inductive aws_task_status :=
  | AWS_TASK_STATUS_RUN_READY
  | AWS_TASK_STATUS_CANCELED.

Inductive MetricName := S3UploadAddressCount | S3DownloadAddressCount.
Inductive MetricUnit := Count.

(** A data point; [Value] is the sampled count before its conversion to
    [double]. *)
Record Metric := { Name : MetricName; Unit : MetricUnit; Value : Z }.

Inductive PulseEvent :=
  | PGetHostAddressCount (endpoint : string) (count : Z)
  | PAddDataPoint (metric : Metric)
  | PScheduleTaskFuture (runAt : Z).

(** The orchestrator object together with the collaborators its pulse task
    reaches: the two transports, the default host resolver, the metrics
    publisher and the scheduling event loop with its clock (nanoseconds) and
    the pending [m_pulseMetricsTask], if any, with its run-at time. *)
Record MeasureTransferRate {T : Type} := mkMeasure {
  uploadTransport : T;
  downloadTransport : T;
  hostAddressCount : string → Z;
  loopClock : Z;
  pulseTask : option Z;
  dataPoints : list Metric;
  pulseLog : list PulseEvent
}.
Arguments MeasureTransferRate : clear implicits.
Arguments mkMeasure {T}.

(** Modelled from the spec: [aws_timestamp_convert] of aws-c-common, from
    milliseconds to nanoseconds, which saturates at the largest timestamp;
    the spec fixes the interval at 5000 ms. *)
Definition aws_timestamp_convert_millis_to_nanos (ms : Z) : Z :=
  Z.min (ms * 1000000) UINT64_MAX.

Definition AllocationMetricFrequency : Z := 5000.
Definition AllocationMetricFrequencyNS : Z :=
  aws_timestamp_convert_millis_to_nanos AllocationMetricFrequency.

Section Pulse.
Context {T : Type} `{!S3ObjectTransport T}.

(** Lines 412-418. *)
Definition SchedulePulseMetrics (m : MeasureTransferRate T)
    : MeasureTransferRate T :=
  let now := loopClock m in
  let runAt := wrap64 (now + AllocationMetricFrequencyNS) in
  mkMeasure (uploadTransport m) (downloadTransport m) (hostAddressCount m)
    (loopClock m) (Some runAt) (dataPoints m)
    (pulseLog m ++ [PScheduleTaskFuture runAt]).

(** Lines 446-470: one sample of a transport's resolved addresses. *)
Definition sample_address_count (name : MetricName) (endpoint : string)
    (m : MeasureTransferRate T) : MeasureTransferRate T :=
  let s3AddressCount := hostAddressCount m endpoint in
  let metric := {| Name := name; Unit := Count; Value := s3AddressCount |} in
  mkMeasure (uploadTransport m) (downloadTransport m) (hostAddressCount m)
    (loopClock m) (pulseTask m) (dataPoints m ++ [metric])
    (pulseLog m ++ [PGetHostAddressCount endpoint s3AddressCount;
                    PAddDataPoint metric]).

(** Lines 420-549. *)
Definition s_PulseMetricsTask (status : aws_task_status)
    (m : MeasureTransferRate T) : MeasureTransferRate T :=
  match status with
  | AWS_TASK_STATUS_RUN_READY =>
      let m1 := sample_address_count S3UploadAddressCount
                  (GetEndpoint (uploadTransport m)) m in
      let m2 := sample_address_count S3DownloadAddressCount
                  (GetEndpoint (downloadTransport m1)) m1 in
      SchedulePulseMetrics m2
  | AWS_TASK_STATUS_CANCELED => m
  end.

(** Lines 24-38: the constructor; [aws_task_init] leaves the task
    unscheduled. *)
Definition MeasureTransferRate_new (options : CanaryAppOptions)
    (up down : T) (resolver : string → Z) (clock : Z)
    (publisher : list Metric) : MeasureTransferRate T :=
  let m := mkMeasure up down resolver clock None publisher [] in
  if negb (isChildProcess options) then SchedulePulseMetrics m else m.

Definition unschedule (m : MeasureTransferRate T) : MeasureTransferRate T :=
  mkMeasure (uploadTransport m) (downloadTransport m) (hostAddressCount m)
    (loopClock m) None (dataPoints m) (pulseLog m).

(** Modelled from the spec: the Scheduling Context.  [cancel] removes the
    task from the loop and runs it once with the cancelled status. *)
Definition aws_event_loop_cancel_task (m : MeasureTransferRate T)
    : MeasureTransferRate T :=
  s_PulseMetricsTask AWS_TASK_STATUS_CANCELED (unschedule m).

(** Modelled from the spec: what the Scheduling Context and the rest of
    the process can do to the object: time passes, the resolver's cache
    changes, and a task whose time has come is taken off the loop and run
    with the ready status. *)
Inductive loop_step : relation (MeasureTransferRate T) :=
  | loop_tick m now :
      loopClock m ≤ now ≤ UINT64_MAX →
      loop_step m
        (mkMeasure (uploadTransport m) (downloadTransport m)
           (hostAddressCount m) now (pulseTask m) (dataPoints m) (pulseLog m))
  | loop_resolve m resolver :
      loop_step m
        (mkMeasure (uploadTransport m) (downloadTransport m)
           resolver (loopClock m) (pulseTask m) (dataPoints m) (pulseLog m))
  | loop_fire m runAt :
      pulseTask m = Some runAt →
      runAt ≤ loopClock m →
      loop_step m (s_PulseMetricsTask AWS_TASK_STATUS_RUN_READY (unschedule m)).

End Pulse.

(** ** Observations on states and traces *)

(** Transfers handed to the transfer function in the current iteration. *)
Definition in_call (p : PC) : Z :=
  match p with InTransferFunction | AtWaitSlot => 1 | _ => 0 end.

(** Transfers counted in [numInProgress] but not yet handed over. *)
Definition counted (p : PC) : Z :=
  match p with AtIssue _ => 1 | _ => 0 end.

(** How many times the transfer function has been invoked. *)
Definition issued {T : Type} (s : State T) : Z := i s + in_call (pc s).

Definition transfer_of (e : Event) : option (Z * Key) :=
  match e with ETransfer j key => Some (j, key) | _ => None end.

(** The invocations of the transfer function recorded in a trace. *)
Definition transfers (evs : list Event) : list (Z * Key) := omap transfer_of evs.

Definition observed_in_flight_of (e : Event) : option Z :=
  match e with ELogBeginTransfer _ n _ _ _ => Some n | _ => None end.

(** The in-flight counts the progress log has observed. *)
Definition observed_in_flight (evs : list Event) : list Z :=
  omap observed_in_flight_of evs.

(** The counters agree with the bookkeeping of issued and completed
    transfers; no counter has wrapped. *)
Definition gate_inv {T : Type} (N : Z) (s : State T) : Prop :=
  0 ≤ i s ∧ issued s ≤ N ∧ 0 ≤ numCompleted s ∧
  numInProgress s = Z.of_nat (length (pending s)) + counted (pc s) ∧
  numCompleted s + Z.of_nat (length (finishing s))
    + Z.of_nat (length (pending s)) = issued s ∧
  match pc s with
  | AtLoopHead => True
  | AtIssue _ | InTransferFunction | AtWaitSlot => i s < N
  | AtWaitAll => i s = N
  | Returned => i s = N ∧ numCompleted s = N
  end.

(** The in-flight count respects the cap; at the loop head a slot is free. *)
Definition cap_inv {T : Type} (C : Z) (s : State T) : Prop :=
  match pc s with
  | AtLoopHead => numInProgress s < C
  | _ => numInProgress s ≤ C
  end ∧ Forall (λ n, n ≤ C) (observed_in_flight (trace s)).

Definition notification_of (e : Event) : option (Z * Z) :=
  match e with ENotifyTransferFinished j code => Some (j, code) | _ => None end.

(** The completion notifications recorded in a trace, with their codes. *)
Definition notifications (evs : list Event) : list (Z * Z) :=
  omap notification_of evs.

(** The numeric key suffixes handed to the transfer function. *)
Definition suffixes (evs : list Event) : list Z :=
  omap (λ t, key_suffix t.2) (transfers evs).

(** The events of the issuance loop and of the completion callbacks. *)
Definition loop_event (e : Event) : bool :=
  match e with
  | ELogBeginTransfer _ _ _ _ _ | ETransfer _ _ | ESetTransferSuccess _ _
  | ENotifyTransferFinished _ _ | ELogTransferError _ => true
  | _ => false
  end.

Definition warming_of (e : Event) : option Z :=
  match e with EWarmDNSCache n => Some n | _ => None end.

(** The [WarmDNSCache] calls recorded in a trace, with their arguments. *)
Definition warmings (evs : list Event) : list Z := omap warming_of evs.

(** Everything in a trace that is not an event of the issuance loop: the
    calls on the key/value channel and the set-up of the transport. *)
Definition protocol_events (evs : list Event) : list Event :=
  omap (λ e, if loop_event e then None else Some e) evs.

Section Replay.
Context `{!MeasurementFlags} {T O : Type}.
Variable options : CanaryAppOptions.
Variable call : Measurement T O.

(** Lines 106-117 as a function of the counter: the value a key is built
    from, and the counter after the iteration. *)
Definition key_counter (c : Z) : Z := if c =? 0 then INT64_MAX else c.

Definition next_counter (c : Z) : Z :=
  if withSuffix call then wrap64 (key_counter c - 1) else key_counter c.

Definition make_key (c : Z) : Key :=
  {| key_prefix := filenamePrefix call;
     key_suffix := if withSuffix call then Some (key_counter c) else None |}.

(** The counter at the start of iteration [n]. *)
Definition counter_at (n : nat) : Z :=
  Nat.iter n next_counter (wrap64 (INT64_MAX - childProcessIndex options)).

(** What line 163 adds once the run has returned. *)
Definition finish_events (s : State T) : list Event :=
  match pc s with
  | Returned =>
      if isChildProcess options
      then [EWriteToParentProcess (finishedKey call) "done"] else []
  | _ => []
  end.

(** The counter and the keys follow the replay of the loop. *)
Definition key_inv (s : State T) : Prop :=
  counter s = counter_at (Z.to_nat (issued s + counted (pc s))) ∧
  transfers (trace s)
    = (λ j, (j, make_key (counter_at (Z.to_nat j)))) <$> seqZ 0 (issued s) ∧
  ∀ key, pc s = AtIssue key → key = make_key (counter_at (Z.to_nat (i s))).

End Replay.

(** How far the issuing thread is from its return: four steps for each
    iteration still to run, and the steps left in the current one. *)
Definition remaining_steps {T : Type} (N : Z) (s : State T) : nat :=
  (Z.to_nat (4 * (N - i s)) +
   match pc s with
   | AtLoopHead => 3
   | AtIssue _ => 2
   | InTransferFunction => 1
   | AtWaitSlot => 0
   | AtWaitAll => 1
   | Returned => 0
   end)%nat.

Definition flag_write_of (n : nat) (e : Event) : option bool :=
  match e with
  | ESetTransferSuccess r b => if decide (r = n) then Some b else None
  | _ => None
  end.

(** The values [SetTransferSuccess] was called with on record [n]. *)
Definition flag_writes (n : nat) (evs : list Event) : list bool :=
  omap (flag_write_of n) evs.

Definition flag_of (b : bool) : SuccessFlag :=
  if b then Succeeded else Failed.

(** A record is pending, never written, while its transfer is still to be
    issued or to complete; otherwise it was written exactly once and holds
    what was written.  The pending notifications are for distinct, issued
    transfers, and each holds the record of its index. *)
Definition record_inv {T : Type} (s : State T) : Prop :=
  Forall (λ p, p.2 = Z.to_nat p.1 ∧ 0 ≤ p.1 < issued s) (pending s) ∧
  NoDup (pending s).*1 ∧
  ∀ n rec, records s !! n = Some rec →
    (transferSuccess rec = Pending ∧ flag_writes n (trace s) = [] ∧
     (issued s ≤ Z.of_nat n ∨ Z.of_nat n ∈ (pending s).*1)) ∨
    (∃ b, transferSuccess rec = flag_of b ∧ flag_writes n (trace s) = [b] ∧
          Z.of_nat n < issued s ∧ Z.of_nat n ∉ (pending s).*1).

(** ** Example inputs *)

(** A transport stub: its state is the address cache. *)
#[export] Instance stub_transport : S3ObjectTransport (list string) :=
  {| WarmDNSCache n cache := cache ++ ["10.0.0.5:443"; "10.0.0.6:443"];
     SeedAddressCache address cache := cache ++ [address];
     SpawnConnectionManagers cache := cache;
     GetAddressForTransfer index cache :=
       default "" (cache !! (Z.to_nat index `mod` length cache)%nat);
     GetEndpoint cache := "s3.example.com" |}.

(** Two distinct single-bit masks for the examples. *)
Definition example_flags : MeasurementFlags :=
  {| DontWarmDNSCache := 1; NoFileSuffix := 2 |}.

Definition example_options (parent child : bool) (index transfers cap : Z)
    : CanaryAppOptions :=
  {| isParentProcess := parent; isChildProcess := child;
     childProcessIndex := index;
     numUpTransfers := transfers; numUpConcurrentTransfers := cap;
     numDownTransfers := transfers; numDownConcurrentTransfers := cap;
     downloadOnly := false; downloadObjectName := "crt-canary-obj" |}.

(** One iteration of the issuing thread whose transfer completes inside the
    transfer function, and one whose transfer completes while the thread
    waits for a slot. *)
Definition synchronous {O : Type} (o : O) : list (Action O) :=
  [Main; Main; NotifyBegin 0 o; NotifyEnd 0; Cv (NotifyOne 0); Main; Main].

Definition asynchronous {O : Type} (o : O) : list (Action O) :=
  [Main; Main; Main; NotifyBegin 0 o; NotifyEnd 0; Cv (NotifyOne 0); Main].

(** The state a run over the stub transport is in after a schedule; the
    coordinator's address is "10.0.0.5:443". *)
Definition example_state {O : Type} (options : CanaryAppOptions)
    (call : Measurement (list string) O) (tr : option (list string))
    (recs : list TransferState) (acts : list (Action O))
    : State (list string) :=
  let enter :=
    @PerformMeasurement_enter _ _ _ example_flags options call tr recs
      "10.0.0.5:443" in
  default enter (@run _ _ example_flags options call acts enter).

(** An orchestrator object for the pulse examples. *)
Definition example_measure (clock : Z) (task : option Z)
    : MeasureTransferRate (list string) :=
  mkMeasure ["10.0.0.5:443"] ["10.0.0.6:443"] (λ _, 2) clock task [] [].

(** ** The measurements as whole functions *)

(** What a measurement function does around its [PerformMeasurement]
    calls: flushing records to the metrics, cancelling the pulse and driving
    the metrics publisher. *)
Inductive AppEvent :=
  | AFlushDataUpMetrics (record : nat)
  | AFlushDataDownMetrics (record : nat)
  | ACancelPulseMetricsTask
  | ASchedulePublish
  | AWaitForLastPublish
  | AUploadBackup.

(** The call of [PerformMeasurement] has come back to its caller. *)
Definition has_returned {T : Type} (s : State T) : bool :=
  match pc s with Returned => negb (crashed s) | _ => false end.

(** What [MeasureSinglePartObjectTransfer] leaves behind. *)
Record SinglePartRun {T : Type} := {
  uploads : list TransferState;
  downloads : list TransferState;
  uploadTrace : list Event;
  downloadTrace : list Event;
  appLog : list AppEvent;
  pulseAfter : MeasureTransferRate T
}.
Arguments SinglePartRun : clear implicits.

Section Measurements.
Context {T : Type} `{!S3ObjectTransport T} `{!MeasurementFlags}.
Variable AWS_ERROR_UNKNOWN : Z.
Variable options : CanaryAppOptions.

(** A blocking call of [PerformMeasurement]: the caller goes on with the
    state of the run once the schedule has taken it to its return; under a
    schedule that leaves the run blocked or crashed the caller never goes
    on. *)
Definition PerformMeasurement_call {O : Type} (call : Measurement T O)
    (tr : option T) (recs : list TransferState) (parentAddress : string)
    (acts : list (Action O)) : option (State T) :=
  match run options call acts
          (PerformMeasurement_enter options call tr recs parentAddress) with
  | Some s => if has_returned s then Some s else None
  | None => None
  end.

(** Lines 347-350 and 396-399: one flush for each record of the vector. *)
Definition flush_events (flush : nat → AppEvent) (n : Z) : list AppEvent :=
  (λ i, flush (Z.to_nat i)) <$> seqZ 0 n.

(** Lines 352-355, 286-289 and 402-405. *)
Definition publish_events : list AppEvent :=
  [ASchedulePublish; AWaitForLastPublish].

(** Lines 296-410.  [up] and [down] are the two transports of the
    application, [m] is the orchestrator when the pulse is cancelled, and
    the two schedules drive the upload and the download run. *)
Definition MeasureSinglePartObjectTransfer (up down : option T)
    (upAddress downAddress : string) (upActs downActs : list (Action Z))
    (m : MeasureTransferRate T) : option (SinglePartRun T) :=
  let upload_phase :=
    if downloadOnly options then Some ([], [], [])
    else
      match PerformMeasurement_call (UploadMeasurement options) up
              (MakeRecords (numUpTransfers options)) upAddress upActs with
      | Some s =>
          Some (records s, trace s,
                flush_events AFlushDataUpMetrics (numUpTransfers options)
                  ++ publish_events)
      | None => None
      end in
  match upload_phase with
  | Some (ups, upTrace, upLog) =>
      match PerformMeasurement_call (DownloadMeasurement options) down
              (MakeRecords (numDownTransfers options)) downAddress
              downActs with
      | Some s =>
          Some {| uploads := ups; downloads := records s;
                  uploadTrace := upTrace; downloadTrace := trace s;
                  appLog :=
                    upLog ++
                    flush_events AFlushDataDownMetrics
                      (numDownTransfers options) ++
                    [ACancelPulseMetricsTask] ++ publish_events ++
                    [AUploadBackup];
                  pulseAfter := aws_event_loop_cancel_task m |}
      | None => None
      end
  | None => None
  end.

(** Lines 167-294, from the call of [PerformMeasurement] on. *)
Definition MeasureHttpTransfer (parentAddress : string)
    (acts : list (Action HttpOutcome)) (m : MeasureTransferRate T)
    : option (State T * list AppEvent * MeasureTransferRate T) :=
  match PerformMeasurement_call (HttpMeasurement AWS_ERROR_UNKNOWN options)
          HttpMeasurement_transport [] parentAddress acts with
  | Some s =>
      Some (s,
            [ACancelPulseMetricsTask] ++ publish_events ++ [AUploadBackup],
            aws_event_loop_cancel_task m)
  | None => None
  end.

End Measurements.

(** ** More observations *)

Definition code_of (n : nat) (e : Event) : option Z :=
  match e with
  | ENotifyTransferFinished j code =>
      if decide (j = Z.of_nat n) then Some code else None
  | _ => None
  end.

(** The error codes transfer [n] was notified with. *)
Definition codes_of (n : nat) (evs : list Event) : list Z :=
  omap (code_of n) evs.

Definition progress_of (e : Event) : option (Z * Z * Z) :=
  match e with
  | ELogBeginTransfer j inProgress _ completed _ => Some (j, inProgress, completed)
  | _ => None
  end.

(** What the progress log has printed: the index of the transfer and the
    two counters as they were read. *)
Definition progress_log (evs : list Event) : list (Z * Z * Z) :=
  omap progress_of evs.

Definition schedule_of (e : PulseEvent) : option Z :=
  match e with PScheduleTaskFuture runAt => Some runAt | _ => None end.

(** The run-at times the pulse task was scheduled with. *)
Definition schedules (evs : list PulseEvent) : list Z := omap schedule_of evs.

(** The names of the data points of [k] firings. *)
Definition pulse_names (k : nat) : list MetricName :=
  mjoin (replicate k [S3UploadAddressCount; S3DownloadAddressCount]).

(** The pulse is pending with the run-at time of its latest schedule, and
    every firing so far has left its two data points. *)
Definition pulse_inv {T : Type} (base : list MetricName) (up down : T)
    (k : nat) (m : MeasureTransferRate T) : Prop :=
  pulseTask m = last (schedules (pulseLog m)) ∧
  length (schedules (pulseLog m)) = S k ∧
  Name <$> dataPoints m = base ++ pulse_names k ∧
  uploadTransport m = up ∧ downloadTransport m = down.

(** The key suffix of transfer [j] of the process with index [p]. *)
Definition suffix_formula (p j : Z) : Z :=
  (INT64_MAX - 1 - (p + j)) `mod` INT64_MAX + 1.

(** * Properties *)

Lemma wrap32_small z : 0 ≤ z ≤ UINT32_MAX → wrap32 z = z.
Proof. unfold wrap32, UINT32_MAX. intros. apply Z.mod_small. lia. Qed.

Lemma wrap64_small z : 0 ≤ z ≤ UINT64_MAX → wrap64 z = z.
Proof. unfold wrap64, UINT64_MAX. intros. apply Z.mod_small. lia. Qed.

Section Orchestrator.
Context {T : Type} `{!S3ObjectTransport T} {O : Type} `{!MeasurementFlags}.
Variable options : CanaryAppOptions.
Variable call : Measurement T O.

Local Abbreviation N := (numTransfers call).
Local Abbreviation C := (numConcurrentTransfers call).

Hypothesis N_range : 0 ≤ N ≤ UINT32_MAX.

(** *** The steps, case by case *)

Lemma main_step_cases (s s' : State T) :
  main_step options call s = Some s' →
  crashed s = false ∧
  ((pc s = AtLoopHead ∧ i s < N ∧
    ∃ key, pc s' = AtIssue key ∧ crashed s' = false ∧ i s' = i s ∧
      key = {| key_prefix := filenamePrefix call;
               key_suffix := if withSuffix call
                             then Some (if counter s =? 0 then INT64_MAX
                                        else counter s)
                             else None |} ∧
      counter s' = (if withSuffix call
                    then wrap64 ((if counter s =? 0 then INT64_MAX
                                  else counter s) - 1)
                    else if counter s =? 0 then INT64_MAX else counter s) ∧
      numInProgress s' = wrap32 (numInProgress s + 1) ∧
      numCompleted s' = numCompleted s ∧ pending s' = pending s ∧
      finishing s' = finishing s ∧ transport s' = transport s ∧
      records s' = records s ∧ trace s' = trace s)
   ∨ (pc s = AtLoopHead ∧ N ≤ i s ∧
      s' = mkState AtWaitAll false (i s) (counter s) (numInProgress s)
             (numCompleted s) (pending s) (finishing s) (signalling s) Running (transport s)
             (records s) (trace s))
   ∨ (∃ key recs r, pc s = AtIssue key ∧
      tf_invoke (transferFunction call) (i s) key (objectSize call)
        (transport s) (records s) = Some (recs, r) ∧
      s' = mkState InTransferFunction false (i s) (counter s)
             (numInProgress s) (numCompleted s) (pending s ++ [(i s, r)])
             (finishing s) (signalling s) Running (transport s) recs
             (trace s ++ [ELogBeginTransfer (i s) (numInProgress s) C
                            (numCompleted s) N; ETransfer (i s) key]))
   ∨ (∃ key, pc s = AtIssue key ∧
      tf_invoke (transferFunction call) (i s) key (objectSize call)
        (transport s) (records s) = None ∧
      s' = mkState (AtIssue key) true (i s) (counter s)
             (numInProgress s) (numCompleted s) (pending s)
             (finishing s) (signalling s) Running (transport s) (records s)
             (trace s ++ [ELogBeginTransfer (i s) (numInProgress s) C
                            (numCompleted s) N]))
   ∨ (pc s = InTransferFunction ∧
      s' = mkState AtWaitSlot false (i s) (counter s) (numInProgress s)
             (numCompleted s) (pending s) (finishing s) (signalling s) Running (transport s)
             (records s) (trace s))
   ∨ (pc s = AtWaitSlot ∧ numInProgress s < C ∧
      s' = mkState AtLoopHead false (wrap32 (i s + 1)) (counter s)
             (numInProgress s) (numCompleted s) (pending s) (finishing s) (signalling s) Running
             (transport s) (records s) (trace s))
   ∨ (pc s = AtWaitAll ∧ N ≤ numCompleted s ∧
      s' = mkState Returned false (i s) (counter s) (numInProgress s)
             (numCompleted s) (pending s) (finishing s) (signalling s) Running (transport s)
             (records s)
             (trace s ++ (if isChildProcess options
                          then [EWriteToParentProcess (finishedKey call) "done"]
                          else [])))).
Proof.
  unfold main_step. intros Hs.
  destruct (crashed s) eqn:Hc; [done|]. split; [done|].
  destruct (waiter s) eqn:Hw; [|done..].
  destruct (pc s) eqn:Hpc.
  - destruct (Z.ltb_spec (i s) N); simplify_eq.
    + left. repeat split; try done. eexists. simpl. repeat split; done.
    + right; left. done.
  - destruct (tf_invoke _ _ _ _ _ _) as [[recs r]|] eqn:Htf; simplify_eq.
    + do 2 right; left. eauto 10.
    + do 3 right; left. eauto 10.
  - simplify_eq. do 4 right; left. done.
  - destruct (Z.ltb_spec (numInProgress s) C); simplify_eq.
    do 5 right; left. done.
  - destruct (Z.leb_spec N (numCompleted s)); simplify_eq.
    do 6 right. done.
  - done.
Qed.

Lemma notify_begin_cases k o (s s' : State T) :
  notify_begin call k o s = Some s' →
  crashed s = false ∧
  ∃ j r recs sets errorCode,
    pending s !! k = Some (j, r) ∧
    tf_complete (transferFunction call) j r o (records s)
      = (recs, sets, errorCode) ∧
    s' = mkState (pc s) false (i s) (counter s)
           (wrap32 (numInProgress s - 1)) (numCompleted s)
           (delete k (pending s)) (finishing s ++ [j])
           (signalling s) (waiter s) (transport s) recs
           (trace s ++ flag_events sets ++
              [ENotifyTransferFinished j errorCode] ++
              (if errorCode =? AWS_ERROR_SUCCESS then []
               else [ELogTransferError errorCode])).
Proof.
  unfold notify_begin. intros Hs.
  destruct (crashed s); [done|]. split; [done|].
  destruct (pending s !! k) as [[j r]|] eqn:Hk; [|done].
  destruct (tf_complete _ _ _ _ _) as [[recs evs] errorCode] eqn:Hc.
  simplify_eq. eauto 10.
Qed.

Lemma notify_end_cases k (s s' : State T) :
  notify_end k s = Some s' →
  crashed s = false ∧
  ∃ j, finishing s !! k = Some j ∧
    s' = mkState (pc s) false (i s) (counter s) (numInProgress s)
           (wrap32 (numCompleted s + 1)) (pending s)
           (delete k (finishing s)) (signalling s ++ [j]) (waiter s)
           (transport s) (records s) (trace s).
Proof.
  unfold notify_end. intros Hs.
  destruct (crashed s); [done|]. split; [done|].
  destruct (finishing s !! k) as [j|] eqn:Hk; [|done].
  simplify_eq. eauto.
Qed.

Lemma main_step_running (s s' : State T) :
  main_step options call s = Some s' →
  waiter s = Running ∧ waiter s' = Running ∧ signalling s' = signalling s.
Proof.
  unfold main_step. intros Hs. destruct (crashed s); [done|].
  destruct (waiter s) eqn:Hw; [|done..]. split; [done|].
  destruct (pc s); repeat case_match; by simplify_eq.
Qed.

(** A step through the condition variable changes nothing else. *)
Lemma cv_step_cases c (s s' : State T) :
  cv_step call c s = Some s' →
  crashed s = false ∧ ∃ sig w, s' = with_cv sig w s.
Proof.
  unfold cv_step. intros Hs.
  destruct (crashed s); [done|]. split; [done|].
  destruct c as [k| | |].
  - destruct (signalling s !! k); [|done]. simplify_eq. eauto.
  - destruct (waiter s), (pc s); try done.
    + destruct (numInProgress s <? C); [done|]. simplify_eq. eauto.
    + destruct (N <=? numCompleted s); [done|]. simplify_eq. eauto.
  - destruct (waiter s); try done. simplify_eq. eauto.
  - destruct (waiter s); try done. simplify_eq. eauto.
Qed.

Lemma cv_step_inv c (s s' : State T) :
  cv_step call c s = Some s' →
  crashed s = false ∧
  ((∃ k j, c = NotifyOne k ∧ signalling s !! k = Some j ∧
      s' = with_cv (delete k (signalling s))
             (match waiter s with Blocked => Running | w => w end) s)
   ∨ (c = WaitEnter ∧ waiter s = Running ∧
      ((pc s = AtWaitSlot ∧ C ≤ numInProgress s) ∨
       (pc s = AtWaitAll ∧ numCompleted s < N)) ∧
      s' = with_cv (signalling s) Entering s)
   ∨ (c = WaitBlock ∧ waiter s = Entering ∧
      s' = with_cv (signalling s) Blocked s)
   ∨ (c = SpuriousWakeup ∧ waiter s = Blocked ∧
      s' = with_cv (signalling s) Running s)).
Proof.
  unfold cv_step. intros Hs.
  destruct (crashed s); [done|]. split; [done|].
  destruct c as [k| | |].
  - destruct (signalling s !! k) as [j|] eqn:Hk; [|done]. simplify_eq.
    left. eauto.
  - right; left. destruct (waiter s), (pc s); try done.
    + destruct (Z.ltb_spec (numInProgress s) C); [done|]. simplify_eq.
      eauto 10.
    + destruct (Z.leb_spec N (numCompleted s)); [done|]. simplify_eq.
      eauto 10.
  - do 2 right; left. destruct (waiter s); try done. by simplify_eq.
  - do 3 right. destruct (waiter s); try done. by simplify_eq.
Qed.

(** *** The counters *)

Lemma gate_inv_main (s s' : State T) :
  gate_inv N s → main_step options call s = Some s' → gate_inv N s'.
Proof.
  intros (Hi & HiN & Hc & Hp & Hsum & Hpc) Hs.
  apply main_step_cases in Hs as [_ Hs].
  unfold gate_inv, issued in *.
  destruct Hs as [(Hp0 & Hlt & key & Hp' & _ & Hi' & _ & _ & Hn' & Hc' & Hpe' & Hf' & _)
    |[(Hp0 & Hge & ->)|[(key & recs & r & Hp0 & _ & ->)|[(key & Hp0 & _ & ->)
    |[(Hp0 & ->)|[(Hp0 & Hlt & ->)|(Hp0 & Hge & ->)]]]]]];
    rewrite Hp0 in *; simpl in *.
  - rewrite Hp', Hi', Hn', Hc', Hpe', Hf'. simpl.
    rewrite wrap32_small by lia. lia.
  - lia.
  - rewrite length_app. simpl. lia.
  - lia.
  - lia.
  - rewrite wrap32_small by lia. lia.
  - lia.
Qed.

Lemma gate_inv_notify_begin k o (s s' : State T) :
  gate_inv N s → notify_begin call k o s = Some s' → gate_inv N s'.
Proof.
  intros (Hi & HiN & Hc & Hp & Hsum & Hpc) Hs.
  apply notify_begin_cases in Hs as [_ (j & r & recs & evs & e & Hk & _ & ->)].
  pose proof (length_delete (pending s) k (mk_is_Some _ _ Hk)) as Hlen.
  assert (length (pending s) ≠ 0%nat)
    by (intros Hz; apply length_zero_iff_nil in Hz; rewrite Hz in Hk; done).
  unfold gate_inv, issued in *. simpl.
  rewrite Hlen, length_app. simpl.
  assert (0 ≤ counted (pc s) ≤ 1) by (destruct (pc s); simpl; lia).
  rewrite wrap32_small by lia.
  repeat split; try lia. done.
Qed.

Lemma gate_inv_notify_end k (s s' : State T) :
  gate_inv N s → notify_end k s = Some s' → gate_inv N s'.
Proof.
  intros (Hi & HiN & Hc & Hp & Hsum & Hpc) Hs.
  apply notify_end_cases in Hs as [_ (j & Hk & ->)].
  pose proof (length_delete (finishing s) k (mk_is_Some _ _ Hk)) as Hlen.
  assert (length (finishing s) ≠ 0%nat)
    by (intros Hz; apply length_zero_iff_nil in Hz; rewrite Hz in Hk; done).
  unfold gate_inv, issued in *. simpl.
  rewrite Hlen.
  assert (0 ≤ in_call (pc s) ≤ 1) by (destruct (pc s); simpl; lia).
  rewrite wrap32_small by lia.
  repeat split; try lia.
  destruct (pc s); simpl in *; try done. lia.
Qed.

Lemma gate_inv_cv c (s s' : State T) :
  gate_inv N s → cv_step call c s = Some s' → gate_inv N s'.
Proof. intros Hinv Hs. by apply cv_step_cases in Hs as (_ & sig & w & ->). Qed.

Lemma gate_inv_step (s s' : State T) :
  gate_inv N s → step options call s s' → gate_inv N s'.
Proof.
  intros Hinv [[|k o|k|c] Ha]; simpl in Ha;
    eauto using gate_inv_main, gate_inv_notify_begin, gate_inv_notify_end,
      gate_inv_cv.
Qed.

Lemma gate_inv_enter tr recs parentAddress :
  isParentProcess options = false →
  gate_inv N (PerformMeasurement_enter options call tr recs parentAddress).
Proof.
  intros Hrole. unfold PerformMeasurement_enter. rewrite Hrole.
  destruct (isChildProcess options), tr; unfold gate_inv, issued; simpl; lia.
Qed.

(** Induction along a run. *)
Lemma reachable_ind tr recs parentAddress (P : State T → Prop) :
  P (PerformMeasurement_enter options call tr recs parentAddress) →
  (∀ s s', reachable options call tr recs parentAddress s → P s →
           step options call s s' → P s') →
  ∀ s, reachable options call tr recs parentAddress s → P s.
Proof.
  intros Hinit Hstep. unfold reachable in *.
  apply (rtc_ind_r (λ s, P s)); [done|].
  intros s1 s2 Hs1 Hs12 HP. by eapply Hstep.
Qed.

Lemma gate_inv_reachable tr recs parentAddress (s : State T) :
  isParentProcess options = false →
  reachable options call tr recs parentAddress s → gate_inv N s.
Proof.
  intros Hrole. revert s. apply reachable_ind.
  - by apply gate_inv_enter.
  - eauto using gate_inv_step.
Qed.

Lemma observed_in_flight_app evs1 evs2 :
  observed_in_flight (evs1 ++ evs2)
  = observed_in_flight evs1 ++ observed_in_flight evs2.
Proof. apply omap_app. Qed.

Lemma observed_in_flight_flag_events sets :
  observed_in_flight (flag_events sets) = [].
Proof. induction sets; done. Qed.

Lemma transfers_app evs1 evs2 :
  transfers (evs1 ++ evs2) = transfers evs1 ++ transfers evs2.
Proof. apply omap_app. Qed.

Lemma transfers_flag_events sets : transfers (flag_events sets) = [].
Proof. induction sets; done. Qed.

Lemma cap_inv_step (s s' : State T) :
  gate_inv N s → cap_inv C s → step options call s s' → cap_inv C s'.
Proof.
  intros (Hi & HiN & Hc & Hp & Hsum & Hpc) [Hcap Hobs] [[|k o|k|c] Ha];
    simpl in Ha.
  - apply main_step_cases in Ha as [_ Ha].
    unfold cap_inv, issued in *.
    destruct Ha as [(Hp0 & Hlt & key & Hp' & _ & Hi' & _ & _ & Hn' & _ & Hpe' & _ & _ & _ & Htr)
      |[(Hp0 & Hge & ->)|[(key & recs & r & Hp0 & _ & ->)|[(key & Hp0 & _ & ->)
      |[(Hp0 & ->)|[(Hp0 & Hlt & ->)|(Hp0 & Hge & ->)]]]]]];
      rewrite Hp0 in *; simpl in *.
    + rewrite Hp', Hn', Htr. rewrite wrap32_small by lia. split; [lia|done].
    + split; [lia|done].
    + split; [lia|]. rewrite observed_in_flight_app. apply Forall_app.
      split; [done|]. simpl. repeat constructor. done.
    + split; [lia|]. rewrite observed_in_flight_app. apply Forall_app.
      split; [done|]. simpl. repeat constructor. done.
    + done.
    + done.
    + split; [done|]. rewrite observed_in_flight_app. apply Forall_app.
      split; [done|]. by destruct (isChildProcess options).
  - apply notify_begin_cases in Ha as [_ (j & r & recs & sets & e & Hk & _ & ->)].
    assert (length (pending s) ≠ 0%nat)
      by (intros Hz; apply length_zero_iff_nil in Hz; rewrite Hz in Hk; done).
    assert (0 ≤ counted (pc s) ≤ 1) by (destruct (pc s); simpl; lia).
    unfold cap_inv, issued in *. simpl. rewrite wrap32_small by lia.
    split; [destruct (pc s); lia|].
    rewrite !observed_in_flight_app, observed_in_flight_flag_events.
    apply Forall_app. split; [done|].
    by destruct (e =? AWS_ERROR_SUCCESS).
  - apply notify_end_cases in Ha as [_ (j & Hk & ->)]. done.
  - by apply cv_step_cases in Ha as (_ & sig & w & ->).
Qed.

Lemma cap_inv_enter tr recs parentAddress :
  isParentProcess options = false → 1 ≤ C →
  cap_inv C (PerformMeasurement_enter options call tr recs parentAddress).
Proof.
  intros Hrole HC. unfold PerformMeasurement_enter. rewrite Hrole.
  unfold cap_inv.
  destruct (isChildProcess options), tr; simpl; (split; [lia|]);
    try by repeat constructor.
  unfold warm_events. destruct (warmDNS call); by repeat constructor.
Qed.

Lemma cap_inv_reachable tr recs parentAddress (s : State T) :
  isParentProcess options = false → 1 ≤ C →
  reachable options call tr recs parentAddress s → cap_inv C s.
Proof.
  intros Hrole HC. revert s. apply reachable_ind.
  - by apply cap_inv_enter.
  - intros s1 s2 Hs1 IH Hstep. eapply cap_inv_step; [|done|done].
    by eapply gate_inv_reachable.
Qed.

(** *** Keys and invocations *)

Lemma omap_none {A} (f : Event → option A) evs :
  Forall (λ e, f e = None) evs → omap f evs = [].
Proof.
  induction 1 as [|e evs He _ IH]; [done|]. simpl. by rewrite He.
Qed.

Lemma omap_loop_events {A} (f : Event → option A) evs :
  (∀ e, loop_event e = true → f e = None) →
  Forall (λ e, loop_event e = true) evs → omap f evs = [].
Proof.
  intros Hf Hevs. apply omap_none. eapply Forall_impl; [done|]. auto.
Qed.

Lemma enter_events tr recs parentAddress (P : Event → Prop) :
  (∀ n, P (EWarmDNSCache n)) → (∀ a, P (ESeedAddressCache a)) →
  P ESpawnConnectionManagers →
  (∀ j key v, P (EWriteToChildProcess j key v)) →
  (∀ j key, P (EReadFromChildProcess j key)) →
  (∀ key v, P (EReadFromParentProcess key v)) →
  Forall P
    (trace (PerformMeasurement_enter options call tr recs parentAddress)).
Proof.
  intros Hw Hs Hm Hwc Hrc Hrp.
  assert (∀ t, Forall P (coordinator_writes call t ++ coordinator_reads call))
    as Hco.
  { intros t. apply Forall_app. split; apply Forall_fmap, Forall_forall;
      intros; simpl; auto. }
  unfold PerformMeasurement_enter, warm_events.
  destruct (isParentProcess options), (isChildProcess options), tr;
    simpl; try (destruct (warmDNS call)); simpl;
    try (destruct (0 <? N)); simpl;
    repeat constructor; auto.
Qed.

Lemma transfers_enter tr recs parentAddress :
  transfers (trace (PerformMeasurement_enter options call tr recs parentAddress))
  = [].
Proof. apply omap_none. by apply enter_events. Qed.

Lemma transfers_snoc_seqZ (f : Z → Z * Key) (n : Z) :
  0 ≤ n → f <$> seqZ 0 (n + 1) = (f <$> seqZ 0 n) ++ [f n].
Proof.
  intros Hn. rewrite seqZ_app by lia. rewrite fmap_app. f_equal.
Qed.

Lemma key_inv_step (s s' : State T) :
  gate_inv N s → key_inv options call s → step options call s s' →
  key_inv options call s'.
Proof.
  intros (Hi & HiN & Hc & Hp & Hsum & Hpc) (Hctr & Htrs & Hkey) [[|k o|k|c] Ha];
    simpl in Ha.
  - apply main_step_cases in Ha as [_ Ha].
    unfold key_inv, issued in *.
    destruct Ha as [(Hp0 & Hlt & key & Hp' & _ & Hi' & Hk' & Hc' & _ & _ & _ & _ & _ & _ & Htr)
      |[(Hp0 & Hge & ->)|[(key & recs & r & Hp0 & _ & ->)|[(key & Hp0 & _ & ->)
      |[(Hp0 & ->)|[(Hp0 & Hlt & ->)|(Hp0 & Hge & ->)]]]]]];
      rewrite Hp0 in *; simpl in *.
    + rewrite Hp', Hi', Hc', Htr. simpl.
      rewrite !Z.add_0_r in *.
      replace (Z.to_nat (i s + 1)) with (S (Z.to_nat (i s))) by lia.
      split; [|split].
      * unfold counter_at in *. rewrite Nat.iter_succ, <- Hctr.
        unfold next_counter, key_counter. done.
      * done.
      * intros key0 [= <-]. rewrite Hk'. unfold make_key, key_counter.
        by rewrite <- Hctr.
    + done.
    + rewrite !Z.add_0_r in *. split; [|split; [|done]].
      * rewrite Hctr. f_equal.
      * rewrite transfers_app, Htrs. simpl.
        rewrite transfers_snoc_seqZ by lia.
        by rewrite (Hkey key eq_refl).
    + rewrite transfers_app. simpl. rewrite app_nil_r. done.
    + done.
    + rewrite wrap32_small by lia. rewrite !Z.add_0_r in *. done.
    + rewrite transfers_app.
      destruct (isChildProcess options); simpl; rewrite app_nil_r; done.
  - apply notify_begin_cases in Ha as [_ (j & r & recs & sets & e & Hk & _ & ->)].
    unfold key_inv, issued in *. simpl.
    rewrite !transfers_app, transfers_flag_events. simpl.
    destruct (e =? AWS_ERROR_SUCCESS); simpl; rewrite app_nil_r; done.
  - apply notify_end_cases in Ha as [_ (j & Hk & ->)]. done.
  - by apply cv_step_cases in Ha as (_ & sig & w & ->).
Qed.

Lemma key_inv_reachable tr recs parentAddress (s : State T) :
  isParentProcess options = false →
  reachable options call tr recs parentAddress s → key_inv options call s.
Proof.
  intros Hrole. revert s. apply reachable_ind.
  - unfold key_inv. rewrite transfers_enter.
    unfold PerformMeasurement_enter. rewrite Hrole.
    destruct (isChildProcess options), tr; done.
  - intros s1 s2 Hs1 IH Hstep. eapply key_inv_step; [|done|done].
    by eapply gate_inv_reachable.
Qed.

(** *** The shape of the trace *)

Lemma transport_step (s s' : State T) :
  step options call s s' → transport s' = transport s.
Proof.
  intros [[|k o|k|c] Ha]; simpl in Ha.
  - apply main_step_cases in Ha as [_ Ha].
    destruct Ha as [(_ & _ & key & _ & _ & _ & _ & _ & _ & _ & _ & _ & Ht & _)
      |[(_ & _ & ->)|[(key & recs & r & _ & _ & ->)|[(key & _ & _ & ->)
      |[(_ & ->)|[(_ & _ & ->)|(_ & _ & ->)]]]]]]; done.
  - by apply notify_begin_cases in Ha as [_ (j & r & recs & sets & e & _ & _ & ->)].
  - by apply notify_end_cases in Ha as [_ (j & _ & ->)].
  - by apply cv_step_cases in Ha as (_ & sig & w & ->).
Qed.

Lemma flag_events_loop sets :
  Forall (λ e, loop_event e = true) (flag_events sets).
Proof. apply Forall_fmap, Forall_forall. done. Qed.

Lemma trace_shape_step (s s' : State T) (pre : list Event) :
  gate_inv N s → step options call s s' →
  (∃ body, trace s = pre ++ body ++ finish_events options call s ∧
           Forall (λ e, loop_event e = true) body) →
  ∃ body, trace s' = pre ++ body ++ finish_events options call s' ∧
          Forall (λ e, loop_event e = true) body.
Proof.
  intros (Hi & HiN & Hc & Hp & Hsum & Hpc) [[|k o|k|c] Ha]
    (body & Htr & Hbody); simpl in Ha.
  - apply main_step_cases in Ha as [_ Ha].
    unfold finish_events in *.
    destruct Ha as [(Hp0 & _ & key & Hp' & _ & _ & _ & _ & _ & _ & _ & _ & _ & _ & Htr')
      |[(Hp0 & _ & ->)|[(key & recs & r & Hp0 & _ & ->)|[(key & Hp0 & _ & ->)
      |[(Hp0 & ->)|[(Hp0 & _ & ->)|(Hp0 & _ & ->)]]]]]];
      rewrite Hp0 in *; simpl in *; rewrite ?app_nil_r in *.
    + exists body. rewrite Hp', Htr'. simpl. by rewrite app_nil_r.
    + exists body. by rewrite app_nil_r.
    + eexists (body ++ [_; _]).
      rewrite Htr, app_nil_r, !app_assoc. split; [done|].
      apply Forall_app. split; [done|]. by repeat constructor.
    + eexists (body ++ [_]).
      rewrite Htr, app_nil_r, !app_assoc. split; [done|].
      apply Forall_app. split; [done|]. by repeat constructor.
    + exists body. by rewrite app_nil_r.
    + exists body. by rewrite app_nil_r.
    + exists body. by rewrite Htr, app_assoc.
  - apply notify_begin_cases in Ha as [_ (j & r & recs & sets & e & Hk & _ & ->)].
    assert (length (pending s) ≠ 0%nat)
      by (intros Hz; apply length_zero_iff_nil in Hz; rewrite Hz in Hk; done).
    assert (finish_events options call s = []) as Hfin.
    { unfold finish_events, issued in *. destruct (pc s); try done.
      simpl in *. lia. }
    rewrite Hfin, app_nil_r in Htr.
    assert (∀ x, finish_events options call
              (mkState (pc s) false (i s) (counter s)
                 (wrap32 (numInProgress s - 1)) (numCompleted s)
                 (delete k (pending s)) (finishing s ++ [j])
                 (signalling s) (waiter s) (transport s) recs x) = [])
      as Hfin'.
    { intros x. unfold finish_events in *. simpl. done. }
    rewrite Hfin'. simpl.
    eexists (body ++ _). rewrite Htr, app_nil_r, <- !app_assoc.
    split; [done|]. rewrite !Forall_app. repeat split; try done.
    + apply flag_events_loop.
    + by destruct (e =? AWS_ERROR_SUCCESS); repeat constructor.
  - apply notify_end_cases in Ha as [_ (j & Hk & ->)]. by exists body.
  - apply cv_step_cases in Ha as (_ & sig & w & ->). by exists body.
Qed.

Lemma trace_shape tr recs parentAddress (s : State T) :
  isParentProcess options = false →
  reachable options call tr recs parentAddress s →
  ∃ body,
    trace s
    = trace (PerformMeasurement_enter options call tr recs parentAddress)
        ++ body ++ finish_events options call s ∧
    Forall (λ e, loop_event e = true) body.
Proof.
  intros Hrole. revert s. apply reachable_ind.
  - exists []. split; [|done].
    unfold PerformMeasurement_enter, finish_events. rewrite Hrole.
    destruct (isChildProcess options), tr; simpl; by rewrite ?app_nil_r.
  - intros s1 s2 Hs1 IH Hstep. eapply trace_shape_step; [|done|done].
    by eapply gate_inv_reachable.
Qed.

Lemma transport_reachable tr recs parentAddress (s : State T) :
  reachable options call tr recs parentAddress s →
  transport s
  = transport (PerformMeasurement_enter options call tr recs parentAddress).
Proof.
  revert s. apply reachable_ind; [done|].
  intros s1 s2 _ IH Hstep. by rewrite (transport_step _ _ Hstep).
Qed.

(** C1: in a non-coordinator run with cap [C >= 1] the in-flight counter
    never exceeds [C].  It is incremented by one when an iteration begins,
    before the transfer is issued and where a slot is free, and decremented
    by one by each completion notification; every value the progress log
    observes is within the cap; and the issuing thread leaves the slot
    wait, for the loop head, only when the counter is strictly below [C]:
    with the counter at [C] it has no step in its own code and can only
    wait. *)
Theorem in_flight_never_exceeds_cap tr recs parentAddress (s : State T) :
  isParentProcess options = false →
  1 ≤ C →
  reachable options call tr recs parentAddress s →
  0 ≤ numInProgress s ≤ C ∧
  Forall (λ n, n ≤ C) (observed_in_flight (trace s)) ∧
  (pc s = AtLoopHead → numInProgress s < C) ∧
  (pc s = AtWaitSlot → C ≤ numInProgress s →
   main_step options call s = None) ∧
  (∀ s', pc s = AtWaitSlot → main_step options call s = Some s' →
         numInProgress s < C ∧ pc s' = AtLoopHead ∧
         numInProgress s' = numInProgress s) ∧
  (∀ s', pc s = AtLoopHead → i s < N → main_step options call s = Some s' →
         numInProgress s' = numInProgress s + 1 ∧
         transfers (trace s') = transfers (trace s)) ∧
  (∀ k o s', notify_begin call k o s = Some s' →
             numInProgress s' = numInProgress s - 1).
Proof.
  intros Hrole HC Hs.
  pose proof (gate_inv_reachable _ _ _ _ Hrole Hs)
    as (Hi & HiN & Hc & Hp & Hsum & Hpc).
  pose proof (cap_inv_reachable _ _ _ _ Hrole HC Hs) as [Hcap Hobs].
  assert (0 ≤ counted (pc s)) by (destruct (pc s); simpl; lia).
  split; [split; [lia|by destruct (pc s); lia]|].
  split; [done|]. split; [by intros Hpc0; rewrite Hpc0 in Hcap|].
  split; [|split; [|split]].
  - intros Hpc0 Hfull. unfold main_step.
    destruct (crashed s); [done|]. destruct (waiter s); [|done..].
    rewrite Hpc0.
    destruct (Z.ltb_spec (numInProgress s) C); [lia|done].
  - intros s' Hpc0 Hstep. apply main_step_cases in Hstep as [_ Hstep].
    destruct Hstep as [(Hp0 & _)|[(Hp0 & _)|[(? & ? & ? & Hp0 & _)
      |[(? & Hp0 & _)|[(Hp0 & _)|[(_ & Hlt & ->)|(Hp0 & _)]]]]]];
      try congruence. done.
  - intros s' Hpc0 Hlt Hstep. apply main_step_cases in Hstep as [_ Hstep].
    destruct Hstep as [(_ & _ & key & _ & _ & _ & _ & _ & Hn' & _ & _ & _ & _ & _ & Htr)
      |[(_ & ? & _)|[(? & ? & ? & Hp0 & _)
      |[(? & Hp0 & _)|[(Hp0 & _)|[(Hp0 & _)|(Hp0 & _)]]]]]];
      try congruence; try lia.
    unfold issued in *. rewrite Hn', Htr, Hpc0 in *. simpl in *.
    rewrite wrap32_small by lia. done.
  - intros k o s' Hstep.
    apply notify_begin_cases in Hstep
      as [_ (j & r & recs' & sets & e & Hk & _ & ->)].
    assert (length (pending s) ≠ 0%nat)
      by (intros Hz; apply length_zero_iff_nil in Hz; rewrite Hz in Hk; done).
    assert (0 ≤ in_call (pc s) ≤ 1) by (destruct (pc s); simpl; lia).
    assert (counted (pc s) ≤ 1) by (destruct (pc s); simpl; lia).
    unfold issued in *. simpl. rewrite wrap32_small by lia. done.
Qed.

(** *** Key suffixes *)

Lemma counter_at_range n : 0 ≤ counter_at options call n ≤ UINT64_MAX.
Proof.
  assert (∀ z, 0 ≤ wrap64 z ≤ UINT64_MAX) as Hw.
  { intros z. unfold wrap64, UINT64_MAX.
    pose proof (Z.mod_pos_bound z (2 ^ 64)). lia. }
  unfold counter_at. induction n as [|n IH]; [apply Hw|].
  rewrite Nat.iter_succ.
  generalize dependent (Nat.iter n (next_counter call)
    (wrap64 (INT64_MAX - childProcessIndex options))).
  intros c Hc. unfold next_counter, key_counter.
  destruct (withSuffix call); [apply Hw|].
  destruct (Z.eqb_spec c 0); [unfold INT64_MAX, UINT64_MAX; lia|done].
Qed.

Lemma counter_at_succ n :
  counter_at options call (S n)
  = next_counter call (counter_at options call n).
Proof. done. Qed.

Lemma key_counter_pos c : 0 ≤ c → 0 < key_counter c.
Proof.
  unfold key_counter, INT64_MAX. intros. destruct (Z.eqb_spec c 0); lia.
Qed.

Lemma suffixes_reachable tr recs parentAddress (s : State T) :
  isParentProcess options = false →
  withSuffix call = true →
  reachable options call tr recs parentAddress s →
  suffixes (trace s)
  = (λ j, key_counter (counter_at options call (Z.to_nat j)))
      <$> seqZ 0 (issued s).
Proof.
  intros Hrole Hws Hs.
  destruct (key_inv_reachable _ _ _ _ Hrole Hs) as (_ & Htrs & _).
  unfold suffixes. rewrite Htrs. clear Htrs. unfold make_key. rewrite Hws.
  induction (seqZ 0 (issued s)) as [|j l IH]; [done|].
  simpl. by f_equal.
Qed.

(** C3: with the NoFileSuffix flag clear, the numeric suffixes handed to
    the transfer function, one per invocation and in issuance order, start
    at [INT64_MAX - childProcessIndex]; each next one is the previous one
    minus one, except that when this difference is zero the next suffix is
    [INT64_MAX]; and every suffix is strictly positive. *)
Theorem key_suffix_sequence tr recs parentAddress (s : State T) :
  isParentProcess options = false →
  Z.land (flags call) NoFileSuffix = 0 →
  0 ≤ childProcessIndex options < INT64_MAX →
  reachable options call tr recs parentAddress s →
  length (suffixes (trace s)) = Z.to_nat (issued s) ∧
  (∀ a, suffixes (trace s) !! 0%nat = Some a →
        a = INT64_MAX - childProcessIndex options) ∧
  (∀ k a b, suffixes (trace s) !! k = Some a →
            suffixes (trace s) !! S k = Some b →
            b = if a - 1 =? 0 then INT64_MAX else a - 1) ∧
  Forall (λ a, 0 < a) (suffixes (trace s)).
Proof.
  intros Hrole Hflag Hidx Hs.
  assert (withSuffix call = true) as Hws
    by (unfold withSuffix; rewrite Hflag; done).
  rewrite (suffixes_reachable _ _ _ _ Hrole Hws Hs).
  split; [by rewrite length_fmap, length_seqZ|]. split; [|split].
  - intros a. rewrite list_lookup_fmap.
    destruct (seqZ 0 (issued s) !! 0%nat) as [j|] eqn:Hj; [|done].
    apply lookup_seqZ in Hj as [-> _]. simpl. intros [= <-].
    unfold counter_at, key_counter. simpl.
    rewrite wrap64_small by (unfold INT64_MAX, UINT64_MAX in *; lia).
    destruct (Z.eqb_spec (INT64_MAX - childProcessIndex options) 0); lia.
  - intros k a b. rewrite !list_lookup_fmap.
    destruct (seqZ 0 (issued s) !! k) as [j|] eqn:Hj; [|done].
    destruct (seqZ 0 (issued s) !! S k) as [j'|] eqn:Hj'; [|done].
    apply lookup_seqZ in Hj as [-> _]. apply lookup_seqZ in Hj' as [-> _].
    rewrite !Z.add_0_l.
    cbn [fmap option_fmap option_map]. rewrite !Nat2Z.id.
    intros [= <-] [= <-].
    unfold next_counter. rewrite Hws.
    pose proof (counter_at_range k) as Hr.
    pose proof (key_counter_pos _ (proj1 Hr)) as Hpos.
    assert (key_counter (counter_at options call k) ≤ UINT64_MAX) as Hle.
    { unfold key_counter, INT64_MAX, UINT64_MAX in *.
      destruct (Z.eqb_spec (counter_at options call k) 0); lia. }
    rewrite wrap64_small by lia. done.
  - apply Forall_fmap, Forall_forall. intros j _. simpl.
    apply key_counter_pos, counter_at_range.
Qed.

(** *** The coordinator *)

Lemma coordinator_stays tr recs parentAddress (s : State T) :
  isParentProcess options = true →
  reachable options call tr recs parentAddress s →
  s = PerformMeasurement_enter options call tr recs parentAddress.
Proof.
  intros Hrole. revert s. apply reachable_ind; [done|].
  intros s1 s2 _ -> [a Ha]. exfalso. revert Ha.
  unfold PerformMeasurement_enter. rewrite Hrole.
  destruct tr; [|destruct (warmDNS call); [|destruct (0 <? N)]];
    by destruct a as [| | |[]].
Qed.

(** C4: in the coordinator role, with a live transport, the run warms the
    DNS cache if and only if the DontWarmDNSCache flag is clear; it then
    writes to each process [i < N] the address the transport gives for
    transfer [i], under the address key; it then reads the finished key
    from each process [i < N]; and it returns: the trace holds nothing
    else, the transfer function is never invoked and no step of the
    issuance loop is ever taken. *)
Theorem coordinator_protocol (t : T) recs parentAddress (s : State T) :
  isParentProcess options = true →
  reachable options call (Some t) recs parentAddress s →
  let warm := Z.land (flags call) DontWarmDNSCache =? 0 in
  let t1 := if warm then WarmDNSCache C t else t in
  let writes :=
    (λ j, EWriteToChildProcess j (keyPrefix call +:+ "address")
            (GetAddressForTransfer j t1)) <$> seqZ 0 N in
  let reads :=
    (λ j, EReadFromChildProcess j (keyPrefix call +:+ "finished"))
      <$> seqZ 0 N in
  trace s = (if warm then [EWarmDNSCache C] else []) ++ writes ++ reads ∧
  length writes = Z.to_nat N ∧ length reads = Z.to_nat N ∧
  pc s = Returned ∧ crashed s = false ∧
  transfers (trace s) = [] ∧
  ∀ a, act options call a s = None.
Proof.
  intros Hrole Hs. rewrite (coordinator_stays _ _ _ _ Hrole Hs).
  rewrite transfers_enter.
  unfold PerformMeasurement_enter. rewrite Hrole. simpl.
  rewrite !length_fmap, !length_seqZ.
  repeat split; try done. by intros [| | |[]].
Qed.

(** *** Crashes *)

Lemma crashed_step (s s' : State T) :
  step options call s s' → crashed s' = true →
  ∃ key, pc s = AtIssue key ∧
    tf_invoke (transferFunction call) (i s) key (objectSize call)
      (transport s) (records s) = None.
Proof.
  intros [[|k o|k|c] Ha] Hc; simpl in Ha.
  - apply main_step_cases in Ha as [_ Ha].
    destruct Ha as [(_ & _ & key & _ & Hc' & _)
      |[(_ & _ & ->)|[(key & recs & r & _ & _ & ->)|[(key & Hp0 & Htf & ->)
      |[(_ & ->)|[(_ & _ & ->)|(_ & _ & ->)]]]]]]; try done.
    + congruence.
    + eauto.
  - by apply notify_begin_cases in Ha as [_ (j & r & recs & sets & e & _ & _ & ->)].
  - by apply notify_end_cases in Ha as [_ (j & _ & ->)].
  - apply cv_step_cases in Ha as (Hlive & sig & w & ->). simpl in Hc.
    congruence.
Qed.

Lemma enter_live (t : T) recs parentAddress :
  crashed (PerformMeasurement_enter options call (Some t) recs parentAddress)
  = false.
Proof.
  unfold PerformMeasurement_enter.
  by destruct (isParentProcess options), (isChildProcess options).
Qed.

Lemma crashed_reachable (t : T) recs parentAddress (s : State T) :
  reachable options call (Some t) recs parentAddress s →
  (∀ s1 key, reachable options call (Some t) recs parentAddress s1 →
     pc s1 = AtIssue key →
     is_Some (tf_invoke (transferFunction call) (i s1) key (objectSize call)
                (transport s1) (records s1))) →
  crashed s = false.
Proof.
  intros Hs Hsafe. revert s Hs. apply reachable_ind; [apply enter_live|].
  intros s1 s2 Hs1 IH Hstep. destruct (crashed s2) eqn:Hc2; [|done].
  destruct (crashed_step _ _ Hstep Hc2) as (key & Hpc1 & Htf).
  destruct (Hsafe _ _ Hs1 Hpc1) as [x Hx]. congruence.
Qed.

(** *** Warming *)

Lemma warmings_app evs1 evs2 :
  warmings (evs1 ++ evs2) = warmings evs1 ++ warmings evs2.
Proof. apply omap_app. Qed.

(** C10: a worker never calls [WarmDNSCache], whatever the flags and the
    transport handle; with a live transport, the coordinator and the
    standalone process call it exactly once when the DontWarmDNSCache flag
    is clear and never when it is set. *)
Theorem worker_never_warms (t : T) tr recs parentAddress :
  (isParentProcess options = false → isChildProcess options = true →
   ∀ s, reachable options call tr recs parentAddress s →
        warmings (trace s) = []) ∧
  (∀ s, reachable options call (Some t) recs parentAddress s →
        warmings (trace s)
        = if negb (isParentProcess options) && isChildProcess options
          then []
          else if Z.land (flags call) DontWarmDNSCache =? 0
               then [C] else []).
Proof.
  assert (∀ tr0 s, isParentProcess options = false →
    reachable options call tr0 recs parentAddress s →
    warmings (trace s)
    = warmings (trace (PerformMeasurement_enter options call tr0 recs
                         parentAddress))) as Hloop.
  { intros tr0 s Hrole Hs.
    destruct (trace_shape _ _ _ _ Hrole Hs) as (body & -> & Hbody).
    rewrite !warmings_app.
    unfold warmings at 2. rewrite (omap_loop_events _ body); [|by intros []|done].
    unfold finish_events.
    destruct (pc s), (isChildProcess options); simpl;
      by rewrite ?app_nil_r. }
  split.
  - intros Hrole Hchild s Hs. rewrite (Hloop _ _ Hrole Hs).
    unfold PerformMeasurement_enter. rewrite Hrole, Hchild.
    by destruct tr.
  - intros s Hs. destruct (isParentProcess options) eqn:Hrole.
    + rewrite (coordinator_stays _ _ _ _ Hrole Hs).
      unfold PerformMeasurement_enter. rewrite Hrole. simpl.
      rewrite !warmings_app. unfold warmings at 2 3.
      rewrite !omap_none;
        [|by apply Forall_fmap, Forall_forall..].
      unfold warm_events, warmDNS.
      by destruct (Z.land (flags call) DontWarmDNSCache =? 0).
    + rewrite (Hloop _ _ eq_refl Hs).
      unfold PerformMeasurement_enter. rewrite Hrole.
      destruct (isChildProcess options); simpl; [done|].
      rewrite warmings_app. unfold warm_events, warmDNS.
      by destruct (Z.land (flags call) DontWarmDNSCache =? 0).
Qed.

(** *** The worker *)

Lemma transfer_indices tr recs parentAddress (s : State T) :
  isParentProcess options = false →
  reachable options call tr recs parentAddress s →
  (transfers (trace s)).*1 = seqZ 0 (issued s).
Proof.
  intros Hrole Hs.
  destruct (key_inv_reachable _ _ _ _ Hrole Hs) as (_ & -> & _).
  rewrite <- list_fmap_compose. apply list_fmap_id.
Qed.

Lemma protocol_events_app evs1 evs2 :
  protocol_events (evs1 ++ evs2)
  = protocol_events evs1 ++ protocol_events evs2.
Proof. apply omap_app. Qed.

Lemma protocol_events_loop body :
  Forall (λ e, loop_event e = true) body → protocol_events body = [].
Proof.
  intros Hbody. apply omap_none. eapply Forall_impl; [done|].
  intros e He. simpl in *. by rewrite He.
Qed.

(** C5: a worker with a live transport reads the address key from the
    coordinator once, hands exactly the string it read to
    [SeedAddressCache], spawns the connection managers and enters the
    issuance loop; these are the first three events of every run.  Until
    the run returns nothing else touches the channel or sets up the
    transport.  The finished token is written once, as the last event, by
    the step that leaves the wait for all completions, when all
    [numTransfers] transfers have been issued and counted as completed. *)
Theorem worker_protocol (t : T) recs parentAddress (s : State T) :
  isParentProcess options = false →
  isChildProcess options = true →
  reachable options call (Some t) recs parentAddress s →
  let setup :=
    [EReadFromParentProcess (keyPrefix call +:+ "address") parentAddress;
     ESeedAddressCache parentAddress;
     ESpawnConnectionManagers] in
  let finished :=
    match pc s with
    | Returned => [EWriteToParentProcess (keyPrefix call +:+ "finished") "done"]
    | _ => []
    end in
  transport s
  = Some (SpawnConnectionManagers (SeedAddressCache parentAddress t)) ∧
  (∃ body, Forall (λ e, loop_event e = true) body ∧
           trace s = setup ++ body ++ finished) ∧
  protocol_events (trace s) = setup ++ finished ∧
  (pc s = Returned →
   numCompleted s = N ∧ (transfers (trace s)).*1 = seqZ 0 N) ∧
  (∀ s', main_step options call s = Some s' → pc s' = Returned →
         pc s = AtWaitAll ∧ N ≤ numCompleted s ∧
         trace s' = trace s ++
           [EWriteToParentProcess (keyPrefix call +:+ "finished") "done"]).
Proof.
  intros Hrole Hchild Hs setup finished.
  pose proof (gate_inv_reachable _ _ _ _ Hrole Hs)
    as (Hi & HiN & Hc & Hp & Hsum & Hpc).
  destruct (trace_shape _ _ _ _ Hrole Hs) as (body & Htr & Hbody).
  assert (finish_events options call s = finished) as Hfin.
  { unfold finish_events, finished. by rewrite Hchild. }
  assert (trace (PerformMeasurement_enter options call (Some t) recs
                   parentAddress) = setup) as Hsetup.
  { unfold PerformMeasurement_enter. by rewrite Hrole, Hchild. }
  rewrite Hfin, Hsetup in Htr.
  split; [|split; [|split; [|split]]].
  - rewrite (transport_reachable _ _ _ _ Hs).
    unfold PerformMeasurement_enter. by rewrite Hrole, Hchild.
  - by exists body.
  - rewrite Htr, !protocol_events_app, (protocol_events_loop body Hbody).
    unfold finished. by destruct (pc s).
  - intros Hret. rewrite (transfer_indices _ _ _ _ Hrole Hs).
    unfold issued. rewrite Hret in *. simpl. destruct Hpc as [-> ->].
    by rewrite Z.add_0_r.
  - intros s' Hstep Hret. apply main_step_cases in Hstep as [_ Hstep].
    destruct Hstep as [(_ & _ & key & Hp' & _)
      |[(_ & _ & ->)|[(key & recs' & r & _ & _ & ->)|[(key & _ & _ & ->)
      |[(_ & ->)|[(_ & _ & ->)|(Hp0 & Hge & ->)]]]]]]; try done.
    + congruence.
    + simpl. by rewrite Hchild.
Qed.

(** *** Inside the waits *)

Lemma enter_running tr recs parentAddress :
  waiter (PerformMeasurement_enter options call tr recs parentAddress)
  = Running ∧
  signalling (PerformMeasurement_enter options call tr recs parentAddress)
  = [].
Proof.
  unfold PerformMeasurement_enter.
  destruct (isParentProcess options), (isChildProcess options), tr; try done;
    destruct (warmDNS call); try done; by destruct (0 <? N).
Qed.

(** The issuing thread is inside [wait(guard)] only at one of the two
    waits, and only in a run that has transfers to make. *)
Lemma waiting_reachable tr recs parentAddress (s : State T) :
  isParentProcess options = false →
  reachable options call tr recs parentAddress s →
  waiter s ≠ Running →
  (pc s = AtWaitSlot ∨ pc s = AtWaitAll) ∧ 0 < N.
Proof.
  intros Hrole. revert s.
  apply (reachable_ind tr recs parentAddress
           (λ s, waiter s ≠ Running →
                 (pc s = AtWaitSlot ∨ pc s = AtWaitAll) ∧ 0 < N)).
  - by destruct (enter_running tr recs parentAddress) as [-> _].
  - intros s1 s2 Hs1 IH [[|k o|k|c] Ha] Hw; simpl in Ha.
    + apply main_step_running in Ha as (_ & Hw' & _). done.
    + apply notify_begin_cases in Ha
        as [_ (j & r & recs' & sets & e & _ & _ & ->)]. by apply IH.
    + apply notify_end_cases in Ha as [_ (j & _ & ->)]. by apply IH.
    + pose proof (gate_inv_reachable _ _ _ _ Hrole Hs1)
        as (Hi & HiN & Hc & Hp & Hsum & Hpc).
      apply cv_step_inv in Ha as [_ Ha].
      destruct Ha as [(k & j & _ & _ & ->)|[(_ & _ & Hat & ->)
        |[(_ & Hw1 & ->)|(_ & _ & ->)]]]; simpl in *.
      * apply IH. by destruct (waiter s1).
      * destruct Hat as [[Hp0 _]|[Hp0 Hlt]]; rewrite Hp0 in *;
          (split; [auto|lia]).
      * apply IH. by rewrite Hw1.
      * done.
Qed.

(** *** No transfers *)

(** C9: with [numTransfers = 0], in a non-coordinator role and with a live
    transport, the transfer function is never invoked; the issuing thread
    is never at the slot wait, which sits in the loop body, and the wait
    for all completions passes the first time it is evaluated, since
    [0 >= 0]; two steps of the issuing thread alone take the run from the
    loop head to its return, where a worker has written the finished token
    as its last event. *)
Theorem no_transfers_run (t : T) recs parentAddress :
  isParentProcess options = false →
  N = 0 →
  let enter :=
    PerformMeasurement_enter options call (Some t) recs parentAddress in
  (∀ s, reachable options call (Some t) recs parentAddress s →
        transfers (trace s) = [] ∧ pending s = [] ∧ finishing s = [] ∧
        numCompleted s = 0 ∧ numInProgress s = 0 ∧ crashed s = false ∧
        pc s ≠ AtWaitSlot ∧ (∀ key, pc s ≠ AtIssue key) ∧
        pc s ≠ InTransferFunction ∧
        (pc s = AtWaitAll → is_Some (main_step options call s))) ∧
  (∃ s, run options call [Main; Main] enter = Some s ∧
        pc s = Returned ∧
        trace s = trace enter ++
          (if isChildProcess options
           then [EWriteToParentProcess (keyPrefix call +:+ "finished") "done"]
           else [])).
Proof.
  intros Hrole HN enter. split.
  - intros s Hs.
    pose proof (gate_inv_reachable _ _ _ _ Hrole Hs)
      as (Hi & HiN & Hc & Hp & Hsum & Hpc).
    pose proof (transfer_indices _ _ _ _ Hrole Hs) as Hidx.
    pose proof (waiting_reachable _ _ _ _ Hrole Hs) as Hwait.
    assert (crashed s = false) as Hlive.
    { apply (crashed_reachable _ _ _ _ Hs). intros s1 key Hs1 Hpc1.
      pose proof (gate_inv_reachable _ _ _ _ Hrole Hs1)
        as (Hi1 & _ & _ & _ & _ & Hpc1').
      rewrite Hpc1 in Hpc1'. lia. }
    unfold issued in *. rewrite HN in *.
    assert (0 ≤ in_call (pc s)) by (destruct (pc s); simpl; lia).
    assert (issued s = 0) as Hz by (unfold issued; lia).
    assert (pending s = [] ∧ finishing s = []) as [Hpe Hfi].
    { split; apply length_zero_iff_nil; lia. }
    rewrite Hpe, Hfi in *. simpl in *.
    repeat split.
    + apply fmap_nil_inv with (f := fst).
      rewrite Hidx. unfold issued in Hz. by rewrite Hz.
    + lia.
    + destruct (pc s); simpl in *; lia.
    + done.
    + intros Hpc0. rewrite Hpc0 in *. lia.
    + intros key Hpc0. rewrite Hpc0 in *. lia.
    + intros Hpc0. rewrite Hpc0 in *. lia.
    + intros Hpc0. unfold main_step. rewrite Hlive, Hpc0.
      destruct (waiter s) eqn:Hw; [|destruct Hwait; [done|lia]..].
      destruct (Z.leb_spec N (numCompleted s)); [done|lia].
  - unfold enter, PerformMeasurement_enter. rewrite Hrole.
    unfold run, act, main_step, loop_entry. simpl. rewrite HN.
    destruct (isChildProcess options); simpl; eexists;
      (split; [done|]); simpl; by rewrite <- ?app_assoc.
Qed.

(** *** Progress *)

Section Progress.
(** The transfer function never indexes out of range while the caller's
    records satisfy [RI], which its callbacks maintain. *)
Variable RI : list TransferState → Prop.
Hypothesis invoke_safe : ∀ j key t recs,
  RI recs → 0 ≤ j < N →
  ∃ recs' r,
    tf_invoke (transferFunction call) j key (objectSize call) (Some t) recs
    = Some (recs', r) ∧ RI recs'.
Hypothesis complete_safe : ∀ j r o recs,
  RI recs → RI (tf_complete (transferFunction call) j r o recs).1.1.

Lemma safe_reachable (t : T) recs parentAddress (s : State T) :
  isParentProcess options = false → RI recs →
  reachable options call (Some t) recs parentAddress s →
  RI (records s) ∧ crashed s = false ∧ ∃ t', transport s = Some t'.
Proof.
  intros Hrole Hrecs. revert s. apply reachable_ind.
  - unfold PerformMeasurement_enter. rewrite Hrole.
    destruct (isChildProcess options); simpl; eauto.
  - intros s1 s2 Hs1 (HRI & Hlive & t' & Ht') Hstep.
    pose proof (gate_inv_reachable _ _ _ _ Hrole Hs1)
      as (Hi & HiN & _ & _ & _ & Hpc).
    rewrite (transport_step _ _ Hstep).
    split; [|split; [|eauto]].
    + destruct Hstep as [[|k o|k|c] Ha]; simpl in Ha.
      * apply main_step_cases in Ha as [_ Ha].
        destruct Ha as [(_ & _ & key & _ & _ & _ & _ & _ & _ & _ & _ & _ & _ & Hr & _)
          |[(_ & _ & ->)|[(key & recs' & r & Hp0 & Htf & ->)|[(key & _ & _ & ->)
          |[(_ & ->)|[(_ & _ & ->)|(_ & _ & ->)]]]]]]; try done.
        -- by rewrite Hr.
        -- rewrite Hp0 in Hpc. rewrite Ht' in Htf.
           destruct (invoke_safe (i s1) key t' (records s1) HRI)
             as (recs'' & r'' & Htf' & HRI'); [lia|].
           rewrite Htf in Htf'. by simplify_eq.
      * apply notify_begin_cases in Ha
          as [_ (j & r & recs' & sets & e & _ & Hc & ->)].
        simpl. pose proof (complete_safe j r o _ HRI) as HRI'.
        by rewrite Hc in HRI'.
      * by apply notify_end_cases in Ha as [_ (j & _ & ->)].
      * by apply cv_step_cases in Ha as (_ & sig & w & ->).
    + destruct (crashed s2) eqn:Hc2; [|done].
      destruct (crashed_step _ _ Hstep Hc2) as (key & Hpc1 & Htf).
      rewrite Hpc1 in Hpc. rewrite Ht' in Htf.
      destruct (invoke_safe (i s1) key t' (records s1) HRI)
        as (recs'' & r'' & Htf' & _); [lia|].
      congruence.
Qed.

(** Every outstanding completion can be delivered up to its
    [++numCompleted], each transfer [j] with the outcome [out j]. *)
Lemma drain (out : Z → O) (n : nat) (s : State T) :
  crashed s = false →
  (2 * length (pending s) + length (finishing s) ≤ n)%nat →
  ∃ s', rtc (step options call) s s' ∧ pending s' = [] ∧
        finishing s' = [] ∧ pc s' = pc s ∧ i s' = i s ∧
        waiter s' = waiter s.
Proof.
  revert s. induction n as [|n IH]; intros s Hlive Hn.
  - exists s. repeat split; try done; apply length_zero_iff_nil; lia.
  - destruct (pending s) as [|[j r] ps] eqn:Hpe.
    + destruct (finishing s) as [|j fs] eqn:Hfi.
      { exists s. repeat split; done. }
      assert (∃ s1, notify_end 0 s = Some s1 ∧ pending s1 = [] ∧
                    finishing s1 = fs ∧ pc s1 = pc s ∧ i s1 = i s ∧
                    waiter s1 = waiter s ∧ crashed s1 = false)
        as (s1 & Hs1 & Hp1 & Hf1 & Hpc1 & Hi1 & Hw1 & Hl1).
      { unfold notify_end. rewrite Hlive, Hfi. simpl.
        eexists. split; [done|]. simpl. by rewrite Hpe. }
      destruct (IH s1 Hl1) as (s' & Hs' & ? & ? & Hpc' & Hi' & Hw').
      { rewrite Hp1, Hf1. simpl in *. lia. }
      exists s'. rewrite Hpc', Hi', Hw'. repeat split; try done.
      eapply rtc_l; [|done]. by exists (NotifyEnd 0).
    + assert (∃ s1, notify_begin call 0 (out j) s = Some s1 ∧
                    pending s1 = ps ∧ finishing s1 = finishing s ++ [j] ∧
                    pc s1 = pc s ∧ i s1 = i s ∧ waiter s1 = waiter s ∧
                    crashed s1 = false)
        as (s1 & Hs1 & Hp1 & Hf1 & Hpc1 & Hi1 & Hw1 & Hl1).
      { unfold notify_begin. rewrite Hlive, Hpe. simpl.
        destruct (tf_complete _ _ _ _ _) as [[recs sets] e].
        eexists. split; [done|]. simpl. done. }
      destruct (IH s1 Hl1) as (s' & Hs' & ? & ? & Hpc' & Hi' & Hw').
      { rewrite Hp1, Hf1, length_app. simpl in *. lia. }
      exists s'. rewrite Hpc', Hi', Hw'. repeat split; try done.
      eapply rtc_l; [|done]. by exists (NotifyBegin 0 (out j)).
Qed.

(** When every completion is delivered before the issuing thread tests
    the predicate of a wait, the thread never enters [wait(guard)] and the
    run goes on to its return. *)
Lemma can_return (out : Z → O) (t : T) recs parentAddress (m : nat) :
  isParentProcess options = false → RI recs → 1 ≤ C →
  ∀ s, reachable options call (Some t) recs parentAddress s →
       waiter s = Running →
       (remaining_steps N s ≤ m)%nat →
       ∃ s', rtc (step options call) s s' ∧ pc s' = Returned.
Proof.
  intros Hrole Hrecs HC.
  induction m as [m IH] using lt_wf_ind. intros s Hs Hw Hm.
  destruct (drain out (2 * length (pending s) + length (finishing s)) s)
    as (s1 & Hs1 & Hpe & Hfi & Hpc1 & Hi1 & Hw1);
    [by eapply safe_reachable|done|].
  rewrite Hw in Hw1.
  assert (reachable options call (Some t) recs parentAddress s1) as Hr1
    by (unfold reachable in *; by etrans).
  destruct (safe_reachable _ _ _ _ Hrole Hrecs Hr1)
    as (HRI & Hlive & t' & Ht').
  pose proof (gate_inv_reachable _ _ _ _ Hrole Hr1)
    as (Hi & HiN & Hc & Hp & Hsum & Hpc).
  unfold issued in *. rewrite Hpe, Hfi in *. simpl in *.
  revert Hp Hsum Hpc.
  assert (remaining_steps N s1 = remaining_steps N s) as Hrem
    by (unfold remaining_steps; by rewrite Hpc1, Hi1).
  assert (∀ s2, main_step options call s1 = Some s2 →
            (remaining_steps N s2 < remaining_steps N s1)%nat →
            ∃ s', rtc (step options call) s s' ∧ pc s' = Returned)
    as Hnext.
  { intros s2 Hstep Hlt.
    assert (step options call s1 s2) as Hstep' by (by exists Main).
    destruct (IH (remaining_steps N s2)) with (s := s2)
      as (s' & Hs' & Hret); [lia| | |done|].
    { unfold reachable in *. by eapply rtc_r. }
    { by apply main_step_running in Hstep as (_ & ? & _). }
    exists s'. split; [|done]. etrans; [done|]. by eapply rtc_l. }
  destruct (pc s1) eqn:Hpc0; simpl; intros Hp Hsum Hpc.
  - destruct (Z.ltb_spec (i s1) N).
    + eapply Hnext.
      * unfold main_step. rewrite Hlive, Hw1, Hpc0.
        destruct (Z.ltb_spec (i s1) N); [done|lia].
      * unfold remaining_steps. rewrite Hpc0. simpl. lia.
    + eapply Hnext.
      * unfold main_step. rewrite Hlive, Hw1, Hpc0.
        destruct (Z.ltb_spec (i s1) N); [lia|done].
      * unfold remaining_steps. rewrite Hpc0. simpl. lia.
  - destruct (invoke_safe (i s1) key t' (records s1) HRI)
      as (recs' & r & Htf & _); [lia|].
    eapply Hnext.
    + unfold main_step. rewrite Hlive, Hw1, Hpc0, Ht', Htf. done.
    + unfold remaining_steps. rewrite Hpc0. simpl. lia.
  - eapply Hnext.
    + unfold main_step. rewrite Hlive, Hw1, Hpc0. done.
    + unfold remaining_steps. rewrite Hpc0. simpl. lia.
  - eapply Hnext.
    + unfold main_step. rewrite Hlive, Hw1, Hpc0.
      destruct (Z.ltb_spec (numInProgress s1) C); [done|lia].
    + unfold remaining_steps. rewrite Hpc0. simpl.
      rewrite wrap32_small by lia. lia.
  - eapply Hnext.
    + unfold main_step. rewrite Hlive, Hw1, Hpc0.
      destruct (Z.leb_spec N (numCompleted s1)); [done|lia].
    + unfold remaining_steps. rewrite Hpc0. simpl. lia.
  - by exists s1.
Qed.

Lemma notifications_app evs1 evs2 :
  notifications (evs1 ++ evs2)
  = notifications evs1 ++ notifications evs2.
Proof. apply omap_app. Qed.

Lemma notifications_flag_events sets :
  notifications (flag_events sets) = [].
Proof. induction sets; done. Qed.

(** X19: whatever outcomes the transfers have had so far and however they
    were interleaved with the issuing thread, a run with a live transport
    has not crashed and has invoked the transfer function for the indices
    [0, 1, ...] in order, each once, never more than [numTransfers] of
    them, and exactly [numTransfers] when [PerformMeasurement] has
    returned.  The step at line 149 is the call of the transfer function:
    it takes over the records the function returns and registers its
    completion.  Any pending transfer can complete with any outcome: the
    notification leaves the position of the issuing thread and the
    invocations untouched, logs the error code when it is not the success
    code, and is then counted in [numCompleted]. *)
Theorem failures_never_abort_the_loop (t : T) recs parentAddress
    (s : State T) :
  isParentProcess options = false →
  RI recs →
  reachable options call (Some t) recs parentAddress s →
  crashed s = false ∧
  (transfers (trace s)).*1 = seqZ 0 (issued s) ∧ issued s ≤ N ∧
  (pc s = Returned →
   (transfers (trace s)).*1 = seqZ 0 N ∧ numCompleted s = N) ∧
  (∀ key, pc s = AtIssue key →
     ∃ recs' r s',
       tf_invoke (transferFunction call) (i s) key (objectSize call)
         (transport s) (records s) = Some (recs', r) ∧
       main_step options call s = Some s' ∧
       records s' = recs' ∧ pending s' = pending s ++ [(i s, r)] ∧
       transfers (trace s') = transfers (trace s) ++ [(i s, key)]) ∧
  (∀ k j r o, pending s !! k = Some (j, r) →
     let code := (tf_complete (transferFunction call) j r o (records s)).2 in
     ∃ s', notify_begin call k o s = Some s' ∧
       pc s' = pc s ∧ i s' = i s ∧ crashed s' = false ∧
       transfers (trace s') = transfers (trace s) ∧
       notifications (trace s') = notifications (trace s) ++ [(j, code)] ∧
       (code ≠ AWS_ERROR_SUCCESS →
        last (trace s') = Some (ELogTransferError code)) ∧
       ∃ s'', notify_end (length (finishing s)) s' = Some s'' ∧
         numCompleted s'' = numCompleted s + 1 ∧
         pc s'' = pc s ∧ i s'' = i s ∧ crashed s'' = false).
Proof.
  intros Hrole Hrecs Hs.
  destruct (safe_reachable _ _ _ _ Hrole Hrecs Hs)
    as (HRI & Hlive & t' & Ht').
  pose proof (gate_inv_reachable _ _ _ _ Hrole Hs)
    as (Hi & HiN & Hc & Hp & Hsum & Hpc).
  pose proof (transfer_indices _ _ _ _ Hrole Hs) as Hidx.
  pose proof (waiting_reachable _ _ _ _ Hrole Hs) as Hwait.
  split; [done|]. split; [done|]. split; [done|].
  split; [|split].
  - intros Hret. rewrite Hidx. unfold issued. rewrite Hret in *.
    simpl. destruct Hpc as [-> ->]. by rewrite Z.add_0_r.
  - intros key Hpc0. rewrite Hpc0 in Hpc.
    destruct (invoke_safe (i s) key t' (records s) HRI)
      as (recs' & r & Htf & _); [lia|].
    assert (waiter s = Running) as Hw.
    { destruct (waiter s) eqn:Hw; [done|..];
        destruct Hwait as [[?|?] _]; congruence. }
    exists recs', r. unfold main_step.
    rewrite Hlive, Hw, Hpc0, Ht', Htf.
    eexists. split; [done|]. split; [done|]. simpl.
    split; [done|]. split; [done|].
    rewrite transfers_app. done.
  - intros k j r o Hk.
    assert (length (pending s) ≠ 0%nat)
      by (intros Hz; apply length_zero_iff_nil in Hz; rewrite Hz in Hk; done).
    assert (0 ≤ in_call (pc s) ≤ 1) by (destruct (pc s); simpl; lia).
    unfold notify_begin, notify_end. rewrite Hlive, Hk.
    destruct (tf_complete _ _ _ _ _) as [[recs' sets] e]. simpl.
    eexists. split; [done|]. simpl.
    repeat split.
    + rewrite !transfers_app, transfers_flag_events. simpl.
      destruct (e =? AWS_ERROR_SUCCESS); simpl; by rewrite app_nil_r.
    + rewrite !notifications_app, notifications_flag_events. simpl.
      by destruct (e =? AWS_ERROR_SUCCESS).
    + intros He. destruct (Z.eqb_spec e AWS_ERROR_SUCCESS); [done|].
      apply last_Some.
      exists (trace s ++ flag_events sets ++ [ENotifyTransferFinished j e]).
      by rewrite <- !app_assoc.
    + rewrite list_lookup_middle by done.
      eexists. split; [done|]. simpl.
      unfold issued in *. rewrite wrap32_small by lia. done.
Qed.

End Progress.

End Orchestrator.

(** ** Schedules *)

Section Schedules.
Context {T : Type} `{!S3ObjectTransport T} {O : Type} `{!MeasurementFlags}.
Variable options : CanaryAppOptions.
Variable call : Measurement T O.

Lemma run_steps acts (s s' : State T) :
  run options call acts s = Some s' → rtc (step options call) s s'.
Proof.
  revert s. induction acts as [|a acts IH]; intros s Hrun; simpl in Hrun.
  - by simplify_eq.
  - destruct (act options call a s) as [s1|] eqn:Ha; [|done].
    eapply rtc_l; [by exists a|]. by apply IH.
Qed.

Lemma run_reachable acts tr recs parentAddress (s : State T) :
  run options call acts
    (PerformMeasurement_enter options call tr recs parentAddress) = Some s →
  reachable options call tr recs parentAddress s.
Proof. apply run_steps. Qed.

End Schedules.

(** ** The metrics pulse *)

Section PulseProperties.
Context {T : Type} `{!S3ObjectTransport T}.

Lemma AllocationMetricFrequencyNS_value :
  AllocationMetricFrequencyNS = 5000 * 1000000.
Proof. done. Qed.

Lemma cancelled_state_stays (m m' : MeasureTransferRate T) :
  rtc loop_step m m' → pulseTask m = None →
  pulseTask m' = None ∧ dataPoints m' = dataPoints m ∧
  pulseLog m' = pulseLog m.
Proof.
  induction 1 as [m|m1 m2 m3 Hstep _ IH]; [done|]. intros Hnone.
  destruct Hstep as [m now _|m resolver|m runAt Hsome _]; simpl in *.
  - by apply IH.
  - by apply IH.
  - congruence.
Qed.

(** C7: run with the cancelled status, the pulse task leaves everything as
    it was: no sample, no data point, no new schedule.  Cancelling takes the
    task off the scheduling loop and runs it once with that status; from
    then on, whatever the loop and the clock do, the task is never pending
    again, and the data points and the log of samples and schedules stay
    what they were when the owner cancelled. *)
Theorem cancelled_pulse_is_inert (m : MeasureTransferRate T) :
  s_PulseMetricsTask AWS_TASK_STATUS_CANCELED m = m ∧
  pulseTask (aws_event_loop_cancel_task m) = None ∧
  dataPoints (aws_event_loop_cancel_task m) = dataPoints m ∧
  pulseLog (aws_event_loop_cancel_task m) = pulseLog m ∧
  ∀ m', rtc loop_step (aws_event_loop_cancel_task m) m' →
        pulseTask m' = None ∧ dataPoints m' = dataPoints m ∧
        pulseLog m' = pulseLog m.
Proof.
  split; [done|]. split; [done|]. split; [done|]. split; [done|].
  intros m' Hm'. by apply cancelled_state_stays in Hm'.
Qed.

(** C8: the constructor schedules the first pulse exactly when the process
    is not a worker, at the loop's current time plus 5000 ms (in
    nanoseconds); a firing with the ready status samples the address count
    of the upload and of the download endpoint, adds one data point for
    each, in this order, and schedules the task again at the current time
    plus the same 5000 ms; this is what the scheduling loop runs when the
    task's time has come.  Timestamps are unsigned 64-bit nanoseconds; the
    sums are exact as long as they fit. *)
Theorem pulse_schedule (options : CanaryAppOptions) (up down : T)
    (resolver : string → Z) (clock : Z) (publisher : list Metric)
    (m : MeasureTransferRate T) :
  0 ≤ clock → clock + 5000 * 1000000 ≤ UINT64_MAX →
  0 ≤ loopClock m → loopClock m + 5000 * 1000000 ≤ UINT64_MAX →
  let created := MeasureTransferRate_new options up down resolver clock publisher in
  let fired := s_PulseMetricsTask AWS_TASK_STATUS_RUN_READY (unschedule m) in
  let upCount :=
    {| Name := S3UploadAddressCount; Unit := Count;
       Value := hostAddressCount m (GetEndpoint (uploadTransport m)) |} in
  let downCount :=
    {| Name := S3DownloadAddressCount; Unit := Count;
       Value := hostAddressCount m (GetEndpoint (downloadTransport m)) |} in
  pulseTask created
  = (if isChildProcess options then None
     else Some (clock + 5000 * 1000000)) ∧
  pulseLog created
  = (if isChildProcess options then []
     else [PScheduleTaskFuture (clock + 5000 * 1000000)]) ∧
  dataPoints created = publisher ∧
  dataPoints fired = dataPoints m ++ [upCount; downCount] ∧
  pulseTask fired = Some (loopClock m + 5000 * 1000000) ∧
  pulseLog fired
  = pulseLog m ++
      [PGetHostAddressCount (GetEndpoint (uploadTransport m)) (Value upCount);
       PAddDataPoint upCount;
       PGetHostAddressCount (GetEndpoint (downloadTransport m))
         (Value downCount);
       PAddDataPoint downCount;
       PScheduleTaskFuture (loopClock m + 5000 * 1000000)] ∧
  (pulseTask created = None ↔ isChildProcess options = true) ∧
  (∀ runAt, pulseTask m = Some runAt → runAt ≤ loopClock m →
            loop_step m fired).
Proof.
  intros Hc0 Hc1 Hm0 Hm1.
  assert (wrap64 (clock + AllocationMetricFrequencyNS)
          = clock + 5000 * 1000000) as Hclock.
  { rewrite AllocationMetricFrequencyNS_value. apply wrap64_small. lia. }
  assert (wrap64 (loopClock m + AllocationMetricFrequencyNS)
          = loopClock m + 5000 * 1000000) as Hloop.
  { rewrite AllocationMetricFrequencyNS_value. apply wrap64_small. lia. }
  unfold MeasureTransferRate_new, s_PulseMetricsTask, SchedulePulseMetrics,
    sample_address_count.
  destruct (isChildProcess options); simpl; rewrite ?Hclock, ?Hloop;
    rewrite <- ?app_assoc; simpl; repeat split; try done.
  all: intros runAt Hsome Hle; pose proof (loop_fire m runAt Hsome Hle) as Hf.
  all: unfold s_PulseMetricsTask, SchedulePulseMetrics, sample_address_count,
         unschedule in Hf; simpl in Hf.
  all: rewrite ?Hloop, <- ?app_assoc in Hf; exact Hf.
Qed.

End PulseProperties.

(** ** The single-part transfer functions *)

Section SinglePart.
Context {T : Type}.

Lemma upload_invoke_safe (n : nat) j key size (t : T) recs :
  length recs = n → 0 ≤ j < Z.of_nat n →
  ∃ recs' r,
    tf_invoke SinglePartUpload j key size (Some t) recs = Some (recs', r) ∧
    length recs' = n.
Proof.
  intros Hlen Hj. simpl.
  destruct (recs !! Z.to_nat j) as [st|] eqn:Hst.
  - eexists _, _. split; [done|]. by rewrite length_insert.
  - apply lookup_ge_None in Hst. lia.
Qed.

Lemma upload_complete_safe (n : nat) j r o recs :
  length recs = n →
  length (tf_complete (SinglePartUpload (T := T)) j r o recs).1.1 = n.
Proof. intros Hlen. simpl. by rewrite length_alter. Qed.

End SinglePart.

(** ** Records whose completion callback sets the flag *)

Section FlagDiscipline.
Context {T : Type} `{!S3ObjectTransport T} {O : Type} `{!MeasurementFlags}.
Variable options : CanaryAppOptions.
Variable call : Measurement T O.

Local Abbreviation N := (numTransfers call).

Hypothesis N_range : 0 ≤ N ≤ UINT32_MAX.

(** The call takes the record of its index and leaves every flag alone; the
    completion callback sets the flag of that record, once. *)
Hypothesis invoke_spec : ∀ j key size tr recs recs' r,
  tf_invoke (transferFunction call) j key size tr recs = Some (recs', r) →
  r = Z.to_nat j ∧ transferSuccess <$> recs' = transferSuccess <$> recs.
Hypothesis complete_spec : ∀ j r o recs,
  ∃ b code, tf_complete (transferFunction call) j r o recs
            = (alter (SetTransferSuccess b) r recs, [(r, b)], code).

Lemma flag_writes_app n evs1 evs2 :
  flag_writes n (evs1 ++ evs2) = flag_writes n evs1 ++ flag_writes n evs2.
Proof. apply omap_app. Qed.

Lemma same_flags_lookup (recs recs' : list TransferState) n rec' :
  transferSuccess <$> recs' = transferSuccess <$> recs →
  recs' !! n = Some rec' →
  ∃ rec, recs !! n = Some rec ∧ transferSuccess rec' = transferSuccess rec.
Proof.
  intros Heq Hn.
  assert ((transferSuccess <$> recs) !! n = Some (transferSuccess rec')) as H1
    by (by rewrite <- Heq, list_lookup_fmap, Hn).
  rewrite list_lookup_fmap in H1.
  destruct (recs !! n) as [rec|]; [|done]. exists rec.
  simpl in H1. injection H1 as H1. by rewrite H1.
Qed.

Lemma record_inv_step (s s' : State T) :
  gate_inv N s → record_inv s → step options call s s' → record_inv s'.
Proof.
  intros (Hi & HiN & _ & _ & _ & Hpc) (Hpend & Hdup & Hrec) [[|k o|k|c] Ha];
    simpl in Ha.
  - apply main_step_cases in Ha as [_ Ha]. unfold record_inv, issued in *.
    destruct Ha as [(Hp0 & _ & key & Hp' & _ & Hi' & _ & _ & _ & _ & Hpe' & _ & _ & Hr' & Htr')
      |[(Hp0 & _ & ->)|[(key & recs & r & Hp0 & Htf & ->)|[(key & Hp0 & _ & ->)
      |[(Hp0 & ->)|[(Hp0 & _ & ->)|(Hp0 & _ & ->)]]]]]];
      rewrite Hp0 in *; simpl in *; rewrite ?Z.add_0_r in *.
    + rewrite Hp', Hi', Hpe', Hr', Htr'. simpl. by rewrite Z.add_0_r.
    + done.
    + apply invoke_spec in Htf as [-> Hflags].
      split; [|split].
      * apply Forall_app. split.
        -- eapply Forall_impl; [done|]. simpl. intros p [? ?]. split; [done|lia].
        -- repeat constructor; simpl; lia.
      * rewrite fmap_app. apply NoDup_app. split; [done|]. split.
        -- intros j Hj Hj'. apply list_elem_of_singleton in Hj'.
           simpl in Hj'. subst j.
           apply list_elem_of_fmap in Hj as ([j' r'] & Heq & Hin).
           simpl in Heq. subst j'.
           rewrite Forall_forall in Hpend. apply Hpend in Hin. simpl in *. lia.
        -- apply NoDup_singleton.
      * intros n rec' Hn.
        destruct (same_flags_lookup _ _ _ _ Hflags Hn) as (rec & Hn0 & ->).
        rewrite !flag_writes_app. simpl. rewrite app_nil_r, fmap_app.
        destruct (Hrec n rec Hn0) as [(Hf & Hw & Hor)|(b & Hf & Hw & Hlt & Hnot)].
        -- left. split; [done|]. split; [done|].
           destruct Hor as [Hge|Hin].
           ++ destruct (decide (Z.of_nat n = i s)) as [<-|Hne].
              ** right. apply elem_of_app. right. by apply list_elem_of_singleton.
              ** left. lia.
           ++ right. apply elem_of_app. by left.
        -- right. exists b. split; [done|]. split; [done|]. split; [lia|].
           apply not_elem_of_app. split; [done|].
           intros Hin%list_elem_of_singleton. simpl in *. lia.
    + split; [done|]. split; [done|]. intros n rec Hn.
      rewrite flag_writes_app. simpl. rewrite app_nil_r. by apply Hrec.
    + done.
    + rewrite wrap32_small by lia. done.
    + split; [done|]. split; [done|]. intros n rec Hn.
      rewrite flag_writes_app.
      destruct (isChildProcess options); simpl; rewrite app_nil_r;
        by apply Hrec.
  - apply notify_begin_cases in Ha as [_ (j & r & recs & sets & e & Hk & Hc & ->)].
    destruct (complete_spec j r o (records s)) as (b & code & Hc').
    rewrite Hc in Hc'. simplify_eq.
    unfold record_inv, issued in *. simpl.
    pose proof Hpend as Hall. rewrite Forall_forall in Hall.
    destruct (Hall (j, r) (list_elem_of_lookup_2 _ _ _ Hk)) as [Hr Hj].
    simpl in Hr, Hj. subst r.
    assert ((pending s).*1 !! k = Some j) as Hk1
      by (by rewrite list_lookup_fmap, Hk).
    pose proof (delete_Permutation _ _ _ Hk1) as Hperm.
    assert (NoDup (j :: delete k (pending s).*1)) as Hdup'
      by (by rewrite <- Hperm).
    apply NoDup_cons in Hdup' as [Hjnot Hdup'].
    rewrite list_fmap_delete.
    split; [by apply Forall_delete|]. split; [done|].
    intros n rec' Hn.
    rewrite !flag_writes_app. simpl.
    assert (flag_writes n (if code =? AWS_ERROR_SUCCESS then []
                           else [ELogTransferError code]) = []) as ->
      by (by destruct (code =? AWS_ERROR_SUCCESS)).
    destruct (decide (Z.to_nat j = n)) as [<-|Hne]; simpl.
    + rewrite list_lookup_alter_eq in Hn.
      destruct (records s !! Z.to_nat j) as [rec|] eqn:Hn0; [|done].
      simpl in Hn. simplify_eq.
      assert (Z.of_nat (Z.to_nat j) = j) as Hjj by lia.
      destruct (Hrec _ rec Hn0) as [(Hf & Hw & Hor)|(b' & Hf & Hw & Hlt & Hnot)].
      * right. exists b. rewrite Hw, Hjj. repeat split; try done. lia.
      * exfalso. apply Hnot. rewrite Hjj. rewrite Hperm. by left.
    + rewrite list_lookup_alter_ne in Hn by done.
      assert (Z.of_nat n ≠ j) as Hne' by lia.
      assert (Z.of_nat n ∈ (pending s).*1
              ↔ Z.of_nat n ∈ delete k (pending s).*1) as Hiff.
      { rewrite Hperm at 1. rewrite elem_of_cons. split; [|by right].
        by intros [?|?]. }
      rewrite app_nil_r.
      destruct (Hrec _ rec' Hn) as [(Hf & Hw & Hor)|(b' & Hf & Hw & Hlt & Hnot)].
      * left. rewrite <- Hiff. done.
      * right. exists b'. rewrite <- Hiff. done.
  - apply notify_end_cases in Ha as [_ (j & Hk & ->)]. done.
  - by apply cv_step_cases in Ha as (_ & sig & w & ->).
Qed.

Lemma record_inv_reachable (t : T) recs parentAddress (s : State T) :
  isParentProcess options = false →
  Forall (λ r, transferSuccess r = Pending) recs →
  reachable options call (Some t) recs parentAddress s →
  record_inv s.
Proof.
  intros Hrole Hrecs. revert s. apply reachable_ind.
  - assert (∀ n, flag_writes n (trace (PerformMeasurement_enter options call
              (Some t) recs parentAddress)) = []) as Hw
      by (intros n; apply omap_none; by apply enter_events).
    unfold record_inv. split; [|split].
    + unfold PerformMeasurement_enter. rewrite Hrole.
      by destruct (isChildProcess options).
    + unfold PerformMeasurement_enter. rewrite Hrole.
      destruct (isChildProcess options); apply NoDup_nil_2.
    + intros n rec Hn. left. rewrite Hw.
      revert Hn. unfold PerformMeasurement_enter, issued. rewrite Hrole.
      destruct (isChildProcess options); simpl; intros Hn;
        (split; [|split; [done|left; lia]]);
        rewrite Forall_forall in Hrecs;
        by eapply Hrecs, list_elem_of_lookup_2.
  - intros s1 s2 Hs1 IH Hstep. eapply record_inv_step; [|done..].
    by eapply gate_inv_reachable.
Qed.

Lemma records_length_reachable (t : T) recs parentAddress (s : State T) :
  reachable options call (Some t) recs parentAddress s →
  length (records s) = length recs.
Proof.
  revert s. apply reachable_ind.
  - unfold PerformMeasurement_enter.
    by destruct (isParentProcess options), (isChildProcess options).
  - intros s1 s2 _ IH [[|k o|k|c] Ha]; simpl in Ha.
    + apply main_step_cases in Ha as [_ Ha].
      destruct Ha as [(_ & _ & key & _ & _ & _ & _ & _ & _ & _ & _ & _ & _ & Hr' & _)
        |[(_ & _ & ->)|[(key & recs' & r & _ & Htf & ->)|[(key & _ & _ & ->)
        |[(_ & ->)|[(_ & _ & ->)|(_ & _ & ->)]]]]]]; simpl; try done.
      * by rewrite Hr'.
      * apply invoke_spec in Htf as [_ Hflags].
        apply (f_equal length) in Hflags. rewrite !length_fmap in Hflags.
        by rewrite Hflags.
    + apply notify_begin_cases in Ha
        as [_ (j & r & recs' & sets & e & _ & Hc & ->)].
      destruct (complete_spec j r o (records s1)) as (b & code & Hc').
      rewrite Hc in Hc'. simplify_eq. simpl. by rewrite length_alter.
    + by apply notify_end_cases in Ha as [_ (j & _ & ->)].
    + by apply cv_step_cases in Ha as (_ & sig & w & ->).
Qed.

(** Where the completion callback sets the flag before it notifies, as in
    the single-part upload and download: when such a run returns, the
    completed count is [N] and each of the [N] records created for it was
    set exactly once and is not pending. *)
Lemma records_set_at_return (t : T) recs parentAddress (s : State T) :
  isParentProcess options = false →
  Forall (λ r, transferSuccess r = Pending) recs →
  length recs = Z.to_nat N →
  reachable options call (Some t) recs parentAddress s →
  pc s = Returned →
  numCompleted s = N ∧
  length (records s) = Z.to_nat N ∧
  ∀ n rec, records s !! n = Some rec →
    ∃ b, flag_writes n (trace s) = [b] ∧ transferSuccess rec = flag_of b.
Proof.
  intros Hrole Hrecs Hlen Hs Hret.
  pose proof (gate_inv_reachable options call N_range _ _ _ _ Hrole Hs)
    as (Hi & HiN & Hc & Hp & Hsum & Hpc).
  destruct (record_inv_reachable _ _ _ _ Hrole Hrecs Hs) as (_ & _ & Hrec).
  pose proof (records_length_reachable _ _ _ _ Hs) as Hlen'.
  unfold issued in *. rewrite Hret in *. simpl in *.
  destruct Hpc as [HiN' HcN]. split; [done|]. split; [lia|].
  assert (pending s = []) as Hpe by (apply length_zero_iff_nil; lia).
  intros n rec Hn.
  pose proof (lookup_lt_Some _ _ _ Hn) as Hlt.
  destruct (Hrec n rec Hn) as [(_ & _ & [Hge|Hin])|(b & Hf & Hw & _)].
  - lia.
  - rewrite Hpe in Hin. by apply elem_of_nil in Hin.
  - by exists b.
Qed.

End FlagDiscipline.

(** The two single-part closures keep that discipline. *)
Lemma single_part_upload_discipline {T : Type} options :
  (∀ j key size tr recs recs' r,
     tf_invoke (transferFunction (UploadMeasurement (T := T) options))
       j key size tr recs = Some (recs', r) →
     r = Z.to_nat j ∧ transferSuccess <$> recs' = transferSuccess <$> recs) ∧
  (∀ j r o recs,
     ∃ b code,
       tf_complete (transferFunction (UploadMeasurement (T := T) options))
         j r o recs
       = (alter (SetTransferSuccess b) r recs, [(r, b)], code)).
Proof.
  split.
  - intros j key size tr recs recs' r. simpl.
    destruct (recs !! Z.to_nat j) as [st|] eqn:Hst; [|done].
    destruct tr; [|done]. intros [= <- <-]. split; [done|].
    rewrite list_fmap_insert. simpl. apply list_insert_id.
    by rewrite list_lookup_fmap, Hst.
  - intros j r o recs. simpl. eauto.
Qed.

Lemma single_part_download_discipline {T : Type} `{!MeasurementFlags} options :
  (∀ j key size tr recs recs' r,
     tf_invoke (transferFunction (DownloadMeasurement (T := T) options))
       j key size tr recs = Some (recs', r) →
     r = Z.to_nat j ∧ transferSuccess <$> recs' = transferSuccess <$> recs) ∧
  (∀ j r o recs,
     ∃ b code,
       tf_complete (transferFunction (DownloadMeasurement (T := T) options))
         j r o recs
       = (alter (SetTransferSuccess b) r recs, [(r, b)], code)).
Proof.
  split.
  - intros j key size tr recs recs' r. simpl.
    destruct (recs !! Z.to_nat j) as [st|] eqn:Hst; [|done].
    destruct tr; [|done]. intros [= <- <-]. split; [done|].
    rewrite list_fmap_insert. simpl. apply list_insert_id.
    by rewrite list_lookup_fmap, Hst.
  - intros j r o recs. simpl. eauto.
Qed.

Section SinglePartRecords.
Context {T : Type} `{!S3ObjectTransport T} `{!MeasurementFlags}.
Variable options : CanaryAppOptions.

Lemma MakeRecords_pending n :
  Forall (λ r, transferSuccess r = Pending) (MakeRecords n) ∧
  length (MakeRecords n) = Z.to_nat n.
Proof.
  unfold MakeRecords. split; [|apply length_replicate].
  by apply Forall_replicate.
Qed.

(** Lines 337-344: at the return of the upload run every record of lines
    311-317 was set once, by its completion. *)
Lemma upload_records_set (t : T) parentAddress (s : State T) :
  isParentProcess options = false →
  0 ≤ numUpTransfers options ≤ UINT32_MAX →
  reachable options (UploadMeasurement options) (Some t)
    (MakeRecords (numUpTransfers options)) parentAddress s →
  pc s = Returned →
  numCompleted s = numUpTransfers options ∧
  length (records s) = Z.to_nat (numUpTransfers options) ∧
  ∀ n rec, records s !! n = Some rec →
    ∃ b, flag_writes n (trace s) = [b] ∧ transferSuccess rec = flag_of b.
Proof.
  intros Hrole HN Hs Hret.
  destruct (single_part_upload_discipline (T := T) options) as [Hinv Hcomp].
  destruct (MakeRecords_pending (numUpTransfers options)) as [Hpend Hlen].
  by eapply (records_set_at_return options (UploadMeasurement options)
               HN Hinv Hcomp).
Qed.

(** Lines 390-393: the same for the download run and the records of lines
    358-364. *)
Lemma download_records_set (t : T) parentAddress (s : State T) :
  isParentProcess options = false →
  0 ≤ numDownTransfers options ≤ UINT32_MAX →
  reachable options (DownloadMeasurement options) (Some t)
    (MakeRecords (numDownTransfers options)) parentAddress s →
  pc s = Returned →
  numCompleted s = numDownTransfers options ∧
  length (records s) = Z.to_nat (numDownTransfers options) ∧
  ∀ n rec, records s !! n = Some rec →
    ∃ b, flag_writes n (trace s) = [b] ∧ transferSuccess rec = flag_of b.
Proof.
  intros Hrole HN Hs Hret.
  destruct (single_part_download_discipline (T := T) options) as [Hinv Hcomp].
  destruct (MakeRecords_pending (numDownTransfers options)) as [Hpend Hlen].
  by eapply (records_set_at_return options (DownloadMeasurement options)
               HN Hinv Hcomp).
Qed.

(** Lines 203 and 75-92: with the null transport that [MeasureHttpTransfer]
    passes, a worker or standalone process calls through the null handle
    before the loop, and the run is over. *)
Lemma http_null_transport_stops AWS_ERROR_UNKNOWN parentAddress (s : State T) :
  isParentProcess options = false →
  reachable options (HttpMeasurement AWS_ERROR_UNKNOWN options)
    HttpMeasurement_transport [] parentAddress s →
  crashed s = true ∧ transfers (trace s) = [] ∧ records s = [].
Proof.
  intros Hrole. revert s. apply reachable_ind.
  - unfold PerformMeasurement_enter, HttpMeasurement_transport.
    rewrite Hrole. by destruct (isChildProcess options).
  - intros s1 s2 _ (Hc & _) [[|k o|k|c] Ha]; exfalso; simpl in Ha.
    + apply main_step_cases in Ha as [Hlive _]. congruence.
    + apply notify_begin_cases in Ha as [Hlive _]. congruence.
    + apply notify_end_cases in Ha as [Hlive _]. congruence.
    + apply cv_step_cases in Ha as [Hlive _]. congruence.
Qed.

End SinglePartRecords.

(** ** Example runs *)

Lemma example_state_reachable {O : Type} options
    (call : Measurement (list string) O) tr recs acts :
  is_Some (@run _ _ example_flags options call acts
             (@PerformMeasurement_enter _ _ _ example_flags options call tr
                recs "10.0.0.5:443")) →
  @reachable _ _ _ example_flags options call tr recs "10.0.0.5:443"
    (example_state options call tr recs acts).
Proof.
  intros [s Hs]. apply (run_reachable _ _ acts). unfold example_state.
  by rewrite Hs.
Qed.

Lemma small_count (n : Z) :
  (0 <=? n) && (n <=? 1000) = true → 0 ≤ n ≤ UINT32_MAX.
Proof. unfold UINT32_MAX. intros H. apply andb_true_iff in H. lia. Qed.

Lemma several (n : Z) :
  (2 <=? n) && (n <=? 1000) = true → 2 ≤ n ≤ UINT32_MAX.
Proof. unfold UINT32_MAX. intros H. apply andb_true_iff in H. lia. Qed.

Lemma small_index (n : Z) :
  (0 <=? n) && (n <? INT64_MAX) = true → 0 ≤ n < INT64_MAX.
Proof. intros H. apply andb_true_iff in H. lia. Qed.

(** Two uploads under a cap of one, in a standalone process; the first
    completes at once; observed while the thread waits for a slot with the
    second in flight. *)
Lemma in_flight_never_exceeds_cap_witness :
  let options := example_options false false 0 2 1 in
  let call := UploadMeasurement options in
  let s := example_state options call (Some []) (MakeRecords 2)
             (synchronous 0 ++ [Main; Main; Main]) in
  pc s = AtWaitSlot ∧ numInProgress s = 1 ∧
  @main_step _ _ example_flags options call s = None ∧
  observed_in_flight (trace s) = [1; 1].
Proof.
  intros options call s.
  assert (is_Some (@run _ _ example_flags options call
            (synchronous 0 ++ [Main; Main; Main])
            (@PerformMeasurement_enter _ _ _ example_flags options call
               (Some []) (MakeRecords 2) "10.0.0.5:443"))) as Hrun
    by (vm_compute; eauto).
  pose proof (@in_flight_never_exceeds_cap _ _ _ example_flags options call
                (small_count 2 eq_refl) (Some []) (MakeRecords 2)
                "10.0.0.5:443" s eq_refl ltac:(simpl; lia)
                (example_state_reachable _ _ _ _ _ Hrun))
    as (_ & _ & _ & Hblocked & _).
  split; [reflexivity|]. split; [reflexivity|]. split; [|reflexivity].
  apply Hblocked; [reflexivity|vm_compute; discriminate].
Defined.

(** Four uploads by the process with index [INT64_MAX - 2]: the counter
    starts at 2 and wraps after the second transfer. *)
Lemma key_suffix_sequence_witness :
  let options := example_options false false (INT64_MAX - 2) 4 1 in
  let call := UploadMeasurement options in
  let acts := synchronous 0 ++ synchronous 0 ++ synchronous 7
                ++ asynchronous 0 ++ [Main; Main] in
  let s := example_state options call (Some []) (MakeRecords 4) acts in
  pc s = Returned ∧
  suffixes (trace s) = [2; 1; INT64_MAX; INT64_MAX - 1] ∧
  Forall (λ a, 0 < a) (suffixes (trace s)).
Proof.
  intros options call acts s.
  assert (is_Some (@run _ _ example_flags options call acts
            (@PerformMeasurement_enter _ _ _ example_flags options call
               (Some []) (MakeRecords 4) "10.0.0.5:443"))) as Hrun
    by (vm_compute; eauto).
  pose proof (@key_suffix_sequence _ _ _ example_flags options call
                (small_count 4 eq_refl) (Some []) (MakeRecords 4)
                "10.0.0.5:443" s eq_refl eq_refl
                (small_index (INT64_MAX - 2) eq_refl)
                (example_state_reachable _ _ _ _ _ Hrun))
    as (_ & _ & _ & Hpos).
  split; [reflexivity|]. split; [reflexivity|]. exact Hpos.
Defined.

(** A coordinator of two workers. *)
Lemma coordinator_protocol_witness :
  let options := example_options true false 0 2 1 in
  let call := UploadMeasurement options in
  let s := example_state options call (Some []) (MakeRecords 2) [] in
  trace s
  = [EWarmDNSCache 1;
     EWriteToChildProcess 0 "singlePartObjectUp-address" "10.0.0.5:443";
     EWriteToChildProcess 1 "singlePartObjectUp-address" "10.0.0.6:443";
     EReadFromChildProcess 0 "singlePartObjectUp-finished";
     EReadFromChildProcess 1 "singlePartObjectUp-finished"] ∧
  pc s = Returned ∧ transfers (trace s) = [].
Proof.
  intros options call s.
  assert (is_Some (@run _ _ example_flags options call []
            (@PerformMeasurement_enter _ _ _ example_flags options call
               (Some []) (MakeRecords 2) "10.0.0.5:443"))) as Hrun
    by (vm_compute; eauto).
  pose proof (@coordinator_protocol _ _ _ example_flags options call
                [] (MakeRecords 2) "10.0.0.5:443" s eq_refl
                (example_state_reachable _ _ _ _ _ Hrun))
    as (Htrace & _ & _ & Hpc & _ & Hnone & _).
  split; [exact Htrace|]. split; [exact Hpc|exact Hnone].
Defined.

(** A worker with the DontWarmDNSCache flag clear, at its return. *)
Lemma worker_never_warms_witness :
  let options := example_options false true 3 1 1 in
  let call := UploadMeasurement options in
  let s := example_state options call (Some []) (MakeRecords 1)
             (synchronous 0 ++ [Main; Main]) in
  pc s = Returned ∧ warmings (trace s) = [].
Proof.
  intros options call s.
  assert (is_Some (@run _ _ example_flags options call
            (synchronous 0 ++ [Main; Main])
            (@PerformMeasurement_enter _ _ _ example_flags options call
               (Some []) (MakeRecords 1) "10.0.0.5:443"))) as Hrun
    by (vm_compute; eauto).
  pose proof (@worker_never_warms _ _ _ example_flags options call
                (small_count 1 eq_refl) [] (Some []) (MakeRecords 1)
                "10.0.0.5:443") as [Hworker _].
  split; [reflexivity|].
  exact (Hworker eq_refl eq_refl s (example_state_reachable _ _ _ _ _ Hrun)).
Defined.

(** The worker of the spec's scenario: it is handed "10.0.0.5:443". *)
Lemma worker_protocol_witness :
  let options := example_options false true 3 1 1 in
  let call := UploadMeasurement options in
  let s := example_state options call (Some []) (MakeRecords 1)
             (asynchronous 7 ++ [Main; Main]) in
  pc s = Returned ∧
  transport s = Some ["10.0.0.5:443"] ∧
  protocol_events (trace s)
  = [EReadFromParentProcess "singlePartObjectUp-address" "10.0.0.5:443";
     ESeedAddressCache "10.0.0.5:443";
     ESpawnConnectionManagers;
     EWriteToParentProcess "singlePartObjectUp-finished" "done"].
Proof.
  intros options call s.
  assert (is_Some (@run _ _ example_flags options call
            (asynchronous 7 ++ [Main; Main])
            (@PerformMeasurement_enter _ _ _ example_flags options call
               (Some []) (MakeRecords 1) "10.0.0.5:443"))) as Hrun
    by (vm_compute; eauto).
  pose proof (@worker_protocol _ _ _ example_flags options call
                (small_count 1 eq_refl) [] (MakeRecords 1)
                "10.0.0.5:443" s eq_refl eq_refl
                (example_state_reachable _ _ _ _ _ Hrun))
    as (Htransport & _ & Hprotocol & _).
  split; [reflexivity|]. split; [exact Htransport|exact Hprotocol].
Defined.

(** A worker that is asked for no transfer at all. *)
Lemma no_transfers_run_witness :
  let options := example_options false true 3 0 1 in
  let call := UploadMeasurement options in
  ∃ s, @run _ _ example_flags options call [Main; Main]
         (@PerformMeasurement_enter _ _ _ example_flags options call
            (Some []) [] "10.0.0.5:443") = Some s ∧
       pc s = Returned ∧
       trace s
       = [EReadFromParentProcess "singlePartObjectUp-address" "10.0.0.5:443";
          ESeedAddressCache "10.0.0.5:443";
          ESpawnConnectionManagers;
          EWriteToParentProcess "singlePartObjectUp-finished" "done"].
Proof.
  intros options call.
  pose proof (@no_transfers_run _ _ _ example_flags options call
                (small_count 0 eq_refl) [] [] "10.0.0.5:443"
                eq_refl eq_refl) as [_ Hrun].
  exact Hrun.
Defined.

(** Two uploads under a cap of one; the first has failed with error 7, the
    second is in flight and then fails with error 9. *)
Lemma failures_never_abort_the_loop_witness :
  let options := example_options false false 0 2 1 in
  let call := UploadMeasurement options in
  let s := example_state options call (Some []) (MakeRecords 2)
             (synchronous 7 ++ [Main; Main; Main]) in
  (transfers (trace s)).*1 = [0; 1] ∧
  notifications (trace s) = [(0, 7)] ∧
  crashed s = false ∧
  ∃ s', notify_begin call 0 9 s = Some s' ∧
        pc s' = pc s ∧ i s' = i s ∧ crashed s' = false ∧
        last (trace s') = Some (ELogTransferError 9).
Proof.
  intros options call s.
  assert (is_Some (@run _ _ example_flags options call
            (synchronous 7 ++ [Main; Main; Main])
            (@PerformMeasurement_enter _ _ _ example_flags options call
               (Some []) (MakeRecords 2) "10.0.0.5:443"))) as Hrun
    by (vm_compute; eauto).
  pose proof (@failures_never_abort_the_loop _ _ _ example_flags options call
                (small_count 2 eq_refl) (λ recs, length recs = 2%nat)
                (λ j key t recs, upload_invoke_safe 2 j key _ t recs)
                (λ j r o recs, upload_complete_safe 2 j r o recs)
                [] (MakeRecords 2) "10.0.0.5:443" s
                eq_refl eq_refl
                (example_state_reachable _ _ _ _ _ Hrun))
    as (Hlive & _ & _ & _ & _ & Hnotify).
  split; [reflexivity|]. split; [reflexivity|]. split; [exact Hlive|].
  destruct (Hnotify 0%nat 1 1%nat 9 eq_refl)
    as (s' & Hs' & Hpc & Hi & Hlive' & _ & _ & Hlog & _).
  exists s'. split; [exact Hs'|]. split; [exact Hpc|]. split; [exact Hi|].
  split; [exact Hlive'|]. apply Hlog. vm_compute. discriminate.
Defined.

(** A standalone process constructed at time 1000 ns, and a firing at time
    7000 ns of the task that was due at 6000 ns. *)
Lemma pulse_schedule_witness :
  let created :=
    MeasureTransferRate_new (example_options false false 0 2 1)
      ["10.0.0.5:443"] ["10.0.0.6:443"] (λ _, 2) 1000 [] in
  let m := example_measure 7000 (Some 6000) in
  pulseTask created = Some 5000001000 ∧
  loop_step m (s_PulseMetricsTask AWS_TASK_STATUS_RUN_READY (unschedule m)) ∧
  pulseTask (s_PulseMetricsTask AWS_TASK_STATUS_RUN_READY (unschedule m))
  = Some 5000007000.
Proof.
  intros created m.
  pose proof (pulse_schedule (example_options false false 0 2 1)
                ["10.0.0.5:443"] ["10.0.0.6:443"] (λ _, 2) 1000 [] m
                ltac:(lia) ltac:(unfold UINT64_MAX; simpl; lia)
                ltac:(simpl; lia) ltac:(unfold UINT64_MAX; simpl; lia))
    as (Hcreated & _ & _ & _ & Hfired & _ & _ & Hstep).
  split; [exact Hcreated|]. split; [|exact Hfired].
  apply (Hstep 6000); [reflexivity|simpl; lia].
Defined.

(** ** The scenarios of the specification *)

(** Four uploads under a cap of two.  Transfers 0 and 1 are issued at once;
    with both in flight the issuing thread is blocked; transfer 2 is issued
    after transfer 0 completes and transfer 3 after transfer 1 completes;
    at the return all four are completed and flagged as successes. *)
Example four_transfers_cap_two :
  let options := example_options false false 0 4 2 in
  let call := UploadMeasurement options in
  let first_two := [Main; Main; Main; Main; Main; Main; Main] in
  let rest := [NotifyBegin 0 0; NotifyEnd 0; Main; Main; Main; Main;
               NotifyBegin 0 0; NotifyEnd 0; Main; Main; Main; Main;
               NotifyBegin 1 0; NotifyBegin 0 0; NotifyEnd 1; NotifyEnd 0;
               Main; Main; Main] in
  let blocked := example_state options call (Some []) (MakeRecords 4) first_two in
  let final := example_state options call (Some []) (MakeRecords 4)
                 (first_two ++ rest) in
  (transfers (trace blocked)).*1 = [0; 1] ∧ numInProgress blocked = 2 ∧
  @main_step _ _ example_flags options call blocked = None ∧
  pc final = Returned ∧ numCompleted final = 4 ∧
  (transfers (trace final)).*1 = [0; 1; 2; 3] ∧
  transferSuccess <$> records final
  = [Succeeded; Succeeded; Succeeded; Succeeded].
Proof. vm_compute. repeat split. Qed.

(** The same run with transfer 2 reporting error 7: the run still completes
    all four transfers, and only the third record is flagged as a failure. *)
Example third_transfer_fails :
  let options := example_options false false 0 4 2 in
  let call := UploadMeasurement options in
  let acts := synchronous 0 ++ synchronous 0 ++ asynchronous 7
                ++ synchronous 0 ++ [Main; Main] in
  let final := example_state options call (Some []) (MakeRecords 4) acts in
  pc final = Returned ∧ crashed final = false ∧ numCompleted final = 4 ∧
  notifications (trace final) = [(0, 0); (1, 0); (2, 7); (3, 0)] ∧
  transferSuccess <$> records final
  = [Succeeded; Succeeded; Failed; Succeeded].
Proof. vm_compute. repeat split. Qed.

(** * Further properties of the orchestrator *)

Section Accounting.
Context {T : Type} `{!S3ObjectTransport T} {O : Type} `{!MeasurementFlags}.
Variable options : CanaryAppOptions.
Variable call : Measurement T O.

Local Abbreviation N := (numTransfers call).
Local Abbreviation C := (numConcurrentTransfers call).

Hypothesis N_range : 0 ≤ N ≤ UINT32_MAX.

(** X1: in every state of a non-coordinator run the counters account for
    every transfer that was begun: the completed ones, those whose
    notification stands between its two counter updates and those in
    flight add up to the number begun, which never exceeds
    [numTransfers]; no counter is ever negative, so none has wrapped.  When
    [PerformMeasurement] has returned no notification is pending or between
    its two counter updates, the in-flight count is zero and the completed
    count is [numTransfers]; the only steps that can still follow are
    [notify_one] calls of callbacks that have already counted themselves,
    which then run after the return. *)
Theorem counters_account_for_transfers tr recs parentAddress (s : State T) :
  isParentProcess options = false →
  reachable options call tr recs parentAddress s →
  0 ≤ numInProgress s ∧ 0 ≤ numCompleted s ∧
  numCompleted s + Z.of_nat (length (finishing s)) + numInProgress s
  = issued s + counted (pc s) ∧
  issued s + counted (pc s) ≤ N ∧
  (pc s = Returned →
   pending s = [] ∧ finishing s = [] ∧ numInProgress s = 0 ∧
   numCompleted s = N ∧
   ∀ a, is_Some (act options call a s) →
        ∃ k, a = Cv (NotifyOne k) ∧ is_Some (signalling s !! k)).
Proof.
  intros Hrole Hs.
  pose proof (gate_inv_reachable options call N_range _ _ _ _ Hrole Hs)
    as (Hi & HiN & Hc & Hp & Hsum & Hpc).
  pose proof (waiting_reachable options call N_range _ _ _ _ Hrole Hs)
    as Hwait.
  unfold issued in *.
  assert (0 ≤ counted (pc s)) by (destruct (pc s); simpl; lia).
  split; [lia|]. split; [done|]. split; [lia|].
  split; [destruct (pc s); simpl in *; lia|].
  intros Hret. rewrite Hret in *. simpl in *. destruct Hpc as [HiN' HcN].
  assert (pending s = [] ∧ finishing s = []) as [Hpe Hfi]
    by (split; apply length_zero_iff_nil; lia).
  rewrite Hpe in Hp. simpl in Hp.
  repeat split; try done.
  assert (waiter s = Running) as Hw.
  { destruct (waiter s) eqn:Hw; [done|..];
      destruct Hwait as [[?|?] _]; congruence. }
  intros [|k o|k|c]; simpl.
  - unfold main_step. rewrite Hret, Hw. destruct (crashed s); by intros [].
  - unfold notify_begin. rewrite Hpe. destruct (crashed s); by intros [].
  - unfold notify_end. rewrite Hfi. destruct (crashed s); by intros [].
  - unfold cv_step. rewrite Hret, Hw.
    destruct (crashed s); [by intros []|].
    destruct c as [k| | |]; try by intros [].
    destruct (signalling s !! k) as [j|] eqn:Hk; [|by intros []].
    intros _. exists k. split; [done|]. by exists j.
Qed.

(** X2: with a concurrency cap of zero and at least one transfer to make,
    [PerformMeasurement] never returns: the first transfer is issued, and
    from then on the slot wait can never pass, since the unsigned in-flight
    count is never below zero.  No second transfer is issued and the wait
    for all completions is never reached. *)
Theorem zero_cap_never_returns tr recs parentAddress (s : State T) :
  isParentProcess options = false →
  C = 0 →
  1 ≤ N →
  reachable options call tr recs parentAddress s →
  pc s ≠ Returned ∧ pc s ≠ AtWaitAll ∧ i s = 0 ∧ issued s ≤ 1 ∧
  (pc s = AtWaitSlot → main_step options call s = None).
Proof.
  intros Hrole HC HN Hs.
  assert (i s = 0 ∧ pc s ≠ Returned ∧ pc s ≠ AtWaitAll) as (Hi0 & Hr & Hw).
  { revert s Hs. apply reachable_ind.
    - unfold PerformMeasurement_enter. rewrite Hrole.
      by destruct (isChildProcess options), tr.
    - intros s1 s2 Hs1 (Hi0 & Hr & Hw) [[|k o|k|c] Ha]; simpl in Ha.
      + pose proof (gate_inv_reachable options call N_range _ _ _ _ Hrole Hs1)
          as (_ & _ & _ & Hp & _).
        assert (0 ≤ counted (pc s1)) by (destruct (pc s1); simpl; lia).
        apply main_step_cases in Ha as [_ Ha].
        destruct Ha as [(Hp0 & _ & key & Hp' & _ & Hi' & _)
          |[(_ & Hge & _)|[(key & recs' & r & _ & _ & ->)|[(key & _ & _ & ->)
          |[(_ & ->)|[(_ & Hlt & _)|(Hp0 & _)]]]]]]; simpl;
          try done; try lia.
        by rewrite Hp', Hi'.
      + by apply notify_begin_cases in Ha
          as [_ (j & r & recs' & sets & e & _ & _ & ->)].
      + by apply notify_end_cases in Ha as [_ (j & _ & ->)].
      + by apply cv_step_cases in Ha as (_ & sig & w & ->). }
  pose proof (gate_inv_reachable options call N_range _ _ _ _ Hrole Hs)
    as (_ & _ & _ & Hp & _).
  assert (0 ≤ counted (pc s)) by (destruct (pc s); simpl; lia).
  repeat split; try done.
  - unfold issued. rewrite Hi0. destruct (pc s); simpl; lia.
  - intros Hpc0. unfold main_step. rewrite Hpc0.
    destruct (crashed s); [done|]. destruct (waiter s); [|done..].
    destruct (Z.ltb_spec (numInProgress s) C); [lia|done].
Qed.

(** The issuing thread enters [wait(guard)] at the slot wait only with the
    cap reached. *)
Lemma slot_wait_entered tr recs parentAddress (s : State T) :
  isParentProcess options = false →
  reachable options call tr recs parentAddress s →
  waiter s ≠ Running → pc s = AtWaitSlot → C ≤ issued s.
Proof.
  intros Hrole. revert s.
  apply (reachable_ind options call tr recs parentAddress
           (λ s, waiter s ≠ Running → pc s = AtWaitSlot → C ≤ issued s)).
  - by destruct (enter_running options call tr recs parentAddress) as [-> _].
  - intros s1 s2 Hs1 IH [[|k o|k|c] Ha] Hw Hpc0; simpl in Ha.
    + apply main_step_running in Ha as (_ & Hw' & _). done.
    + apply notify_begin_cases in Ha
        as [_ (j & r & recs' & sets & e & _ & _ & ->)]. by apply IH.
    + apply notify_end_cases in Ha as [_ (j & _ & ->)]. by apply IH.
    + pose proof (gate_inv_reachable options call N_range _ _ _ _ Hrole Hs1)
        as (Hi & HiN & Hc & Hp & Hsum & Hpc).
      apply cv_step_inv in Ha as [_ Ha].
      destruct Ha as [(k & j & _ & _ & ->)|[(_ & _ & Hat & ->)
        |[(_ & Hw1 & ->)|(_ & _ & ->)]]]; simpl in *.
      * apply IH; [|done]. by destruct (waiter s1).
      * destruct Hat as [[Hp0 Hfull]|[Hp0 _]]; [|congruence].
        unfold issued in *. simpl in *. rewrite Hp0 in *. simpl in *. lia.
      * apply IH; [|done]. by rewrite Hw1.
      * done.
Qed.

(** X3: when the cap exceeds the number of transfers the slot wait never
    blocks: at every slot wait of a run that has not crashed the issuing
    thread can go on at once, whatever has or has not completed. *)
Theorem ample_cap_never_blocks tr recs parentAddress (s : State T) :
  isParentProcess options = false →
  N < C →
  reachable options call tr recs parentAddress s →
  crashed s = false →
  pc s = AtWaitSlot →
  numInProgress s < C ∧
  ∃ s', main_step options call s = Some s' ∧ pc s' = AtLoopHead ∧
        i s' = i s + 1.
Proof.
  intros Hrole HC Hs Hlive Hpc0.
  pose proof (gate_inv_reachable options call N_range _ _ _ _ Hrole Hs)
    as (Hi & HiN & Hc & Hp & Hsum & Hpc).
  assert (waiter s = Running) as Hw.
  { destruct (waiter s) eqn:Hw; [done|..];
      pose proof (slot_wait_entered _ _ _ _ Hrole Hs) as Hfull;
      rewrite Hw in Hfull; specialize (Hfull ltac:(done) Hpc0); lia. }
  unfold issued in *. rewrite Hpc0 in *. simpl in *.
  split; [lia|]. unfold main_step. rewrite Hlive, Hw, Hpc0.
  destruct (Z.ltb_spec (numInProgress s) C); [|lia].
  eexists. split; [done|]. simpl. split; [done|].
  apply wrap32_small. lia.
Qed.

(** X4: every key handed to the transfer function starts with the file
    name prefix of the call and carries a numeric suffix exactly when the
    NoFileSuffix flag is clear; with the flag set the key is the prefix
    alone. *)
Theorem keys_carry_prefix tr recs parentAddress (s : State T) :
  isParentProcess options = false →
  reachable options call tr recs parentAddress s →
  Forall (λ t, key_prefix t.2 = filenamePrefix call ∧
               (is_Some (key_suffix t.2)
                ↔ Z.land (flags call) NoFileSuffix = 0))
    (transfers (trace s)) ∧
  (Z.land (flags call) NoFileSuffix ≠ 0 → suffixes (trace s) = []).
Proof.
  intros Hrole Hs.
  destruct (key_inv_reachable options call N_range _ _ _ _ Hrole Hs)
    as (_ & Htrs & _).
  unfold suffixes. rewrite Htrs. clear Htrs. split.
  - apply Forall_fmap, Forall_forall. intros j _. simpl. split; [done|].
    unfold withSuffix.
    destruct (Z.eqb_spec (Z.land (flags call) NoFileSuffix) 0) as [Heq|Hne].
    + split; [done|]. intros _. by eexists.
    + split; [intros [? ?]; done|done].
  - intros Hne. unfold make_key, withSuffix.
    destruct (Z.eqb_spec (Z.land (flags call) NoFileSuffix) 0); [done|].
    induction (seqZ 0 (issued s)) as [|j l IH]; [done|]. simpl. done.
Qed.

End Accounting.

(** ** Key suffixes in closed form *)

Lemma mod_pred (x M : Z) :
  0 < M →
  (x - 1) `mod` M = if x `mod` M =? 0 then M - 1 else x `mod` M - 1.
Proof.
  intros HM. pose proof (Z.mod_pos_bound x M HM) as Hr.
  pose proof (Z.div_mod x M ltac:(lia)) as Hx.
  destruct (Z.eqb_spec (x `mod` M) 0) as [Hz|Hnz]; symmetry.
  - apply (Z.mod_unique _ _ (x `div` M - 1)); lia.
  - apply (Z.mod_unique _ _ (x `div` M)); lia.
Qed.

Lemma mod_inj_on_window (A M x y : Z) :
  0 < M → 0 ≤ x < M → 0 ≤ y < M →
  (A - x) `mod` M = (A - y) `mod` M → x = y.
Proof.
  intros HM Hx Hy Heq.
  pose proof (Z.div_mod (A - x) M ltac:(lia)) as H1.
  pose proof (Z.div_mod (A - y) M ltac:(lia)) as H2.
  rewrite Heq in H1.
  assert (M * ((A - y) `div` M - (A - x) `div` M) = x - y) as Hd by lia.
  assert ((A - y) `div` M - (A - x) `div` M = 0) as Hq by nia.
  rewrite Hq in Hd. lia.
Qed.

Section SuffixFormula.
Context {T : Type} `{!S3ObjectTransport T} {O : Type} `{!MeasurementFlags}.
Variable options : CanaryAppOptions.
Variable call : Measurement T O.

Hypothesis N_range : 0 ≤ numTransfers call ≤ UINT32_MAX.
Hypothesis suffix_on : Z.land (flags call) NoFileSuffix = 0.
Hypothesis index_range : 0 ≤ childProcessIndex options < INT64_MAX.

Lemma key_counter_formula (n : nat) :
  key_counter (counter_at options call n)
  = suffix_formula (childProcessIndex options) (Z.of_nat n).
Proof.
  assert (withSuffix call = true) as Hws
    by (unfold withSuffix; by rewrite suffix_on).
  assert (0 < INT64_MAX) as HM by done.
  unfold suffix_formula. induction n as [|n IH].
  - unfold counter_at. simpl.
    rewrite wrap64_small by (unfold INT64_MAX, UINT64_MAX in *; lia).
    unfold key_counter.
    destruct (Z.eqb_spec (INT64_MAX - childProcessIndex options) 0); [lia|].
    rewrite Z.mod_small by lia. lia.
  - rewrite counter_at_succ. unfold next_counter. rewrite Hws, IH.
    set (x := INT64_MAX - 1 - (childProcessIndex options + Z.of_nat n)).
    replace (INT64_MAX - 1 - (childProcessIndex options + Z.of_nat (S n)))
      with (x - 1) by lia.
    pose proof (Z.mod_pos_bound x INT64_MAX HM) as Hr.
    replace (x `mod` INT64_MAX + 1 - 1) with (x `mod` INT64_MAX) by lia.
    rewrite wrap64_small by (unfold INT64_MAX, UINT64_MAX in *; lia).
    rewrite mod_pred by done. unfold key_counter.
    destruct (Z.eqb_spec (x `mod` INT64_MAX) 0); lia.
Qed.

(** X5: with the NoFileSuffix flag clear, the suffix of transfer [j] of the
    process with index [p] is
    [(INT64_MAX - 1 - (p + j)) mod INT64_MAX + 1]: it lies between 1 and
    [INT64_MAX] and depends on the process and on the transfer only through
    the sum [p + j]. *)
Theorem key_suffix_closed_form tr recs parentAddress (s : State T) :
  isParentProcess options = false →
  reachable options call tr recs parentAddress s →
  suffixes (trace s)
  = suffix_formula (childProcessIndex options) <$> seqZ 0 (issued s) ∧
  Forall (λ a, 1 ≤ a ≤ INT64_MAX) (suffixes (trace s)).
Proof.
  intros Hrole Hs.
  assert (withSuffix call = true) as Hws
    by (unfold withSuffix; by rewrite suffix_on).
  rewrite (suffixes_reachable options call N_range _ _ _ _ Hrole Hws Hs).
  assert ((λ j, key_counter (counter_at options call (Z.to_nat j)))
            <$> seqZ 0 (issued s)
          = suffix_formula (childProcessIndex options) <$> seqZ 0 (issued s))
    as ->.
  { apply list_fmap_ext. intros k j Hj. apply lookup_seqZ in Hj as [-> _].
    rewrite key_counter_formula. f_equal. lia. }
  split; [done|]. apply Forall_fmap, Forall_forall. intros j _. simpl.
  unfold suffix_formula.
  pose proof (Z.mod_pos_bound (INT64_MAX - 1 - (childProcessIndex options + j))
                INT64_MAX ltac:(done)). lia.
Qed.

(** X6: with the flag clear no two transfers of one run get the same
    suffix, so no two keys of a run coincide. *)
Theorem key_suffixes_distinct tr recs parentAddress (s : State T) :
  isParentProcess options = false →
  reachable options call tr recs parentAddress s →
  NoDup (suffixes (trace s)) ∧ NoDup (transfers (trace s)).*2.
Proof.
  intros Hrole Hs.
  assert (withSuffix call = true) as Hws
    by (unfold withSuffix; by rewrite suffix_on).
  pose proof (gate_inv_reachable options call N_range _ _ _ _ Hrole Hs)
    as (Hi & HiN & _).
  assert (NoDup (suffixes (trace s))) as Hdup.
  { rewrite (suffixes_reachable options call N_range _ _ _ _ Hrole Hws Hs).
    apply NoDup_fmap_2_strong; [|apply NoDup_seqZ].
    intros x y Hx Hy Heq.
    apply elem_of_seqZ in Hx. apply elem_of_seqZ in Hy.
    rewrite !key_counter_formula in Heq. unfold suffix_formula in Heq.
    assert (Z.of_nat (Z.to_nat x) = Z.of_nat (Z.to_nat y)); [|lia].
    apply (mod_inj_on_window (INT64_MAX - 1 - childProcessIndex options)
             INT64_MAX); [done| | |].
    - unfold INT64_MAX, UINT32_MAX in *. lia.
    - unfold INT64_MAX, UINT32_MAX in *. lia.
    - replace (INT64_MAX - 1 - childProcessIndex options
               - Z.of_nat (Z.to_nat x))
        with (INT64_MAX - 1
              - (childProcessIndex options + Z.of_nat (Z.to_nat x))) by lia.
      replace (INT64_MAX - 1 - childProcessIndex options
               - Z.of_nat (Z.to_nat y))
        with (INT64_MAX - 1
              - (childProcessIndex options + Z.of_nat (Z.to_nat y))) by lia.
      lia. }
  split; [done|].
  apply (NoDup_fmap_1 (λ key, default 0 (key_suffix key))).
  rewrite (suffixes_reachable options call N_range _ _ _ _ Hrole Hws Hs)
    in Hdup.
  destruct (key_inv_reachable options call N_range _ _ _ _ Hrole Hs)
    as (_ & -> & _).
  rewrite <- !list_fmap_compose.
  erewrite list_fmap_ext; [exact Hdup|].
  intros k j _. simpl. unfold make_key. simpl. by rewrite Hws.
Qed.

End SuffixFormula.

(** ** The standalone process *)

Section Standalone.
Context {T : Type} `{!S3ObjectTransport T} {O : Type} `{!MeasurementFlags}.
Variable options : CanaryAppOptions.
Variable call : Measurement T O.

Hypothesis N_range : 0 ≤ numTransfers call ≤ UINT32_MAX.


End Standalone.

(** ** Error codes and success flags *)

Section CodesAndFlags.
Context {T : Type} `{!S3ObjectTransport T} {O : Type} `{!MeasurementFlags}.
Variable options : CanaryAppOptions.
Variable call : Measurement T O.

Hypothesis N_range : 0 ≤ numTransfers call ≤ UINT32_MAX.
Hypothesis invoke_spec : ∀ j key size tr recs recs' r,
  tf_invoke (transferFunction call) j key size tr recs = Some (recs', r) →
  r = Z.to_nat j ∧ transferSuccess <$> recs' = transferSuccess <$> recs.
Hypothesis complete_code : ∀ j r o recs,
  ∃ code, tf_complete (transferFunction call) j r o recs
          = (alter (SetTransferSuccess (code =? AWS_ERROR_SUCCESS)) r recs,
             [(r, code =? AWS_ERROR_SUCCESS)], code).

Lemma complete_code_spec j r o recs :
  ∃ b code, tf_complete (transferFunction call) j r o recs
            = (alter (SetTransferSuccess b) r recs, [(r, b)], code).
Proof. destruct (complete_code j r o recs) as [code Hc]. eauto. Qed.

Lemma codes_of_app n evs1 evs2 :
  codes_of n (evs1 ++ evs2) = codes_of n evs1 ++ codes_of n evs2.
Proof. apply omap_app. Qed.

Lemma flags_follow_codes (t : T) recs parentAddress (s : State T) (n : nat) :
  isParentProcess options = false →
  Forall (λ r, transferSuccess r = Pending) recs →
  reachable options call (Some t) recs parentAddress s →
  flag_writes n (trace s)
  = (λ code, code =? AWS_ERROR_SUCCESS) <$> codes_of n (trace s).
Proof.
  intros Hrole Hrecs. revert s. apply reachable_ind.
  - unfold flag_writes, codes_of. rewrite !omap_none; [done|..];
      by apply enter_events.
  - intros s1 s2 Hs1 IH [[|k o|k|c] Ha]; simpl in Ha.
    + apply main_step_cases in Ha as [_ Ha].
      destruct Ha as [(_ & _ & key & _ & _ & _ & _ & _ & _ & _ & _ & _ & _ & _ & Htr)
        |[(_ & _ & ->)|[(key & recs' & r & _ & _ & ->)|[(key & _ & _ & ->)
        |[(_ & ->)|[(_ & _ & ->)|(_ & _ & ->)]]]]]]; simpl; try done.
      * by rewrite Htr.
      * rewrite flag_writes_app, codes_of_app, IH. simpl.
        by rewrite !app_nil_r.
      * rewrite flag_writes_app, codes_of_app, IH. simpl.
        by rewrite !app_nil_r.
      * rewrite flag_writes_app, codes_of_app, IH.
        destruct (isChildProcess options); simpl; by rewrite !app_nil_r.
    + apply notify_begin_cases in Ha
        as [_ (j & r & recs' & sets & e & Hk & Hc & ->)].
      destruct (complete_code j r o (records s1)) as (code & Hc').
      rewrite Hc in Hc'. simplify_eq. simpl.
      destruct (record_inv_reachable options call N_range invoke_spec
                  complete_code_spec _ _ _ _ Hrole Hrecs Hs1) as (Hpend & _).
      rewrite Forall_forall in Hpend.
      destruct (Hpend (j, r) (list_elem_of_lookup_2 _ _ _ Hk)) as [Hr Hj].
      simpl in Hr, Hj. subst r.
      rewrite !flag_writes_app, !codes_of_app, IH, fmap_app. f_equal.
      simpl.
      assert (flag_writes n (if code =? AWS_ERROR_SUCCESS then []
                             else [ELogTransferError code]) = []) as ->
        by (by destruct (code =? AWS_ERROR_SUCCESS)).
      assert (codes_of n (if code =? AWS_ERROR_SUCCESS then []
                          else [ELogTransferError code]) = []) as ->
        by (by destruct (code =? AWS_ERROR_SUCCESS)).
      destruct (decide (Z.to_nat j = n)) as [Heq|Hne];
        destruct (decide (j = Z.of_nat n)) as [Heq'|Hne']; simpl;
        try done; lia.
    + by apply notify_end_cases in Ha as [_ (j & _ & ->)].
    + by apply cv_step_cases in Ha as (_ & sig & w & ->).
Qed.

Lemma flags_match_codes_at_return (t : T) recs parentAddress (s : State T) :
  isParentProcess options = false →
  Forall (λ r, transferSuccess r = Pending) recs →
  length recs = Z.to_nat (numTransfers call) →
  reachable options call (Some t) recs parentAddress s →
  pc s = Returned →
  ∀ n rec, records s !! n = Some rec →
    ∃ code, codes_of n (trace s) = [code] ∧
      (transferSuccess rec = Succeeded ↔ code = AWS_ERROR_SUCCESS) ∧
      (transferSuccess rec = Failed ↔ code ≠ AWS_ERROR_SUCCESS).
Proof.
  intros Hrole Hrecs Hlen Hs Hret n rec Hn.
  destruct (records_set_at_return options call N_range invoke_spec
              complete_code_spec _ _ _ _ Hrole Hrecs Hlen Hs Hret)
    as (_ & _ & Hset).
  destruct (Hset n rec Hn) as (b & Hw & Hf).
  rewrite (flags_follow_codes _ _ _ _ n Hrole Hrecs Hs) in Hw.
  destruct (codes_of n (trace s)) as [|code [|code' l]]; try done.
  simpl in Hw. injection Hw as <-. exists code. split; [done|].
  rewrite Hf. unfold flag_of.
  destruct (Z.eqb_spec code AWS_ERROR_SUCCESS); split; split; done.
Qed.

End CodesAndFlags.

Section SinglePartMore.
Context {T : Type} `{!S3ObjectTransport T} `{!MeasurementFlags}.
Variable options : CanaryAppOptions.

Lemma download_invoke_safe (n : nat) j key size (t : T) recs :
  length recs = n → 0 ≤ j < Z.of_nat n →
  ∃ recs' r,
    tf_invoke SinglePartDownload j key size (Some t) recs = Some (recs', r) ∧
    length recs' = n.
Proof.
  intros Hlen Hj. simpl.
  destruct (recs !! Z.to_nat j) as [st|] eqn:Hst.
  - eexists _, _. split; [done|]. by rewrite length_insert.
  - apply lookup_ge_None in Hst. lia.
Qed.

Lemma download_complete_safe (n : nat) j r o recs :
  length recs = n →
  length (tf_complete (SinglePartDownload (T := T)) j r o recs).1.1 = n.
Proof. intros Hlen. simpl. by rewrite length_alter. Qed.

(** X8: in a worker or standalone process with live transports, neither
    single-part run ever indexes its record vector out of range or calls
    through a null transport: no state of the upload or of the download run
    is a crashed one, and the vectors keep their [numUpTransfers] and
    [numDownTransfers] records. *)
Theorem single_part_stays_in_range (t : T) parentAddress :
  isParentProcess options = false →
  0 ≤ numUpTransfers options ≤ UINT32_MAX →
  0 ≤ numDownTransfers options ≤ UINT32_MAX →
  (∀ s, reachable options (UploadMeasurement options) (Some t)
          (MakeRecords (numUpTransfers options)) parentAddress s →
        crashed s = false ∧
        length (records s) = Z.to_nat (numUpTransfers options)) ∧
  (∀ s, reachable options (DownloadMeasurement options) (Some t)
          (MakeRecords (numDownTransfers options)) parentAddress s →
        crashed s = false ∧
        length (records s) = Z.to_nat (numDownTransfers options)).
Proof.
  intros Hrole Hup Hdown. split; intros s Hs.
  - destruct (safe_reachable options (UploadMeasurement options) Hup
                (λ recs, length recs = Z.to_nat (numUpTransfers options))
                (λ j key t0 recs Hl Hj,
                   upload_invoke_safe _ j key _ t0 recs Hl
                     ltac:(simpl in Hj; lia))
                (λ j r o recs Hl, upload_complete_safe _ j r o recs Hl)
                t _ parentAddress s Hrole
                (proj2 (MakeRecords_pending _)) Hs) as (Hlen & Hlive & _).
    done.
  - destruct (safe_reachable options (DownloadMeasurement options) Hdown
                (λ recs, length recs = Z.to_nat (numDownTransfers options))
                (λ j key t0 recs Hl Hj,
                   download_invoke_safe _ j key _ t0 recs Hl
                     ltac:(simpl in Hj; lia))
                (λ j r o recs Hl, download_complete_safe _ j r o recs Hl)
                t _ parentAddress s Hrole
                (proj2 (MakeRecords_pending _)) Hs) as (Hlen & Hlive & _).
    done.
Qed.

(** X9: when a single-part run returns, every transfer was notified with
    exactly one error code, and its record is flagged a success exactly
    when that code is the success code and a failure exactly when it is
    not; this holds for the upload and for the download run. *)
Theorem single_part_flags_match_codes (t : T) parentAddress :
  isParentProcess options = false →
  0 ≤ numUpTransfers options ≤ UINT32_MAX →
  0 ≤ numDownTransfers options ≤ UINT32_MAX →
  (∀ s, reachable options (UploadMeasurement options) (Some t)
          (MakeRecords (numUpTransfers options)) parentAddress s →
        pc s = Returned →
        ∀ n rec, records s !! n = Some rec →
          ∃ code, codes_of n (trace s) = [code] ∧
            (transferSuccess rec = Succeeded ↔ code = AWS_ERROR_SUCCESS) ∧
            (transferSuccess rec = Failed ↔ code ≠ AWS_ERROR_SUCCESS)) ∧
  (∀ s, reachable options (DownloadMeasurement options) (Some t)
          (MakeRecords (numDownTransfers options)) parentAddress s →
        pc s = Returned →
        ∀ n rec, records s !! n = Some rec →
          ∃ code, codes_of n (trace s) = [code] ∧
            (transferSuccess rec = Succeeded ↔ code = AWS_ERROR_SUCCESS) ∧
            (transferSuccess rec = Failed ↔ code ≠ AWS_ERROR_SUCCESS)).
Proof.
  intros Hrole Hup Hdown.
  destruct (single_part_upload_discipline (T := T) options) as [Hupi _].
  destruct (single_part_download_discipline (T := T) options) as [Hdowni _].
  split; intros s Hs Hret.
  - destruct (MakeRecords_pending (numUpTransfers options)) as [Hpend Hlen].
    apply (flags_match_codes_at_return options (UploadMeasurement options)
             Hup Hupi (λ j r o recs, ex_intro _ o eq_refl)
             t _ parentAddress s Hrole Hpend Hlen Hs Hret).
  - destruct (MakeRecords_pending (numDownTransfers options)) as [Hpend Hlen].
    apply (flags_match_codes_at_return options (DownloadMeasurement options)
             Hdown Hdowni (λ j r o recs, ex_intro _ o eq_refl)
             t _ parentAddress s Hrole Hpend Hlen Hs Hret).
Qed.

End SinglePartMore.

(** * Further properties of the metrics pulse *)

Section PulseLifetime.
Context {T : Type} `{!S3ObjectTransport T}.

Lemma schedules_app evs1 evs2 :
  schedules (evs1 ++ evs2) = schedules evs1 ++ schedules evs2.
Proof. apply omap_app. Qed.

Lemma pulse_names_S k :
  pulse_names (S k)
  = pulse_names k ++ [S3UploadAddressCount; S3DownloadAddressCount].
Proof.
  unfold pulse_names. by rewrite replicate_S_end, join_app.
Qed.

Lemma pulse_inv_step base up down k (m m' : MeasureTransferRate T) :
  loop_step m m' → pulse_inv base up down k m →
  pulse_inv base up down k m' ∨ pulse_inv base up down (S k) m'.
Proof.
  intros Hstep (Htask & Hlen & Hnames & Hup & Hdown).
  destruct Hstep as [m now _|m resolver|m runAt Hsome _].
  - by left.
  - by left.
  - right. unfold pulse_inv, s_PulseMetricsTask, SchedulePulseMetrics,
      sample_address_count, unschedule. simpl.
    rewrite <- !app_assoc, !schedules_app. simpl.
    rewrite last_snoc, length_app, Hlen, !fmap_app, Hnames, pulse_names_S.
    simpl. rewrite <- !app_assoc. simpl. repeat split; try done. lia.
Qed.

Lemma pulse_inv_rtc base up down (m m' : MeasureTransferRate T) :
  rtc loop_step m m' → ∀ k, pulse_inv base up down k m →
  ∃ k', pulse_inv base up down k' m'.
Proof.
  induction 1 as [m|m1 m2 m3 Hstep _ IH]; intros k Hinv; [eauto|].
  destruct (pulse_inv_step _ _ _ _ _ _ Hstep Hinv); eauto.
Qed.

(** X10: the orchestrator of a worker process never pulses: the
    constructor schedules nothing and, whatever the scheduling loop and the
    clock do afterwards, no task is pending, no address count is sampled and
    no data point is added. *)
Theorem worker_never_pulses (options : CanaryAppOptions) (up down : T)
    (resolver : string → Z) (clock : Z) (publisher : list Metric)
    (m' : MeasureTransferRate T) :
  isChildProcess options = true →
  rtc loop_step
    (MeasureTransferRate_new options up down resolver clock publisher) m' →
  pulseTask m' = None ∧ dataPoints m' = publisher ∧ pulseLog m' = [].
Proof.
  intros Hrole Hm'. unfold MeasureTransferRate_new in Hm'.
  rewrite Hrole in Hm'. simpl in Hm'.
  by apply cancelled_state_stays in Hm'.
Qed.

(** X11: in a process that is not a worker the pulse, once constructed, is
    always pending until it is cancelled: after any number of clock ticks,
    resolver changes and firings there is a pending task whose run-at time
    is that of the latest schedule, the task was scheduled once more than it
    fired, and the data points added since the construction are the
    upload count followed by the download count, once for each firing. *)
Theorem pulse_stays_pending (options : CanaryAppOptions) (up down : T)
    (resolver : string → Z) (clock : Z) (publisher : list Metric)
    (m' : MeasureTransferRate T) :
  isChildProcess options = false →
  rtc loop_step
    (MeasureTransferRate_new options up down resolver clock publisher) m' →
  ∃ (k : nat) (runAt : Z),
    pulseTask m' = Some runAt ∧
    last (schedules (pulseLog m')) = Some runAt ∧
    length (schedules (pulseLog m')) = S k ∧
    Name <$> dataPoints m' = (Name <$> publisher) ++ pulse_names k ∧
    uploadTransport m' = up ∧ downloadTransport m' = down.
Proof.
  intros Hrole Hm'. unfold MeasureTransferRate_new in Hm'.
  rewrite Hrole in Hm'. simpl in Hm'.
  destruct (pulse_inv_rtc (Name <$> publisher) up down _ _ Hm' 0%nat)
    as (k & Htask & Hlen & Hnames & Hup & Hdown).
  { unfold pulse_inv, SchedulePulseMetrics. simpl.
    by rewrite app_nil_r. }
  destruct (schedules (pulseLog m')) as [|x l] eqn:Hsch using rev_ind;
    [done|].
  rewrite last_snoc in Htask. exists k, x.
  by rewrite last_snoc.
Qed.

End PulseLifetime.

(** * Further properties of the HTTP download *)

Section HttpCodes.
Variable AWS_ERROR_UNKNOWN : Z.
Hypothesis unknown_is_an_error : AWS_ERROR_UNKNOWN ≠ AWS_ERROR_SUCCESS.

(** X12: the HTTP callbacks notify the orchestrator with the success code
    exactly when the connection was acquired open and without error, the
    stream completed without error and the response status is 200.  An error
    of the connection is reported as it is, whatever the stream would have
    said; otherwise an error of the stream is reported as it is; a missing
    or closed connection and a status other than 200 are reported as
    [AWS_ERROR_UNKNOWN]. *)
Theorem http_error_code_cases (o : HttpOutcome) :
  (http_error_code AWS_ERROR_UNKNOWN o = AWS_ERROR_SUCCESS ↔
     connUsable o = true ∧ connErrorCode o = AWS_ERROR_SUCCESS ∧
     streamError o = AWS_ERROR_SUCCESS ∧ responseStatus o = 200) ∧
  (connErrorCode o ≠ AWS_ERROR_SUCCESS →
     http_error_code AWS_ERROR_UNKNOWN o = connErrorCode o) ∧
  (connUsable o = false → connErrorCode o = AWS_ERROR_SUCCESS →
     http_error_code AWS_ERROR_UNKNOWN o = AWS_ERROR_UNKNOWN) ∧
  (connUsable o = true → connErrorCode o = AWS_ERROR_SUCCESS →
     streamError o ≠ AWS_ERROR_SUCCESS →
     http_error_code AWS_ERROR_UNKNOWN o = streamError o) ∧
  (connUsable o = true → connErrorCode o = AWS_ERROR_SUCCESS →
     streamError o = AWS_ERROR_SUCCESS → responseStatus o ≠ 200 →
     http_error_code AWS_ERROR_UNKNOWN o = AWS_ERROR_UNKNOWN).
Proof.
  unfold http_error_code, AWS_ERROR_SUCCESS in *.
  destruct o as [usable connErr strErr status]. simpl.
  destruct usable; simpl; destruct (Z.eqb_spec connErr 0); simpl;
    repeat (match goal with
            | |- context [?a =? ?b] => destruct (Z.eqb_spec a b)
            end; simpl);
    repeat split; intros; try done; try lia;
    repeat match goal with H : _ ∧ _ |- _ => destruct H end; try done;
    try lia.
Qed.

End HttpCodes.

(** * The measurements as whole functions *)

Section Calls.
Context {T : Type} `{!S3ObjectTransport T} {O : Type} `{!MeasurementFlags}.
Variable options : CanaryAppOptions.
Variable call : Measurement T O.

(** Lines 75-92: outside the coordinator the prologue calls through the
    transport; with a null one the run is over before the loop. *)
Lemma null_transport_stops recs parentAddress (s : State T) :
  isParentProcess options = false →
  reachable options call None recs parentAddress s →
  crashed s = true ∧ transfers (trace s) = [] ∧
  pc s = AtLoopHead ∧ records s = recs.
Proof.
  intros Hrole. revert s. apply reachable_ind.
  - unfold PerformMeasurement_enter. rewrite Hrole.
    by destruct (isChildProcess options).
  - intros s1 s2 _ (Hc & _) [[|k o|k|c] Ha]; exfalso; simpl in Ha.
    + apply main_step_cases in Ha as [Hlive _]. congruence.
    + apply notify_begin_cases in Ha as [Hlive _]. congruence.
    + apply notify_end_cases in Ha as [Hlive _]. congruence.
    + apply cv_step_cases in Ha as [Hlive _]. congruence.
Qed.

Lemma PerformMeasurement_call_returns tr recs parentAddress acts (s : State T) :
  PerformMeasurement_call options call tr recs parentAddress acts = Some s →
  reachable options call tr recs parentAddress s ∧
  pc s = Returned ∧ crashed s = false.
Proof.
  unfold PerformMeasurement_call, has_returned.
  destruct (run options call acts _) as [s'|] eqn:Hrun; [|done].
  apply run_reachable in Hrun.
  destruct (pc s') eqn:Hpc; try done.
  destruct (crashed s') eqn:Hc; [done|]. by intros [= <-].
Qed.

(** A caller that goes on outside the coordinator had a live transport. *)
Lemma PerformMeasurement_call_live tr recs parentAddress acts (s : State T) :
  isParentProcess options = false →
  PerformMeasurement_call options call tr recs parentAddress acts = Some s →
  ∃ t, tr = Some t.
Proof.
  intros Hrole Hcall.
  apply PerformMeasurement_call_returns in Hcall as (Hs & _ & Hlive).
  destruct tr as [t|]; [eauto|].
  apply null_transport_stops in Hs as [Hc _]; [congruence|done].
Qed.

(** Every interleaving is the run of a schedule. *)
Lemma steps_run (s s' : State T) :
  rtc (step options call) s s' → ∃ acts, run options call acts s = Some s'.
Proof.
  induction 1 as [s|s1 s2 s3 [a Ha] _ [acts IH]].
  - by exists [].
  - exists (a :: acts). simpl. by rewrite Ha.
Qed.

End Calls.

(** * The records when a run returns *)

Section RecordsAtReturn.
Context {T : Type} `{!S3ObjectTransport T} `{!MeasurementFlags}.
Variable AWS_ERROR_UNKNOWN : Z.
Variable options : CanaryAppOptions.

Lemma single_code (f : Z → bool) (codes : list Z) (b : bool) :
  f <$> codes = [b] → ∃ code, codes = [code] ∧ b = f code.
Proof.
  destruct codes as [|code [|code' codes]]; try done.
  intros [= <-]. eauto.
Qed.

(** C2: the three calls of [PerformMeasurement] the program makes, in a
    worker or a standalone process.  A single-part upload or download run
    returns only with the completed count at its number of transfers, and
    at that point every Transfer Record created for the run is not pending:
    its flag was written exactly once, by the completion that notified the
    orchestrator, with the value [errorCode == AWS_ERROR_SUCCESS].  The
    HTTP download is called with the null transport of line 203: its run
    never returns and never creates a Transfer Record. *)
Theorem records_set_when_run_returns (up down : option T) parentAddress :
  isParentProcess options = false →
  0 ≤ numUpTransfers options ≤ UINT32_MAX →
  0 ≤ numDownTransfers options ≤ UINT32_MAX →
  (∀ s, reachable options (UploadMeasurement options) up
          (MakeRecords (numUpTransfers options)) parentAddress s →
        pc s = Returned →
        numCompleted s = numUpTransfers options ∧
        length (records s) = Z.to_nat (numUpTransfers options) ∧
        ∀ n rec, records s !! n = Some rec →
          transferSuccess rec ≠ Pending ∧
          ∃ code, codes_of n (trace s) = [code] ∧
            flag_writes n (trace s) = [code =? AWS_ERROR_SUCCESS] ∧
            transferSuccess rec = flag_of (code =? AWS_ERROR_SUCCESS)) ∧
  (∀ s, reachable options (DownloadMeasurement options) down
          (MakeRecords (numDownTransfers options)) parentAddress s →
        pc s = Returned →
        numCompleted s = numDownTransfers options ∧
        length (records s) = Z.to_nat (numDownTransfers options) ∧
        ∀ n rec, records s !! n = Some rec →
          transferSuccess rec ≠ Pending ∧
          ∃ code, codes_of n (trace s) = [code] ∧
            flag_writes n (trace s) = [code =? AWS_ERROR_SUCCESS] ∧
            transferSuccess rec = flag_of (code =? AWS_ERROR_SUCCESS)) ∧
  (∀ s, reachable options (HttpMeasurement AWS_ERROR_UNKNOWN options)
          HttpMeasurement_transport [] parentAddress s →
        pc s ≠ Returned ∧ records s = [] ∧ transfers (trace s) = []).
Proof.
  intros Hrole Hup Hdown.
  destruct (single_part_upload_discipline (T := T) options) as [Hupi _].
  destruct (single_part_download_discipline (T := T) options) as [Hdowni _].
  split; [|split].
  - intros s Hs Hret. destruct up as [t|].
    + destruct (MakeRecords_pending (numUpTransfers options)) as [Hpend _].
      destruct (upload_records_set options t parentAddress s Hrole Hup Hs
                  Hret) as (Hdone & Hlen & Hrecs).
      split; [done|]. split; [done|]. intros n rec Hrec.
      destruct (Hrecs n rec Hrec) as (b & Hw & Hb).
      pose proof (flags_follow_codes options (UploadMeasurement options)
                    Hup Hupi (λ j r o recs, ex_intro _ o eq_refl)
                    t _ parentAddress s n Hrole Hpend Hs) as Hcodes.
      rewrite Hw in Hcodes. symmetry in Hcodes.
      apply single_code in Hcodes as (code & Hcode & ->).
      split; [rewrite Hb; by destruct (code =? AWS_ERROR_SUCCESS)|].
      by exists code.
    + apply null_transport_stops in Hs as (_ & _ & Hpc & _); [|done].
      congruence.
  - intros s Hs Hret. destruct down as [t|].
    + destruct (MakeRecords_pending (numDownTransfers options)) as [Hpend _].
      destruct (download_records_set options t parentAddress s Hrole Hdown
                  Hs Hret) as (Hdone & Hlen & Hrecs).
      split; [done|]. split; [done|]. intros n rec Hrec.
      destruct (Hrecs n rec Hrec) as (b & Hw & Hb).
      pose proof (flags_follow_codes options (DownloadMeasurement options)
                    Hdown Hdowni (λ j r o recs, ex_intro _ o eq_refl)
                    t _ parentAddress s n Hrole Hpend Hs) as Hcodes.
      rewrite Hw in Hcodes. symmetry in Hcodes.
      apply single_code in Hcodes as (code & Hcode & ->).
      split; [rewrite Hb; by destruct (code =? AWS_ERROR_SUCCESS)|].
      by exists code.
    + apply null_transport_stops in Hs as (_ & _ & Hpc & _); [|done].
      congruence.
  - intros s Hs. unfold HttpMeasurement_transport in Hs.
    apply null_transport_stops in Hs as (_ & Htr & Hpc & Hrecs); [|done].
    split; [congruence|done].
Qed.

End RecordsAtReturn.

(** * A completion between the test and the block *)

Section LostWakeup.
Context {T : Type} `{!S3ObjectTransport T} `{!MeasurementFlags}.
Variable options : CanaryAppOptions.

Lemma MakeRecords_first n :
  1 ≤ n → MakeRecords n !! 0%nat = Some MakeTransferState.
Proof.
  intros Hn. unfold MakeRecords. apply lookup_replicate_2. lia.
Qed.

Lemma run_cons {O : Type} (call : Measurement T O) a acts (s s' : State T) :
  act options call a s = Some s' →
  run options call (a :: acts) s = run options call acts s'.
Proof. intros Ha. simpl. by rewrite Ha. Qed.

(** Runs the next action of a schedule on an explicit state. *)
Ltac step tac :=
  erewrite run_cons;
    [|unfold act, main_step, cv_step, notify_begin, notify_end, with_cv,
        loop_entry;
      cbn [pc crashed i counter numInProgress numCompleted pending
           finishing signalling waiter transport records trace
           numTransfers numConcurrentTransfers UploadMeasurement
           transferFunction tf_invoke tf_complete SinglePartUpload
           objectSize filenamePrefix Z.to_nat app lookup list_lookup
           delete list_delete];
      tac; reflexivity].

(** C6: the callbacks notify without holding [transferCompletedMutex], so a
    completion can run between the issuing thread's test of the slot-wait
    predicate and its blocking.  With a cap of one and at least two uploads
    to make, a run with a live transport reaches this state: the first
    transfer was issued and has completed, with whatever outcome, and was
    logged, decremented, counted and notified; the issuing thread then
    blocks in the slot wait, although a slot is free.  Nothing is pending
    that could wake it: short of a spurious wake-up no step is left, and
    the transfer function has been invoked once, not [numUpTransfers]
    times: the record of transfer 0 holds its outcome, that of transfer 1
    is as it was built. *)
Theorem lost_wakeup_blocks_the_loop (t : T) parentAddress (code : Z) :
  isParentProcess options = false →
  numUpConcurrentTransfers options = 1 →
  2 ≤ numUpTransfers options ≤ UINT32_MAX →
  ∃ s,
    run options (UploadMeasurement options)
      [Main; Main; Main; Cv WaitEnter; NotifyBegin 0 code; NotifyEnd 0;
       Cv (NotifyOne 0); Cv WaitBlock]
      (PerformMeasurement_enter options (UploadMeasurement options) (Some t)
         (MakeRecords (numUpTransfers options)) parentAddress) = Some s ∧
    pc s = AtWaitSlot ∧ waiter s = Blocked ∧ crashed s = false ∧
    i s = 0 ∧ (transfers (trace s)).*1 = [0] ∧
    notifications (trace s) = [(0, code)] ∧
    numInProgress s = 0 ∧ numCompleted s = 1 ∧
    pending s = [] ∧ finishing s = [] ∧ signalling s = [] ∧
    records s !! 0%nat
    = Some (SetTransferSuccess (code =? AWS_ERROR_SUCCESS)
              (AddDataUpMetric 0 MakeTransferState)) ∧
    records s !! 1%nat = Some MakeTransferState ∧
    (∀ a, a ≠ Cv SpuriousWakeup →
          act options (UploadMeasurement options) a s = None).
Proof.
  intros Hrole HC HN.
  assert ((0 <? numUpTransfers options) = true) as H0N by (apply Z.ltb_lt; lia).
  assert (MakeRecords (numUpTransfers options) !! Z.to_nat 0
          = Some MakeTransferState) as Hrec
    by (apply MakeRecords_first; lia).
  assert (∃ t' evs,
    PerformMeasurement_enter options (UploadMeasurement options) (Some t)
      (MakeRecords (numUpTransfers options)) parentAddress
    = loop_entry options (Some t') (MakeRecords (numUpTransfers options)) evs ∧
    transfers evs = [] ∧ notifications evs = []) as (t' & evs & -> & Htr & Hno).
  { unfold PerformMeasurement_enter. rewrite Hrole.
    destruct (isChildProcess options); eexists _, _;
      (split; [reflexivity|]); split; reflexivity. }
  step ltac:(rewrite H0N).
  step ltac:(rewrite Hrec).
  step idtac.
  step ltac:(rewrite HC).
  step idtac.
  step idtac.
  step idtac.
  step idtac.
  eexists. split; [reflexivity|]. cbn [pc waiter crashed i trace records
    numInProgress numCompleted pending finishing signalling].
  split; [done|]. split; [done|]. split; [done|]. split; [done|].
  split.
  { rewrite !transfers_app, Htr, transfers_flag_events. simpl.
    by destruct (code =? AWS_ERROR_SUCCESS). }
  split.
  { rewrite !notifications_app, Hno, notifications_flag_events. simpl.
    by destruct (code =? AWS_ERROR_SUCCESS). }
  split; [done|]. split; [done|]. split; [done|]. split; [done|].
  split; [done|]. change (Z.to_nat 0) with 0%nat in *.
  split.
  { rewrite list_lookup_alter_eq, list_lookup_insert_eq; [done|].
    by apply lookup_lt_Some in Hrec. }
  split.
  { rewrite list_lookup_alter_ne, list_lookup_insert_ne by done.
    unfold MakeRecords. apply lookup_replicate_2. lia. }
  intros [|k o|k|[k| | |]] Ha; try done.
Qed.

End LostWakeup.

Section WholeMeasurements.
Context {T : Type} `{!S3ObjectTransport T} `{!MeasurementFlags}.
Variable AWS_ERROR_UNKNOWN : Z.
Variable options : CanaryAppOptions.

Lemma flush_events_seq (flush : nat → AppEvent) (n : Z) :
  flush_events flush n = flush <$> seq 0 (Z.to_nat n).
Proof.
  unfold flush_events, seqZ. rewrite <- list_fmap_compose.
  apply list_fmap_ext. intros k x _. simpl. f_equal. lia.
Qed.

Lemma flag_of_set b : flag_of b ≠ Pending.
Proof. by destruct b. Qed.

(** X13: [MeasureHttpTransfer] hands [PerformMeasurement] a null transport,
    so the call comes back to it only in a coordinator that has no transfer
    to distribute; the run then did nothing at all, and the function goes on
    to cancel the pulse, publish and upload the backup.  In a worker or a
    standalone process the call never comes back: no HTTP transfer is ever
    measured by a run that returns. *)
Theorem http_measurement_returns_idle parentAddress acts
    (m m' : MeasureTransferRate T) (s : State T) (log : list AppEvent) :
  MeasureHttpTransfer AWS_ERROR_UNKNOWN options parentAddress acts m
  = Some (s, log, m') →
  isParentProcess options = true ∧ numDownTransfers options ≤ 0 ∧
  trace s = [] ∧ records s = [] ∧
  log = [ACancelPulseMetricsTask; ASchedulePublish; AWaitForLastPublish;
         AUploadBackup] ∧
  pulseTask m' = None ∧ dataPoints m' = dataPoints m.
Proof.
  unfold MeasureHttpTransfer.
  destruct (PerformMeasurement_call _ _ _ _ _ _) as [s0|] eqn:Hcall; [|done].
  intros [= <- <- <-].
  apply PerformMeasurement_call_returns in Hcall as (Hs & Hpc & Hlive).
  destruct (isParentProcess options) eqn:Hrole.
  - apply coordinator_stays in Hs; [|done]. subst s0. revert Hpc Hlive.
    unfold PerformMeasurement_enter, HttpMeasurement_transport.
    rewrite Hrole.
    destruct (warmDNS _); [done|].
    destruct (0 <? numTransfers _) eqn:HN; [done|]. intros _ _.
    simpl in HN. repeat split; try done. lia.
  - apply http_null_transport_stops in Hs as [Hc _]; [congruence|done].
Qed.

(** X14: when [MeasureSinglePartObjectTransfer] returns in a worker or a
    standalone process, the transports it used were live, each vector has
    one record for each configured transfer and every record carries a
    success or a failure, none is left pending; every record was flushed
    once, the uploads before the downloads, and the pulse task is cancelled
    before the last publish.  With [downloadOnly] there is no upload run and
    no upload record. *)
Theorem single_part_run_finalizes (up down : option T)
    upAddress downAddress upActs downActs
    (m : MeasureTransferRate T) (r : SinglePartRun T) :
  isParentProcess options = false →
  0 ≤ numUpTransfers options ≤ UINT32_MAX →
  0 ≤ numDownTransfers options ≤ UINT32_MAX →
  MeasureSinglePartObjectTransfer options up down upAddress downAddress
    upActs downActs m = Some r →
  (if downloadOnly options then uploads r = [] ∧ uploadTrace r = []
   else is_Some up ∧
        length (uploads r) = Z.to_nat (numUpTransfers options) ∧
        Forall (λ rec, transferSuccess rec ≠ Pending) (uploads r)) ∧
  is_Some down ∧
  length (downloads r) = Z.to_nat (numDownTransfers options) ∧
  Forall (λ rec, transferSuccess rec ≠ Pending) (downloads r) ∧
  appLog r
  = (if downloadOnly options then []
     else (AFlushDataUpMetrics <$> seq 0 (length (uploads r))) ++
          [ASchedulePublish; AWaitForLastPublish]) ++
    (AFlushDataDownMetrics <$> seq 0 (length (downloads r))) ++
    [ACancelPulseMetricsTask; ASchedulePublish; AWaitForLastPublish;
     AUploadBackup] ∧
  pulseTask (pulseAfter r) = None.
Proof.
  intros Hrole Hup Hdown. unfold MeasureSinglePartObjectTransfer.
  assert (∀ tr addr acts s,
    PerformMeasurement_call options (DownloadMeasurement options) tr
      (MakeRecords (numDownTransfers options)) addr acts = Some s →
    is_Some tr ∧ length (records s) = Z.to_nat (numDownTransfers options) ∧
    Forall (λ rec, transferSuccess rec ≠ Pending) (records s)) as Hd.
  { intros tr addr acts s Hcall.
    destruct (PerformMeasurement_call_live _ _ _ _ _ _ _ Hrole Hcall)
      as [t ->].
    apply PerformMeasurement_call_returns in Hcall as (Hs & Hpc & _).
    destruct (download_records_set options t addr s Hrole Hdown Hs Hpc)
      as (_ & Hlen & Hrecs).
    split; [eauto|]. split; [done|].
    apply Forall_lookup. intros n rec Hrec.
    destruct (Hrecs n rec Hrec) as (b & _ & ->). apply flag_of_set. }
  destruct (downloadOnly options).
  - destruct (PerformMeasurement_call _ (DownloadMeasurement options) _ _ _ _)
      as [sd|] eqn:Hcd; [|done].
    intros [= <-]. simpl. destruct (Hd _ _ _ _ Hcd) as (Hlive & Hlen & Hset).
    repeat split; try done.
    by rewrite flush_events_seq, Hlen.
  - destruct (PerformMeasurement_call _ (UploadMeasurement options) _ _ _ _)
      as [su|] eqn:Hcu; [|done].
    destruct (PerformMeasurement_call _ (DownloadMeasurement options) _ _ _ _)
      as [sd|] eqn:Hcd; [|done].
    intros [= <-]. simpl. destruct (Hd _ _ _ _ Hcd) as (Hlive & Hlen & Hset).
    destruct (PerformMeasurement_call_live _ _ _ _ _ _ _ Hrole Hcu)
      as [t ->].
    apply PerformMeasurement_call_returns in Hcu as (Hs & Hpc & _).
    destruct (upload_records_set options t upAddress su Hrole Hup Hs Hpc)
      as (_ & Hlenu & Hrecs).
    repeat split; try done.
    + apply Forall_lookup. intros n rec Hrec.
      destruct (Hrecs n rec Hrec) as (b & _ & ->). apply flag_of_set.
    + rewrite !flush_events_seq, Hlen, Hlenu. unfold publish_events.
      by rewrite <- !app_assoc.
Qed.

End WholeMeasurements.

Section ReturningCalls.
Context {T : Type} `{!S3ObjectTransport T} {O : Type} `{!MeasurementFlags}.
Variable options : CanaryAppOptions.
Variable call : Measurement T O.
Hypothesis N_range : 0 ≤ numTransfers call ≤ UINT32_MAX.
Variable RI : list TransferState → Prop.
Hypothesis invoke_safe : ∀ j key t recs,
  RI recs → 0 ≤ j < numTransfers call →
  ∃ recs' r,
    tf_invoke (transferFunction call) j key (objectSize call) (Some t) recs
    = Some (recs', r) ∧ RI recs'.
Hypothesis complete_safe : ∀ j r o recs,
  RI recs → RI (tf_complete (transferFunction call) j r o recs).1.1.

(** Some schedule takes the blocking call back to its caller. *)
Lemma call_can_return (out : Z → O) (t : T) recs parentAddress :
  isParentProcess options = false → RI recs →
  1 ≤ numConcurrentTransfers call →
  ∃ acts s,
    PerformMeasurement_call options call (Some t) recs parentAddress acts
    = Some s.
Proof.
  intros Hrole Hrecs HC.
  destruct (can_return options call N_range RI invoke_safe complete_safe out
              t recs parentAddress _ Hrole Hrecs HC _ (rtc_refl _ _)
              (proj1 (enter_running options call _ _ _))
              (Nat.le_refl _)) as (s & Hsteps & Hpc).
  destruct (safe_reachable options call N_range RI invoke_safe complete_safe
              t recs parentAddress s Hrole Hrecs Hsteps) as (_ & Hlive & _).
  destruct (steps_run _ _ _ _ Hsteps) as [acts Hrun].
  exists acts, s. unfold PerformMeasurement_call, has_returned.
  by rewrite Hrun, Hpc, Hlive.
Qed.

Lemma records_enter tr recs parentAddress :
  records (PerformMeasurement_enter options call tr recs parentAddress) = recs.
Proof.
  unfold PerformMeasurement_enter.
  destruct (isParentProcess options), (isChildProcess options), tr; try done;
    destruct (warmDNS call); try done; by destruct (0 <? numTransfers call).
Qed.

(** A call that comes back in the coordinator has run no transfer and left
    the caller's records alone. *)
Lemma coordinator_call tr recs parentAddress acts (s : State T) :
  isParentProcess options = true →
  PerformMeasurement_call options call tr recs parentAddress acts = Some s →
  records s = recs ∧ transfers (trace s) = [].
Proof.
  intros Hrole Hcall.
  apply PerformMeasurement_call_returns in Hcall as (Hs & _ & _).
  apply coordinator_stays in Hs; [|done]. subst s.
  split; [apply records_enter|apply transfers_enter].
Qed.

End ReturningCalls.

Section SinglePartRuns.
Context {T : Type} `{!S3ObjectTransport T} `{!MeasurementFlags}.
Variable options : CanaryAppOptions.

(** X15: [MeasureSinglePartObjectTransfer] can run to its end: in a worker
    or a standalone process with live transports and caps of at least one,
    there are schedules of the completions under which both
    [PerformMeasurement] calls come back and the function returns. *)
Theorem single_part_run_can_return (tu td : T) upAddress downAddress
    (m : MeasureTransferRate T) :
  isParentProcess options = false →
  0 ≤ numUpTransfers options ≤ UINT32_MAX →
  0 ≤ numDownTransfers options ≤ UINT32_MAX →
  1 ≤ numUpConcurrentTransfers options →
  1 ≤ numDownConcurrentTransfers options →
  ∃ upActs downActs r,
    MeasureSinglePartObjectTransfer options (Some tu) (Some td)
      upAddress downAddress upActs downActs m = Some r.
Proof.
  intros Hrole Hup Hdown HCup HCdown.
  destruct (call_can_return options (UploadMeasurement options) Hup
              (λ recs, length recs = Z.to_nat (numUpTransfers options))
              (λ j key t0 recs Hl Hj,
                 upload_invoke_safe _ j key _ t0 recs Hl
                   ltac:(simpl in Hj; lia))
              (λ j r o recs Hl, upload_complete_safe _ j r o recs Hl)
              (λ _, 0) tu _ upAddress Hrole
              (proj2 (MakeRecords_pending _)) HCup) as (upActs & su & Hsu).
  destruct (call_can_return options (DownloadMeasurement options) Hdown
              (λ recs, length recs = Z.to_nat (numDownTransfers options))
              (λ j key t0 recs Hl Hj,
                 download_invoke_safe _ j key _ t0 recs Hl
                   ltac:(simpl in Hj; lia))
              (λ j r o recs Hl, download_complete_safe _ j r o recs Hl)
              (λ _, 0) td _ downAddress Hrole
              (proj2 (MakeRecords_pending _)) HCdown) as (downActs & sd & Hsd).
  unfold MeasureSinglePartObjectTransfer.
  destruct (downloadOnly options).
  - exists [], downActs. rewrite Hsd. eauto.
  - exists upActs, downActs. rewrite Hsu, Hsd. eauto.
Qed.

(** X16: in the coordinator [MeasureSinglePartObjectTransfer] runs no
    transfer of its own: when it returns, both vectors are as they were
    built, every record still pending, and yet every record is flushed to
    the metrics, the pulse is cancelled and the metrics are published. *)
Theorem coordinator_flushes_untouched_records (up down : option T)
    upAddress downAddress upActs downActs
    (m : MeasureTransferRate T) (r : SinglePartRun T) :
  isParentProcess options = true →
  MeasureSinglePartObjectTransfer options up down upAddress downAddress
    upActs downActs m = Some r →
  uploads r = (if downloadOnly options then []
               else MakeRecords (numUpTransfers options)) ∧
  downloads r = MakeRecords (numDownTransfers options) ∧
  Forall (λ rec, transferSuccess rec = Pending) (uploads r ++ downloads r) ∧
  transfers (uploadTrace r) = [] ∧ transfers (downloadTrace r) = [] ∧
  appLog r
  = (if downloadOnly options then []
     else (AFlushDataUpMetrics <$> seq 0 (length (uploads r))) ++
          [ASchedulePublish; AWaitForLastPublish]) ++
    (AFlushDataDownMetrics <$> seq 0 (length (downloads r))) ++
    [ACancelPulseMetricsTask; ASchedulePublish; AWaitForLastPublish;
     AUploadBackup] ∧
  pulseTask (pulseAfter r) = None.
Proof.
  intros Hrole. unfold MeasureSinglePartObjectTransfer.
  destruct (downloadOnly options).
  - destruct (PerformMeasurement_call _ (DownloadMeasurement options) _ _ _ _)
      as [sd|] eqn:Hcd; [|done].
    intros [= <-]. simpl.
    destruct (coordinator_call _ _ _ _ _ _ _ Hrole Hcd) as [-> Htr].
    destruct (MakeRecords_pending (numDownTransfers options)) as [Hp Hl].
    repeat split; try done.
    by rewrite flush_events_seq, Hl.
  - destruct (PerformMeasurement_call _ (UploadMeasurement options) _ _ _ _)
      as [su|] eqn:Hcu; [|done].
    destruct (PerformMeasurement_call _ (DownloadMeasurement options) _ _ _ _)
      as [sd|] eqn:Hcd; [|done].
    intros [= <-]. simpl.
    destruct (coordinator_call _ _ _ _ _ _ _ Hrole Hcu) as [-> Htru].
    destruct (coordinator_call _ _ _ _ _ _ _ Hrole Hcd) as [-> Htrd].
    destruct (MakeRecords_pending (numDownTransfers options)) as [Hp Hl].
    destruct (MakeRecords_pending (numUpTransfers options)) as [Hpu Hlu].
    repeat split; try done.
    + by apply Forall_app.
    + rewrite !flush_events_seq, Hl, Hlu. unfold publish_events.
      by rewrite <- !app_assoc.
Qed.

End SinglePartRuns.

(** * The progress log *)

Section ProgressLog.
Context {T : Type} `{!S3ObjectTransport T} {O : Type} `{!MeasurementFlags}.
Variable options : CanaryAppOptions.
Variable call : Measurement T O.

Local Abbreviation N := (numTransfers call).

Hypothesis N_range : 0 ≤ N ≤ UINT32_MAX.

Lemma progress_log_app evs1 evs2 :
  progress_log (evs1 ++ evs2) = progress_log evs1 ++ progress_log evs2.
Proof. apply omap_app. Qed.

Lemma progress_log_flags sets : progress_log (flag_events sets) = [].
Proof. apply omap_none, Forall_fmap, Forall_forall. by intros. Qed.

(** X17: every line of the progress log is consistent with the transfer
    it announces: the index is one of the configured transfers, the
    in-progress count includes the announced transfer and never exceeds the
    transfers started so far, and the completed count never exceeds the
    transfers started before the announced one. *)
Theorem progress_lines_are_consistent tr recs parentAddress (s : State T) :
  isParentProcess options = false →
  reachable options call tr recs parentAddress s →
  Forall (λ line,
            0 ≤ line.1.1 < N ∧ 1 ≤ line.1.2 ≤ line.1.1 + 1 ∧
            0 ≤ line.2 ≤ line.1.1)
    (progress_log (trace s)).
Proof.
  intros Hrole. revert s. apply reachable_ind.
  - unfold progress_log. rewrite omap_none; [done|]. by apply enter_events.
  - intros s1 s2 Hs1 IH [[|k o|k|c] Ha]; simpl in Ha.
    + pose proof (gate_inv_reachable options call N_range _ _ _ _ Hrole Hs1)
        as (Hi & HiN & Hc & Hp & Hsum & Hpc).
      unfold issued in *.
      apply main_step_cases in Ha as [_ Ha].
      destruct Ha as [(_ & _ & key & _ & _ & _ & _ & _ & _ & _ & _ & _ & _
                         & _ & Htr)
        |[(_ & _ & ->)|[(key & recs' & r & Hp1 & _ & ->)|[(key & Hp1 & _ & ->)
        |[(_ & ->)|[(_ & _ & ->)|(_ & _ & ->)]]]]]]; simpl; try done.
      * by rewrite Htr.
      * rewrite progress_log_app. apply Forall_app. split; [done|].
        rewrite Hp1 in *. simpl in *. apply Forall_singleton. simpl. lia.
      * rewrite progress_log_app. apply Forall_app. split; [done|].
        rewrite Hp1 in *. simpl in *. apply Forall_singleton. simpl. lia.
      * rewrite progress_log_app.
        destruct (isChildProcess options); simpl; by rewrite app_nil_r.
    + apply notify_begin_cases in Ha
        as (_ & j & r & recs' & sets & code & _ & _ & ->). simpl.
      rewrite !progress_log_app, progress_log_flags.
      destruct (code =? AWS_ERROR_SUCCESS); simpl; by rewrite app_nil_r.
    + apply notify_end_cases in Ha as (_ & j & _ & ->). done.
    + by apply cv_step_cases in Ha as (_ & sig & w & ->).
Qed.

End ProgressLog.

(** * Example runs of the further properties *)

(** One upload whose callback has counted itself but not yet called
    [notify_one] when the issuing thread passes both waits and returns. *)
Lemma counters_account_for_transfers_witness :
  let options := example_options false false 0 1 1 in
  let call := UploadMeasurement options in
  let s := example_state options call (Some []) (MakeRecords 1)
             [Main; Main; Main; NotifyBegin 0 0; NotifyEnd 0;
              Main; Main; Main] in
  pc s = Returned ∧ numCompleted s = 1 ∧ numInProgress s = 0 ∧
  signalling s = [0] ∧
  is_Some (@act _ _ example_flags options call (Cv (NotifyOne 0)) s) ∧
  numCompleted s + Z.of_nat (length (finishing s)) + numInProgress s
  = issued s + counted (pc s) ∧
  ∀ a, is_Some (@act _ _ example_flags options call a s) →
       ∃ k, a = Cv (NotifyOne k) ∧ is_Some (signalling s !! k).
Proof.
  intros options call s.
  assert (is_Some (@run _ _ example_flags options call
            [Main; Main; Main; NotifyBegin 0 0; NotifyEnd 0;
             Main; Main; Main]
            (@PerformMeasurement_enter _ _ _ example_flags options call
               (Some []) (MakeRecords 1) "10.0.0.5:443"))) as Hrun
    by (vm_compute; eauto).
  pose proof (@counters_account_for_transfers _ _ _ example_flags options call
                (small_count 1 eq_refl) (Some []) (MakeRecords 1)
                "10.0.0.5:443" s eq_refl
                (example_state_reachable _ _ _ _ _ Hrun))
    as (_ & _ & Hsum & _ & Hret).
  destruct (Hret eq_refl) as (_ & _ & _ & _ & Hleft).
  split; [reflexivity|]. split; [reflexivity|]. split; [reflexivity|].
  split; [reflexivity|]. split; [vm_compute; eauto|].
  split; [exact Hsum|exact Hleft].
Defined.

(** Two uploads under a cap of zero: the first is issued and the thread
    stays in the slot wait. *)
Lemma zero_cap_never_returns_witness :
  let options := example_options false false 0 2 0 in
  let call := UploadMeasurement options in
  let s := example_state options call (Some []) (MakeRecords 2)
             [Main; Main; Main; NotifyBegin 0 0; NotifyEnd 0] in
  pc s = AtWaitSlot ∧ numInProgress s = 0 ∧ numCompleted s = 1 ∧
  @main_step _ _ example_flags options call s = None.
Proof.
  intros options call s.
  assert (is_Some (@run _ _ example_flags options call
            [Main; Main; Main; NotifyBegin 0 0; NotifyEnd 0]
            (@PerformMeasurement_enter _ _ _ example_flags options call
               (Some []) (MakeRecords 2) "10.0.0.5:443"))) as Hrun
    by (vm_compute; eauto).
  pose proof (@zero_cap_never_returns _ _ _ example_flags options call
                (small_count 2 eq_refl) (Some []) (MakeRecords 2)
                "10.0.0.5:443" s eq_refl eq_refl ltac:(simpl; lia)
                (example_state_reachable _ _ _ _ _ Hrun))
    as (_ & _ & _ & _ & Hblocked).
  split; [reflexivity|]. split; [reflexivity|]. split; [reflexivity|].
  apply Hblocked. reflexivity.
Defined.

(** Two uploads under a cap of three, the first still in flight at the
    slot wait. *)
Lemma ample_cap_never_blocks_witness :
  let options := example_options false false 0 2 3 in
  let call := UploadMeasurement options in
  let s := example_state options call (Some []) (MakeRecords 2)
             [Main; Main; Main] in
  numInProgress s = 1 ∧
  ∃ s', @main_step _ _ example_flags options call s = Some s' ∧
        pc s' = AtLoopHead ∧ i s' = i s + 1.
Proof.
  intros options call s.
  assert (is_Some (@run _ _ example_flags options call [Main; Main; Main]
            (@PerformMeasurement_enter _ _ _ example_flags options call
               (Some []) (MakeRecords 2) "10.0.0.5:443"))) as Hrun
    by (vm_compute; eauto).
  pose proof (@ample_cap_never_blocks _ _ _ example_flags options call
                (small_count 2 eq_refl) (Some []) (MakeRecords 2)
                "10.0.0.5:443" s eq_refl ltac:(simpl; lia)
                (example_state_reachable _ _ _ _ _ Hrun) eq_refl eq_refl)
    as [_ Hnext].
  split; [reflexivity|exact Hnext].
Defined.

(** Two downloads: the NoFileSuffix flag is set and both keys are the
    object name alone. *)
Lemma keys_carry_prefix_witness :
  let options := example_options false false 0 2 1 in
  let call := @DownloadMeasurement (list string) example_flags options in
  let s := example_state options call (Some []) (MakeRecords 2)
             (synchronous 0 ++ synchronous 0) in
  (transfers (trace s)).*2
  = [{| key_prefix := "crt-canary-obj"; key_suffix := None |};
     {| key_prefix := "crt-canary-obj"; key_suffix := None |}] ∧
  Forall (λ t, key_prefix t.2 = "crt-canary-obj") (transfers (trace s)) ∧
  suffixes (trace s) = [].
Proof.
  intros options call s.
  assert (is_Some (@run _ _ example_flags options call
            (synchronous 0 ++ synchronous 0)
            (@PerformMeasurement_enter _ _ _ example_flags options call
               (Some []) (MakeRecords 2) "10.0.0.5:443"))) as Hrun
    by (vm_compute; eauto).
  pose proof (@keys_carry_prefix _ _ _ example_flags options call
                (small_count 2 eq_refl) (Some []) (MakeRecords 2)
                "10.0.0.5:443" s eq_refl
                (example_state_reachable _ _ _ _ _ Hrun))
    as [Hkeys Hnone].
  split; [reflexivity|]. split.
  - eapply Forall_impl; [exact Hkeys|]. intros t [Hp _]. exact Hp.
  - apply Hnone. vm_compute. discriminate.
Defined.

(** Four uploads by the process with index [INT64_MAX - 2]. *)
Lemma key_suffix_closed_form_witness :
  let options := example_options false false (INT64_MAX - 2) 4 1 in
  let call := UploadMeasurement options in
  let acts := synchronous 0 ++ synchronous 0 ++ synchronous 7
                ++ asynchronous 0 ++ [Main; Main] in
  let s := example_state options call (Some []) (MakeRecords 4) acts in
  issued s = 4 ∧
  suffixes (trace s) = suffix_formula (INT64_MAX - 2) <$> seqZ 0 4 ∧
  Forall (λ a, 1 ≤ a ≤ INT64_MAX) (suffixes (trace s)).
Proof.
  intros options call acts s.
  assert (is_Some (@run _ _ example_flags options call acts
            (@PerformMeasurement_enter _ _ _ example_flags options call
               (Some []) (MakeRecords 4) "10.0.0.5:443"))) as Hrun
    by (vm_compute; eauto).
  pose proof (@key_suffix_closed_form _ _ _ example_flags options call
                (small_count 4 eq_refl) eq_refl
                (small_index (INT64_MAX - 2) eq_refl)
                (Some []) (MakeRecords 4) "10.0.0.5:443" s eq_refl
                (example_state_reachable _ _ _ _ _ Hrun))
    as [Hform Hrange].
  split; [reflexivity|]. split; [exact Hform|exact Hrange].
Defined.

(** The same four uploads: their suffixes 2, 1, [INT64_MAX] and
    [INT64_MAX - 1] are distinct. *)
Lemma key_suffixes_distinct_witness :
  let options := example_options false false (INT64_MAX - 2) 4 1 in
  let call := UploadMeasurement options in
  let acts := synchronous 0 ++ synchronous 0 ++ synchronous 7
                ++ asynchronous 0 ++ [Main; Main] in
  let s := example_state options call (Some []) (MakeRecords 4) acts in
  suffixes (trace s) = [2; 1; INT64_MAX; INT64_MAX - 1] ∧
  NoDup (suffixes (trace s)) ∧ NoDup (transfers (trace s)).*2.
Proof.
  intros options call acts s.
  assert (is_Some (@run _ _ example_flags options call acts
            (@PerformMeasurement_enter _ _ _ example_flags options call
               (Some []) (MakeRecords 4) "10.0.0.5:443"))) as Hrun
    by (vm_compute; eauto).
  pose proof (@key_suffixes_distinct _ _ _ example_flags options call
                (small_count 4 eq_refl) eq_refl
                (small_index (INT64_MAX - 2) eq_refl)
                (Some []) (MakeRecords 4) "10.0.0.5:443" s eq_refl
                (example_state_reachable _ _ _ _ _ Hrun))
    as Hdistinct.
  split; [reflexivity|exact Hdistinct].
Defined.


(** Two uploads, the second failing, observed at the return. *)
Lemma single_part_stays_in_range_witness :
  let options := example_options false false 0 2 1 in
  let call := UploadMeasurement options in
  let s := example_state options call (Some []) (MakeRecords 2)
             (synchronous 0 ++ synchronous 7 ++ [Main; Main]) in
  pc s = Returned ∧ crashed s = false ∧ length (records s) = 2%nat.
Proof.
  intros options call s.
  assert (is_Some (@run _ _ example_flags options call
            (synchronous 0 ++ synchronous 7 ++ [Main; Main])
            (@PerformMeasurement_enter _ _ _ example_flags options call
               (Some []) (MakeRecords 2) "10.0.0.5:443"))) as Hrun
    by (vm_compute; eauto).
  pose proof (@single_part_stays_in_range _ _ example_flags options []
                "10.0.0.5:443" eq_refl (small_count 2 eq_refl)
                (small_count 2 eq_refl)) as [Hup _].
  split; [reflexivity|].
  exact (Hup s (example_state_reachable _ _ _ _ _ Hrun)).
Defined.

(** The same run: the first record is a success, the second a failure. *)
Lemma single_part_flags_match_codes_witness :
  let options := example_options false false 0 2 1 in
  let call := UploadMeasurement options in
  let s := example_state options call (Some []) (MakeRecords 2)
             (synchronous 0 ++ synchronous 7 ++ [Main; Main]) in
  transferSuccess <$> records s = [Succeeded; Failed] ∧
  notifications (trace s) = [(0, 0); (1, 7)] ∧
  ∀ n rec, records s !! n = Some rec →
    ∃ code, codes_of n (trace s) = [code] ∧
      (transferSuccess rec = Succeeded ↔ code = AWS_ERROR_SUCCESS) ∧
      (transferSuccess rec = Failed ↔ code ≠ AWS_ERROR_SUCCESS).
Proof.
  intros options call s.
  assert (is_Some (@run _ _ example_flags options call
            (synchronous 0 ++ synchronous 7 ++ [Main; Main])
            (@PerformMeasurement_enter _ _ _ example_flags options call
               (Some []) (MakeRecords 2) "10.0.0.5:443"))) as Hrun
    by (vm_compute; eauto).
  pose proof (@single_part_flags_match_codes _ _ example_flags options []
                "10.0.0.5:443" eq_refl (small_count 2 eq_refl)
                (small_count 2 eq_refl)) as [Hup _].
  split; [reflexivity|]. split; [reflexivity|].
  exact (Hup s (example_state_reachable _ _ _ _ _ Hrun) eq_refl).
Defined.

(** A worker's orchestrator constructed at time 0, seen at time 7000. *)
Lemma worker_never_pulses_witness :
  let options := example_options false true 3 1 1 in
  let created :=
    MeasureTransferRate_new options ["10.0.0.5:443"] ["10.0.0.6:443"]
      (λ _, 2) 0 [] in
  let m' := mkMeasure ["10.0.0.5:443"] ["10.0.0.6:443"] (λ _, 2) 7000
              None [] [] in
  loop_step created m' ∧
  pulseTask m' = None ∧ dataPoints m' = [] ∧ pulseLog m' = [].
Proof.
  intros options created m'.
  assert (loop_step created m') as Htick.
  { apply (loop_tick created 7000). vm_compute. split; discriminate. }
  split; [exact Htick|].
  exact (@worker_never_pulses _ _ options _ _ _ _ _ m' eq_refl
           (rtc_once _ _ Htick)).
Defined.

(** A standalone process's orchestrator constructed at time 0; the pulse
    fires at time 5000 ms. *)
Lemma pulse_stays_pending_witness :
  let options := example_options false false 0 1 1 in
  let created :=
    MeasureTransferRate_new options ["10.0.0.5:443"] ["10.0.0.6:443"]
      (λ _, 2) 0 [] in
  let due := mkMeasure ["10.0.0.5:443"] ["10.0.0.6:443"] (λ _, 2)
               5000000000 (Some 5000000000) []
               [PScheduleTaskFuture 5000000000] in
  let fired := s_PulseMetricsTask AWS_TASK_STATUS_RUN_READY (unschedule due) in
  pulseTask fired = Some 10000000000 ∧
  Name <$> dataPoints fired
  = [S3UploadAddressCount; S3DownloadAddressCount] ∧
  ∃ (k : nat) (runAt : Z),
    pulseTask fired = Some runAt ∧
    last (schedules (pulseLog fired)) = Some runAt ∧
    length (schedules (pulseLog fired)) = S k ∧
    Name <$> dataPoints fired = [] ++ pulse_names k ∧
    uploadTransport fired = ["10.0.0.5:443"] ∧
    downloadTransport fired = ["10.0.0.6:443"].
Proof.
  intros options created due fired.
  assert (loop_step created due) as Htick.
  { apply (loop_tick created 5000000000). vm_compute. split; discriminate. }
  assert (loop_step due fired) as Hfire.
  { apply (loop_fire due 5000000000); [reflexivity|].
    vm_compute. discriminate. }
  split; [reflexivity|]. split; [reflexivity|].
  exact (@pulse_stays_pending _ _ options _ _ _ _ _ fired eq_refl
           (rtc_l _ _ _ _ Htick (rtc_once _ _ Hfire))).
Defined.

(** A GET answered with status 404 on an open connection, with
    [AWS_ERROR_UNKNOWN] being 3. *)
Lemma http_error_code_cases_witness :
  let o := {| connUsable := true; connErrorCode := 0; streamError := 0;
              responseStatus := 404 |} in
  http_error_code 3 o = 3 ∧
  (http_error_code 3 o = AWS_ERROR_SUCCESS ↔
     connUsable o = true ∧ connErrorCode o = AWS_ERROR_SUCCESS ∧
     streamError o = AWS_ERROR_SUCCESS ∧ responseStatus o = 200).
Proof.
  intros o.
  assert (3 ≠ AWS_ERROR_SUCCESS) as Hne by (vm_compute; discriminate).
  pose proof (http_error_code_cases 3 Hne o) as (Hiff & _ & _ & _ & Hstatus).
  split; [|exact Hiff].
  apply Hstatus; [reflexivity|reflexivity|reflexivity|].
  vm_compute. discriminate.
Defined.

(** A coordinator with no download to distribute: the only role in which
    the HTTP measurement comes back. *)
Lemma http_measurement_returns_idle_witness :
  let options := example_options true false 0 0 1 in
  let m := example_measure 0 (Some 5000000000) in
  let s : State (list string) :=
    mkState Returned false 0 0 0 0 [] [] [] Running None [] [] in
  let log := [ACancelPulseMetricsTask; ASchedulePublish; AWaitForLastPublish;
              AUploadBackup] in
  let m' := example_measure 0 None in
  @MeasureHttpTransfer _ _ example_flags 3 options "10.0.0.5:443" [] m
  = Some (s, log, m') ∧
  isParentProcess options = true ∧ numDownTransfers options ≤ 0 ∧
  trace s = [] ∧ records s = [] ∧ pulseTask m' = None.
Proof.
  intros options m s log m'.
  assert (@MeasureHttpTransfer _ _ example_flags 3 options "10.0.0.5:443"
            [] m = Some (s, log, m')) as Hcall by reflexivity.
  pose proof (@http_measurement_returns_idle _ _ example_flags 3 options
                "10.0.0.5:443" [] m m' s log Hcall)
    as (Hrole & Hnone & Htrace & Hrecs & _ & Htask & _).
  split; [exact Hcall|]. split; [exact Hrole|]. split; [exact Hnone|].
  split; [exact Htrace|]. split; [exact Hrecs|exact Htask].
Defined.

(** A standalone process with two uploads and two downloads; the second
    transfer of each run fails. *)
Lemma single_part_run_finalizes_witness :
  let options := example_options false false 0 2 1 in
  let acts := synchronous 0 ++ synchronous 7 ++ [Main; Main] in
  ∃ r,
    @MeasureSinglePartObjectTransfer _ _ example_flags options
      (Some []) (Some []) "10.0.0.5:443" "10.0.0.5:443" acts acts
      (example_measure 0 (Some 5000000000)) = Some r ∧
    length (uploads r) = 2%nat ∧
    Forall (λ rec, transferSuccess rec ≠ Pending) (uploads r) ∧
    length (downloads r) = 2%nat ∧
    Forall (λ rec, transferSuccess rec ≠ Pending) (downloads r) ∧
    pulseTask (pulseAfter r) = None.
Proof.
  intros options acts.
  assert (is_Some
            (@MeasureSinglePartObjectTransfer _ _ example_flags options
               (Some []) (Some []) "10.0.0.5:443" "10.0.0.5:443" acts acts
               (example_measure 0 (Some 5000000000)))) as [r Hr]
    by (vm_compute; eexists; reflexivity).
  pose proof (@single_part_run_finalizes _ _ example_flags options
                (Some []) (Some []) "10.0.0.5:443" "10.0.0.5:443" acts acts
                (example_measure 0 (Some 5000000000)) r eq_refl
                (small_count 2 eq_refl) (small_count 2 eq_refl) Hr)
    as (Hup & _ & Hlend & Hsetd & _ & Htask).
  destruct Hup as (_ & Hlenu & Hsetu).
  exists r. split; [exact Hr|]. split; [exact Hlenu|].
  split; [exact Hsetu|]. split; [exact Hlend|].
  split; [exact Hsetd|exact Htask].
Defined.

(** The same process: some schedules take the function to its end. *)
Lemma single_part_run_can_return_witness :
  let options := example_options false false 0 2 1 in
  ∃ upActs downActs r,
    @MeasureSinglePartObjectTransfer _ _ example_flags options
      (Some []) (Some []) "10.0.0.5:443" "10.0.0.5:443" upActs downActs
      (example_measure 0 (Some 5000000000)) = Some r.
Proof.
  intros options.
  exact (@single_part_run_can_return _ _ example_flags options [] []
           "10.0.0.5:443" "10.0.0.5:443"
           (example_measure 0 (Some 5000000000)) eq_refl
           (small_count 2 eq_refl) (small_count 2 eq_refl)
           ltac:(simpl; lia) ltac:(simpl; lia)).
Defined.

(** A coordinator configured with two uploads and two downloads. *)
Lemma coordinator_flushes_untouched_records_witness :
  let options := example_options true false 0 2 1 in
  ∃ r,
    @MeasureSinglePartObjectTransfer _ _ example_flags options
      (Some []) (Some []) "10.0.0.5:443" "10.0.0.5:443" [] []
      (example_measure 0 (Some 5000000000)) = Some r ∧
    uploads r = MakeRecords 2 ∧ downloads r = MakeRecords 2 ∧
    Forall (λ rec, transferSuccess rec = Pending) (uploads r ++ downloads r) ∧
    transfers (uploadTrace r) = [] ∧ transfers (downloadTrace r) = [] ∧
    pulseTask (pulseAfter r) = None.
Proof.
  intros options.
  assert (is_Some
            (@MeasureSinglePartObjectTransfer _ _ example_flags options
               (Some []) (Some []) "10.0.0.5:443" "10.0.0.5:443" [] []
               (example_measure 0 (Some 5000000000)))) as [r Hr]
    by (vm_compute; eexists; reflexivity).
  pose proof (@coordinator_flushes_untouched_records _ _ example_flags
                options (Some []) (Some []) "10.0.0.5:443" "10.0.0.5:443"
                [] [] (example_measure 0 (Some 5000000000)) r eq_refl Hr)
    as (Hup & Hdown & Hpending & Htru & Htrd & _ & Htask).
  exists r. split; [exact Hr|]. split; [exact Hup|]. split; [exact Hdown|].
  split; [exact Hpending|]. split; [exact Htru|].
  split; [exact Htrd|exact Htask].
Defined.

(** Two uploads under a cap of one: the lines of the progress log. *)
Lemma progress_lines_are_consistent_witness :
  let options := example_options false false 0 2 1 in
  let call := UploadMeasurement options in
  let s := example_state options call (Some []) (MakeRecords 2)
             (synchronous 0 ++ synchronous 7 ++ [Main; Main]) in
  progress_log (trace s) = [(0, 1, 0); (1, 1, 1)] ∧
  Forall (λ line,
            0 ≤ line.1.1 < 2 ∧ 1 ≤ line.1.2 ≤ line.1.1 + 1 ∧
            0 ≤ line.2 ≤ line.1.1)
    (progress_log (trace s)).
Proof.
  intros options call s.
  assert (is_Some (@run _ _ example_flags options call
            (synchronous 0 ++ synchronous 7 ++ [Main; Main])
            (@PerformMeasurement_enter _ _ _ example_flags options call
               (Some []) (MakeRecords 2) "10.0.0.5:443"))) as Hrun
    by (vm_compute; eauto).
  split; [reflexivity|].
  exact (@progress_lines_are_consistent _ _ _ example_flags options call
           (small_count 2 eq_refl) (Some []) (MakeRecords 2)
           "10.0.0.5:443" s eq_refl
           (example_state_reachable _ _ _ _ _ Hrun)).
Defined.

(** * The records during a single-part run *)

Section SinglePartWrites.
Context {T : Type} `{!S3ObjectTransport T} `{!MeasurementFlags}.
Variable options : CanaryAppOptions.

Lemma written_once (s : State T) :
  record_inv s →
  ∀ n rec, records s !! n = Some rec →
    (length (flag_writes n (trace s)) ≤ 1)%nat ∧
    (transferSuccess rec = Pending ↔ flag_writes n (trace s) = []) ∧
    (issued s ≤ Z.of_nat n → transferSuccess rec = Pending) ∧
    (transferSuccess rec = Pending →
       issued s ≤ Z.of_nat n ∨ Z.of_nat n ∈ (pending s).*1).
Proof.
  intros (_ & _ & Hrecs) n rec Hrec.
  destruct (Hrecs n rec Hrec) as [(Hp & Hw & Hwhere)
    |(b & Hb & Hw & Hlt & Hnot)]; rewrite Hw.
  - split; [simpl; lia|]. by repeat split.
  - pose proof (flag_of_set b) as Hset. rewrite <- Hb in Hset.
    split; [simpl; lia|]. split; [by split|].
    split; [intros; lia|done].
Qed.

(** X18: all through a single-part run, not only at its return, the
    success flag of a record is written at most once and a record is
    pending exactly while nothing was written to it; no record is written
    before its transfer is issued, and every record is written by the time
    its transfer has notified the orchestrator.  This holds for the upload
    and for the download run. *)
Theorem single_part_records_written_once (t : T) parentAddress :
  isParentProcess options = false →
  0 ≤ numUpTransfers options ≤ UINT32_MAX →
  0 ≤ numDownTransfers options ≤ UINT32_MAX →
  (∀ s, reachable options (UploadMeasurement options) (Some t)
          (MakeRecords (numUpTransfers options)) parentAddress s →
        ∀ n rec, records s !! n = Some rec →
          (length (flag_writes n (trace s)) ≤ 1)%nat ∧
          (transferSuccess rec = Pending ↔ flag_writes n (trace s) = []) ∧
          (issued s ≤ Z.of_nat n → transferSuccess rec = Pending) ∧
          (transferSuccess rec = Pending →
             issued s ≤ Z.of_nat n ∨ Z.of_nat n ∈ (pending s).*1)) ∧
  (∀ s, reachable options (DownloadMeasurement options) (Some t)
          (MakeRecords (numDownTransfers options)) parentAddress s →
        ∀ n rec, records s !! n = Some rec →
          (length (flag_writes n (trace s)) ≤ 1)%nat ∧
          (transferSuccess rec = Pending ↔ flag_writes n (trace s) = []) ∧
          (issued s ≤ Z.of_nat n → transferSuccess rec = Pending) ∧
          (transferSuccess rec = Pending →
             issued s ≤ Z.of_nat n ∨ Z.of_nat n ∈ (pending s).*1)).
Proof.
  intros Hrole Hup Hdown.
  destruct (single_part_upload_discipline (T := T) options) as [Hupi Hupc].
  destruct (single_part_download_discipline (T := T) options)
    as [Hdowni Hdownc].
  split; intros s Hs.
  - apply written_once.
    apply (record_inv_reachable options (UploadMeasurement options) Hup
             Hupi Hupc t _ parentAddress s Hrole
             (proj1 (MakeRecords_pending _)) Hs).
  - apply written_once.
    apply (record_inv_reachable options (DownloadMeasurement options) Hdown
             Hdowni Hdownc t _ parentAddress s Hrole
             (proj1 (MakeRecords_pending _)) Hs).
Qed.

End SinglePartWrites.

(** Two uploads; the first has completed with an error, the second is in
    flight. *)
Lemma single_part_records_written_once_witness :
  let options := example_options false false 0 2 1 in
  let call := UploadMeasurement options in
  let s := example_state options call (Some []) (MakeRecords 2)
             (synchronous 7 ++ [Main; Main; Main]) in
  transferSuccess <$> records s = [Failed; Pending] ∧
  flag_writes 0 (trace s) = [false] ∧ flag_writes 1 (trace s) = [] ∧
  ∀ n rec, records s !! n = Some rec →
    (length (flag_writes n (trace s)) ≤ 1)%nat ∧
    (transferSuccess rec = Pending ↔ flag_writes n (trace s) = []) ∧
    (issued s ≤ Z.of_nat n → transferSuccess rec = Pending) ∧
    (transferSuccess rec = Pending →
       issued s ≤ Z.of_nat n ∨ Z.of_nat n ∈ (pending s).*1).
Proof.
  intros options call s.
  assert (is_Some (@run _ _ example_flags options call
            (synchronous 7 ++ [Main; Main; Main])
            (@PerformMeasurement_enter _ _ _ example_flags options call
               (Some []) (MakeRecords 2) "10.0.0.5:443"))) as Hrun
    by (vm_compute; eauto).
  pose proof (@single_part_records_written_once _ _ example_flags options []
                "10.0.0.5:443" eq_refl (small_count 2 eq_refl)
                (small_count 2 eq_refl)) as [Hup _].
  split; [reflexivity|]. split; [reflexivity|]. split; [reflexivity|].
  exact (Hup s (example_state_reachable _ _ _ _ _ Hrun)).
Defined.

(** Two uploads, the second failing, observed at the return. *)
Lemma records_set_when_run_returns_witness :
  let options := example_options false false 0 2 1 in
  let call := UploadMeasurement options in
  let s := example_state options call (Some []) (MakeRecords 2)
             (synchronous 0 ++ synchronous 7 ++ [Main; Main]) in
  pc s = Returned ∧ numCompleted s = 2 ∧
  transferSuccess <$> records s = [Succeeded; Failed] ∧
  ∀ n rec, records s !! n = Some rec →
    transferSuccess rec ≠ Pending ∧
    ∃ code, codes_of n (trace s) = [code] ∧
      flag_writes n (trace s) = [code =? AWS_ERROR_SUCCESS] ∧
      transferSuccess rec = flag_of (code =? AWS_ERROR_SUCCESS).
Proof.
  intros options call s.
  assert (is_Some (@run _ _ example_flags options call
            (synchronous 0 ++ synchronous 7 ++ [Main; Main])
            (@PerformMeasurement_enter _ _ _ example_flags options call
               (Some []) (MakeRecords 2) "10.0.0.5:443"))) as Hrun
    by (vm_compute; eauto).
  pose proof (@records_set_when_run_returns _ _ example_flags 3 options
                (Some []) (Some []) "10.0.0.5:443" eq_refl
                (small_count 2 eq_refl) (small_count 2 eq_refl))
    as (Hup & _ & _).
  destruct (Hup s (example_state_reachable _ _ _ _ _ Hrun) eq_refl)
    as (Hdone & _ & Hrecs).
  split; [reflexivity|]. split; [exact Hdone|].
  split; [reflexivity|exact Hrecs].
Defined.

(** Two uploads under a cap of one in a standalone process: the first
    completes between the test of the slot-wait predicate and the block. *)
Lemma lost_wakeup_blocks_the_loop_witness :
  let options := example_options false false 0 2 1 in
  let call := UploadMeasurement options in
  ∃ s,
    @run _ _ example_flags options call
      [Main; Main; Main; Cv WaitEnter; NotifyBegin 0 0; NotifyEnd 0;
       Cv (NotifyOne 0); Cv WaitBlock]
      (@PerformMeasurement_enter _ _ _ example_flags options call (Some [])
         (MakeRecords 2) "10.0.0.5:443") = Some s ∧
    pc s = AtWaitSlot ∧ waiter s = Blocked ∧ crashed s = false ∧
    i s = 0 ∧ (transfers (trace s)).*1 = [0] ∧
    notifications (trace s) = [(0, 0)] ∧
    numInProgress s = 0 ∧ numCompleted s = 1 ∧
    pending s = [] ∧ finishing s = [] ∧ signalling s = [] ∧
    records s !! 0%nat
    = Some (SetTransferSuccess true (AddDataUpMetric 0 MakeTransferState)) ∧
    records s !! 1%nat = Some MakeTransferState ∧
    (∀ a, a ≠ Cv SpuriousWakeup →
          @act _ _ example_flags options call a s = None).
Proof.
  intros options call.
  exact (@lost_wakeup_blocks_the_loop _ _ example_flags options []
           "10.0.0.5:443" 0 eq_refl eq_refl (several 2 eq_refl)).
Defined.
